(** * Text-to-speech pipeline: chunked synthesis and queued playback

    A shallow embedding of the Gemini text-to-speech service
    ([sanitizeText], [chunkText], [handleApiError], [generateSpeech]) and of
    the React hook [useTextToSpeech] ([playNextInQueue], [stop], [speak]),
    followed by the properties the specification states about them.

    JavaScript strings are sequences of UTF-16 code units; [length],
    [trim], [substring], [includes] and regular expressions without the
    [u] flag work on code units, a regular expression with the [u] flag
    works on code points. *)

From Stdlib Require Import String Ascii.
From Stdlib Require Import List NArith Arith Bool Lia QArith.
Local Close Scope string_scope.
Local Close Scope Q_scope.
Import ListNotations.

Set Implicit Arguments.

(* ===================================================================== *)
(** * Part I. Definitions                                                 *)
(* ===================================================================== *)

(** ** JavaScript strings *)

Module JS.

Definition codeUnit := N.
Definition jsstring := list codeUnit.
Definition codePoint := N.

Definition isCodeUnit (c : N) : bool := (c <? 0x10000)%N.

Definition inRange (lo hi c : N) : bool := ((lo <=? c) && (c <=? hi))%N.

(** [!s] for a string: only the empty string is falsy. *)
Definition isEmpty (s : jsstring) : bool :=
  match s with [] => true | _ :: _ => false end.

(** ECMAScript WhiteSpace and LineTerminator: what [trim] strips and what
    the class escape [\s] matches. *)
Definition isWhiteSpace (c : codeUnit) : bool :=
  inRange 0x0009 0x000D c     (* TAB, LF, VT, FF, CR *)
  || (c =? 0x0020)%N          (* SPACE *)
  || (c =? 0x00A0)%N          (* NO-BREAK SPACE *)
  || (c =? 0x1680)%N          (* OGHAM SPACE MARK *)
  || inRange 0x2000 0x200A c  (* EN QUAD .. HAIR SPACE *)
  || (c =? 0x2028)%N          (* LINE SEPARATOR *)
  || (c =? 0x2029)%N          (* PARAGRAPH SEPARATOR *)
  || (c =? 0x202F)%N          (* NARROW NO-BREAK SPACE *)
  || (c =? 0x205F)%N          (* MEDIUM MATHEMATICAL SPACE *)
  || (c =? 0x3000)%N          (* IDEOGRAPHIC SPACE *)
  || (c =? 0xFEFF)%N.         (* ZERO WIDTH NO-BREAK SPACE *)

Fixpoint dropWhile (p : codeUnit -> bool) (s : jsstring) : jsstring :=
  match s with
  | [] => []
  | c :: s' => if p c then dropWhile p s' else s
  end.

Definition trimStart (s : jsstring) : jsstring := dropWhile isWhiteSpace s.
Fixpoint trimEnd (s : jsstring) : jsstring :=
  match s with
  | [] => []
  | c :: s' =>
      match trimEnd s' with
      | [] => if isWhiteSpace c then [] else [c]
      | t => c :: t
      end
  end.

(** [String.prototype.trim]. *)
Definition trim (s : jsstring) : jsstring := trimEnd (trimStart s).

(** [String.prototype.substring]: both indices are clamped to the length
    and swapped when out of order. *)
Definition substring (s : jsstring) (i j : nat) : jsstring :=
  let a := Nat.min i (length s) in
  let b := Nat.min j (length s) in
  firstn (Nat.max a b - Nat.min a b) (skipn (Nat.min a b) s).

Fixpoint startsWith (needle s : jsstring) : bool :=
  match needle, s with
  | [], _ => true
  | _ :: _, [] => false
  | n :: needle', c :: s' => (n =? c)%N && startsWith needle' s'
  end.

(** [String.prototype.includes]. *)
Fixpoint includes (s needle : jsstring) : bool :=
  startsWith needle s ||
  match s with
  | [] => false
  | _ :: s' => includes s' needle
  end.

(** *** UTF-16 *)

Definition isHighSurrogate (c : N) : bool := inRange 0xD800 0xDBFF c.
Definition isLowSurrogate (c : N) : bool := inRange 0xDC00 0xDFFF c.
Definition isSurrogate (c : N) : bool := inRange 0xD800 0xDFFF c.

(** The code points a [u]-flag regular expression or a string iterator
    sees: a high surrogate followed by a low one is one supplementary code
    point, any other code unit (also an unpaired surrogate) is itself. *)
Fixpoint codePoints (s : jsstring) : list codePoint :=
  match s with
  | [] => []
  | c :: s' =>
      match s' with
      | d :: s'' =>
          if isHighSurrogate c && isLowSurrogate d
          then (0x10000 + (c - 0xD800) * 0x400 + (d - 0xDC00))%N
               :: codePoints s''
          else c :: codePoints s'
      | [] => [c]
      end
  end.

(** UTF-16 encoding of one code point and of a sequence of them. *)
Definition encodeCodePoint (cp : codePoint) : jsstring :=
  if (cp <? 0x10000)%N then [cp]
  else [ (0xD800 + (cp - 0x10000) / 0x400)%N;
         (0xDC00 + (cp - 0x10000) mod 0x400)%N ].

Definition fromCodePoints (cps : list codePoint) : jsstring :=
  flat_map encodeCodePoint cps.

(** A well-formed string: code units only, and no unpaired surrogate. *)
Definition isWellFormed (s : jsstring) : bool :=
  forallb isCodeUnit s && forallb (fun cp => negb (isSurrogate cp)) (codePoints s).

(** *** String literals

    A literal of the source is written here as a Rocq string, that is as
    its UTF-8 bytes; [utf16] gives the code units JavaScript holds for it. *)

Fixpoint utf8CodePoints (bs : list N) (need : nat) (acc : N) : list codePoint :=
  match bs with
  | [] => []
  | b :: bs' =>
      match need with
      | O =>
          if (b <? 0x80)%N then b :: utf8CodePoints bs' 0 0%N
          else if (b <? 0xE0)%N then utf8CodePoints bs' 1 (b mod 0x20)%N
          else if (b <? 0xF0)%N then utf8CodePoints bs' 2 (b mod 0x10)%N
          else utf8CodePoints bs' 3 (b mod 0x08)%N
      | S n =>
          let acc' := (acc * 0x40 + b mod 0x40)%N in
          match n with
          | O => acc' :: utf8CodePoints bs' 0 0%N
          | S _ => utf8CodePoints bs' n acc'
          end
      end
  end.

Definition utf16 (lit : string) : jsstring :=
  fromCodePoints
    (utf8CodePoints (map N_of_ascii (list_ascii_of_string lit)) 0 0%N).

(** [toLowerCase] restricted to ASCII letters. *)
Definition asciiLower (c : codeUnit) : codeUnit :=
  if inRange 0x41 0x5A c then (c + 0x20)%N else c.

Definition isAscii (c : codeUnit) : bool := (c <? 0x80)%N.

End JS.

Import JS.

(** ** Regular expressions

    The fragment of ECMAScript patterns the service uses: greedy [+] and
    [*] over a character class, the end anchor, sequence and ordered
    alternation, with the backtracking semantics of the language: a matcher
    takes the rest of the input and a continuation and returns the input
    left after the whole match. *)

Module Regex.

Inductive regex : Type :=
| Plus (cls : codeUnit -> bool)
| Star (cls : codeUnit -> bool)
| EndAnchor
| Seq (r1 r2 : regex)
| Alt (r1 r2 : regex).

Definition cont := jsstring -> option jsstring.

Fixpoint starMatch (cls : codeUnit -> bool) (s : jsstring) (k : cont)
  : option jsstring :=
  match s with
  | [] => k []
  | c :: s' =>
      if cls c then
        match starMatch cls s' k with
        | Some rest => Some rest
        | None => k s
        end
      else k s
  end.

Definition plusMatch (cls : codeUnit -> bool) (s : jsstring) (k : cont)
  : option jsstring :=
  match s with
  | [] => None
  | c :: s' => if cls c then starMatch cls s' k else None
  end.

Fixpoint matcher (r : regex) (s : jsstring) (k : cont) : option jsstring :=
  match r with
  | Plus cls => plusMatch cls s k
  | Star cls => starMatch cls s k
  | EndAnchor => match s with [] => k [] | _ :: _ => None end
  | Seq r1 r2 => matcher r1 s (fun s' => matcher r2 s' k)
  | Alt r1 r2 =>
      match matcher r1 s k with
      | Some rest => Some rest
      | None => matcher r2 s k
      end
  end.

(** One attempt at the current position; the result is the input left. *)
Definition matchHere (r : regex) (s : jsstring) : option jsstring :=
  matcher r s (fun rest => Some rest).

(** [String.prototype.match] with the [g] flag: every match from left to
    right. A failed attempt moves one code unit on, and so does an empty
    match. [fuel] bounds the number of attempts; a string of [n] code
    units needs at most [n + 1]. *)
Fixpoint matchAllFrom (fuel : nat) (r : regex) (s : jsstring)
  : list jsstring :=
  match fuel with
  | O => []
  | S fuel' =>
      match matchHere r s with
      | Some rest =>
          let matched := firstn (length s - length rest) s in
          match matched, s with
          | [], [] => [ [] ]
          | [], _ :: s' => [] :: matchAllFrom fuel' r s'
          | _ :: _, _ => matched :: matchAllFrom fuel' r rest
          end
      | None =>
          match s with
          | [] => []
          | _ :: s' => matchAllFrom fuel' r s'
          end
      end
  end.

Definition matchAll (r : regex) (s : jsstring) : list jsstring :=
  matchAllFrom (S (length s)) r s.

End Regex.

Import Regex.

(** ** The Gemini service ([services/geminiService]) *)

Definition MAX_TEXT_LENGTH : nat := 4500.

(** Unicode general category Cc (Control): U+0000..U+001F and
    U+007F..U+009F. *)
Definition isCc (cp : codePoint) : bool :=
  inRange 0x0000 0x001F cp || inRange 0x007F 0x009F cp.

(** General category Cf (Format) as in Unicode 15.1; the table a JavaScript
    engine consults for [\p{Cf}] comes with the engine, the functions below
    take it as the parameter [isCf]. *)
Definition isCf_Unicode15 (cp : codePoint) : bool :=
  (cp =? 0x00AD)%N
  || inRange 0x0600 0x0605 cp
  || (cp =? 0x061C)%N
  || (cp =? 0x06DD)%N
  || (cp =? 0x070F)%N
  || inRange 0x0890 0x0891 cp
  || (cp =? 0x08E2)%N
  || (cp =? 0x180E)%N
  || inRange 0x200B 0x200F cp
  || inRange 0x202A 0x202E cp
  || inRange 0x2060 0x2064 cp
  || inRange 0x2066 0x206F cp
  || (cp =? 0xFEFF)%N
  || inRange 0xFFF9 0xFFFB cp
  || (cp =? 0x110BD)%N
  || (cp =? 0x110CD)%N
  || inRange 0x13430 0x1343F cp
  || inRange 0x1BCA0 0x1BCA3 cp
  || inRange 0x1D173 0x1D17A cp
  || (cp =? 0xE0001)%N
  || inRange 0xE0020 0xE007F cp.

Section Sanitizer.

Variable isCf : codePoint -> bool.

(** The character class
    [[\p{Cf}\u0000-\u0008\u000B\u000C\u000E-\u001F\u007F-\u009F]]. *)
Definition sanitizeClass (cp : codePoint) : bool :=
  isCf cp
  || inRange 0x0000 0x0008 cp
  || (cp =? 0x000B)%N
  || (cp =? 0x000C)%N
  || inRange 0x000E 0x001F cp
  || inRange 0x007F 0x009F cp.

(** [text.replace(/[...]/gu, "")]: with the [u] flag the pattern is
    matched against code points; every match is deleted and what is left
    is the string again. *)
Definition sanitizeText (text : jsstring) : jsstring :=
  fromCodePoints (filter (fun cp => negb (sanitizeClass cp)) (codePoints text)).

End Sanitizer.

(** [[.!?؟]]: full stop, exclamation mark, question mark, Arabic question
    mark (U+061F). *)
Definition isTerminator (c : codeUnit) : bool :=
  (c =? 0x2E)%N || (c =? 0x21)%N || (c =? 0x3F)%N || (c =? 0x061F)%N.

Definition notTerminator (c : codeUnit) : bool := negb (isTerminator c).
Definition terminatorOrSpace (c : codeUnit) : bool :=
  isTerminator c || isWhiteSpace c.

(** [/[^.!?؟]+[.!?؟\s]*|[^.!?؟]+$/g] *)
Definition sentencePattern : regex :=
  Alt (Seq (Plus notTerminator) (Star terminatorOrSpace))
      (Seq (Plus notTerminator) EndAnchor).

Definition SPACE : jsstring := [0x20%N].

(** [if (currentChunk.trim()) chunks.push(currentChunk.trim())] *)
Definition pushTrimmed (chunks : list jsstring) (currentChunk : jsstring)
  : list jsstring :=
  if isEmpty (trim currentChunk) then chunks
  else chunks ++ [trim currentChunk].

(** [for (let i = 0; i < s.length; i += maxLen) chunks.push(s.substring(i, i + maxLen))];
    the result is the list of slices pushed. [fuel] bounds the number of
    iterations ([maxLen = 0] would loop for ever). *)
Fixpoint sliceLoop (fuel : nat) (maxLen : nat) (s : jsstring) (i : nat)
  : list jsstring :=
  match fuel with
  | O => []
  | S fuel' =>
      if i <? length s
      then substring s i (i + maxLen) :: sliceLoop fuel' maxLen s (i + maxLen)
      else []
  end.

Definition forceSplit (maxLen : nat) (s : jsstring) : list jsstring :=
  sliceLoop (length s) maxLen s 0.

(** One iteration of the loop over the sentences, on the pair
    [(chunks, currentChunk)]. *)
Definition chunkStep (maxLen : nat) (st : list jsstring * jsstring)
  (sentence : jsstring) : list jsstring * jsstring :=
  let '(chunks, currentChunk) := st in
  let trimmedSentence := trim sentence in
  if isEmpty trimmedSentence then st
  else if maxLen <? length trimmedSentence then
    (pushTrimmed chunks currentChunk ++ forceSplit maxLen trimmedSentence, [])
  else if maxLen <? length currentChunk + length trimmedSentence + 1 then
    (pushTrimmed chunks currentChunk, trimmedSentence ++ SPACE)
  else
    (chunks, currentChunk ++ trimmedSentence ++ SPACE).

Definition chunkTextAt (maxLen : nat) (text : jsstring) : list jsstring :=
  let trimmedText := trim text in
  if isEmpty trimmedText then []
  else if length trimmedText <=? maxLen then [trimmedText]
  else
    let sentences := matchAll sentencePattern trimmedText in
    let '(chunks, currentChunk) :=
      fold_left (chunkStep maxLen) sentences ([], []) in
    pushTrimmed chunks currentChunk.

Definition chunkText (text : jsstring) : list jsstring :=
  chunkTextAt MAX_TEXT_LENGTH text.


(** *** Errors *)

(** A value a [catch] clause receives: an [Error] object with its message,
    or anything else. *)
Inductive thrown : Type :=
| ErrorObj (message : jsstring)
| NonError.

(** The user-facing messages of [handleApiError], in the order of the
    source. *)
Definition MSG_UNKNOWN : jsstring :=
  utf16 "یک خطای ناشناخته در هنگام ارتباط با سرویس رخ داد.".
Definition MSG_CREDENTIAL : jsstring :=
  utf16 "کلید API نامعتبر است یا مجوز کافی ندارد. لطفاً تنظیمات خود را بررسی کنید.".
Definition MSG_RATE_LIMIT : jsstring :=
  utf16 "تعداد درخواست‌ها بیش از حد مجاز است. لطفاً کمی صبر کرده و دوباره امتحان کنید.".
Definition MSG_UNAVAILABLE : jsstring :=
  utf16 "سرویس در حال حاضر در دسترس نیست یا با خطای داخلی مواجه شده است. لطفاً بعداً دوباره تلاش کنید.".
Definition MSG_BAD_REQUEST : jsstring :=
  utf16 "درخواست نامعتبر بود. لطفاً از صحت متن ورودی خود اطمینان حاصل کنید.".
Definition MSG_UNEXPECTED : jsstring :=
  utf16 "یک خطای غیرمنتظره رخ داد. لطفاً دوباره تلاش کنید.".

Section Service.

(** What the engine and the environment provide: [String.prototype.toLowerCase],
    the Cf table, [process.env.API_KEY], and the remote model. *)
Variable toLowerCase : jsstring -> jsstring.
Variable isCf : codePoint -> bool.
Variable API_KEY : option jsstring.

(** The outcome of one [ai.models.generateContent] call: the promise
    rejects (or reading the response throws), or a response arrives whose
    [candidates?.[0]?.content?.parts?.[0]?.inlineData?.data] is a string
    or [undefined]. *)
Inductive response : Type :=
| Rejects (e : thrown)
| Responds (base64Audio : option jsstring).

(** The remote model: the answer to the [n]-th request of this call of
    [generateSpeech], which carries the text [contents]. *)
Variable generateContent : nat -> jsstring -> response.

(** The message of the [Error] that [handleApiError] returns. *)
Definition handleApiError (error : thrown) : jsstring :=
  match error with
  | ErrorObj message =>
      let errorMessage := toLowerCase message in
      if includes errorMessage (utf16 "api key not valid")
         || includes errorMessage (utf16 "permission denied")
      then MSG_CREDENTIAL
      else if includes errorMessage (utf16 "rate limit")
      then MSG_RATE_LIMIT
      else if includes errorMessage (utf16 "500")
              || includes errorMessage (utf16 "503")
              || includes errorMessage (utf16 "server error")
              || includes errorMessage (utf16 "rpc failed")
      then MSG_UNAVAILABLE
      else if includes errorMessage (utf16 "400")
              || includes errorMessage (utf16 "invalid")
      then MSG_BAD_REQUEST
      else MSG_UNEXPECTED
  | NonError => MSG_UNKNOWN
  end.

(** [!x] for an optional string: [undefined] and the empty string are
    falsy. *)
Definition falsy (x : option jsstring) : bool :=
  match x with
  | None => true
  | Some s => isEmpty s
  end.

(** What a call of [generateSpeech] did: the texts sent to the remote
    model, in order, and how the promise settled. *)
Record synthesis : Type := {
  requests : list jsstring;
  settled : thrown + list jsstring
}.

(** The loop over [textChunks]; [sent] are the requests issued so far and
    [audioChunks] the payloads pushed so far. A rejected request leaves
    the loop with the value thrown. *)
Fixpoint synthesizeChunks (textChunks : list jsstring)
  (sent : list jsstring) (audioChunks : list jsstring) : synthesis :=
  match textChunks with
  | [] => {| requests := sent; settled := inr audioChunks |}
  | chunk :: rest =>
      let sanitizedChunk := trim (sanitizeText isCf chunk) in
      if isEmpty sanitizedChunk then synthesizeChunks rest sent audioChunks
      else
        match generateContent (length sent) sanitizedChunk with
        | Rejects e =>
            {| requests := sent ++ [sanitizedChunk]; settled := inl e |}
        | Responds base64Audio =>
            if falsy base64Audio
            then synthesizeChunks rest (sent ++ [sanitizedChunk]) audioChunks
            else synthesizeChunks rest (sent ++ [sanitizedChunk])
                   (audioChunks ++ [match base64Audio with
                                    | Some d => d
                                    | None => []
                                    end])
        end
  end.

(** The body of the [try] block. *)
Definition generateSpeechBody (text : jsstring) : synthesis :=
  if falsy API_KEY then
    {| requests := [];
       settled := inl (ErrorObj (utf16 "API_KEY environment variable not set")) |}
  else
    let textChunks := chunkText text in
    if length textChunks =? 0
    then {| requests := []; settled := inr [] |}
    else synthesizeChunks textChunks [] [].

(** [generateSpeech]: whatever the body throws is replaced by the error
    [handleApiError] builds. *)
Definition generateSpeech (text : jsstring) : synthesis :=
  let r := generateSpeechBody text in
  match settled r with
  | inl error =>
      {| requests := requests r;
         settled := inl (ErrorObj (handleApiError error)) |}
  | inr audioChunks => r
  end.

End Service.

(** ** The hook ([hooks/useTextToSpeech]) *)

(** The message [speak] shows for a caught value that is not an [Error]. *)
Definition MSG_SPEAK_UNKNOWN : jsstring :=
  utf16 "یک خطای ناشناخته رخ داد.".

Module Hook.

Section WithBuffers.

(** Decoded audio; [utils/audio] makes it, the hook only queues it. *)
Variable AudioBuffer : Type.

(** The identity of an [onEnd] closure. *)
Definition callback := nat.

(** An [AudioBufferSourceNode] as the hook sets it up: its buffer, its
    playback rate, and the [onEnd] its [onended] handler has captured. *)
Record sourceNode : Type := {
  node_id : nat;
  node_buffer : AudioBuffer;
  node_rate : Q;
  node_onEnd : option callback
}.

(** What the hook does to the outside, in order. *)
Inductive event : Type :=
| SpeakCalled (id : nat) (onEnd : option callback)
| SynthesisRequested (id : nat) (text : jsstring)
| NodeStarted (n : sourceNode)
| NodeStopRequested (id : nat)
| NodeFinished (id : nat)
| CallbackInvoked (cb : callback).

(** Where a [speak] call that has not returned is suspended. *)
Inductive awaiting : Type :=
| AwaitSynthesis
| AwaitDecode.

Record suspended : Type := {
  speak_id : nat;
  speak_onEnd : option callback;
  speak_at : awaiting
}.

(** The state cells and refs of the hook, then the environment: the
    nodes that are playing, the [speak] calls that are suspended, a
    supply of fresh identities and the log of events. *)
Record world : Type := {
  isLoading : bool;
  isPlaying : bool;
  error : option jsstring;
  audioContextRef : bool;
  sourceNodeRef : option sourceNode;
  audioQueueRef : list AudioBuffer;
  isStoppingRef : bool;
  playbackRateRef : Q;
  liveNodes : list sourceNode;
  suspendedCalls : list suspended;
  nextId : nat;
  log : list event
}.

Definition initial : world := {|
  isLoading := false;
  isPlaying := false;
  error := None;
  audioContextRef := false;
  sourceNodeRef := None;
  audioQueueRef := [];
  isStoppingRef := false;
  playbackRateRef := 1%Q;
  liveNodes := [];
  suspendedCalls := [];
  nextId := 0;
  log := []
|}.

Definition setIsLoading (b : bool) (w : world) : world :=
  {| isLoading := b; isPlaying := isPlaying w; error := error w;
     audioContextRef := audioContextRef w; sourceNodeRef := sourceNodeRef w;
     audioQueueRef := audioQueueRef w; isStoppingRef := isStoppingRef w;
     playbackRateRef := playbackRateRef w; liveNodes := liveNodes w;
     suspendedCalls := suspendedCalls w; nextId := nextId w; log := log w |}.

Definition setIsPlaying (b : bool) (w : world) : world :=
  {| isLoading := isLoading w; isPlaying := b; error := error w;
     audioContextRef := audioContextRef w; sourceNodeRef := sourceNodeRef w;
     audioQueueRef := audioQueueRef w; isStoppingRef := isStoppingRef w;
     playbackRateRef := playbackRateRef w; liveNodes := liveNodes w;
     suspendedCalls := suspendedCalls w; nextId := nextId w; log := log w |}.

Definition setError (e : option jsstring) (w : world) : world :=
  {| isLoading := isLoading w; isPlaying := isPlaying w; error := e;
     audioContextRef := audioContextRef w; sourceNodeRef := sourceNodeRef w;
     audioQueueRef := audioQueueRef w; isStoppingRef := isStoppingRef w;
     playbackRateRef := playbackRateRef w; liveNodes := liveNodes w;
     suspendedCalls := suspendedCalls w; nextId := nextId w; log := log w |}.

Definition setAudioContextRef (b : bool) (w : world) : world :=
  {| isLoading := isLoading w; isPlaying := isPlaying w; error := error w;
     audioContextRef := b; sourceNodeRef := sourceNodeRef w;
     audioQueueRef := audioQueueRef w; isStoppingRef := isStoppingRef w;
     playbackRateRef := playbackRateRef w; liveNodes := liveNodes w;
     suspendedCalls := suspendedCalls w; nextId := nextId w; log := log w |}.

Definition setSourceNodeRef (n : option sourceNode) (w : world) : world :=
  {| isLoading := isLoading w; isPlaying := isPlaying w; error := error w;
     audioContextRef := audioContextRef w; sourceNodeRef := n;
     audioQueueRef := audioQueueRef w; isStoppingRef := isStoppingRef w;
     playbackRateRef := playbackRateRef w; liveNodes := liveNodes w;
     suspendedCalls := suspendedCalls w; nextId := nextId w; log := log w |}.

Definition setAudioQueueRef (q : list AudioBuffer) (w : world) : world :=
  {| isLoading := isLoading w; isPlaying := isPlaying w; error := error w;
     audioContextRef := audioContextRef w; sourceNodeRef := sourceNodeRef w;
     audioQueueRef := q; isStoppingRef := isStoppingRef w;
     playbackRateRef := playbackRateRef w; liveNodes := liveNodes w;
     suspendedCalls := suspendedCalls w; nextId := nextId w; log := log w |}.

Definition setIsStoppingRef (b : bool) (w : world) : world :=
  {| isLoading := isLoading w; isPlaying := isPlaying w; error := error w;
     audioContextRef := audioContextRef w; sourceNodeRef := sourceNodeRef w;
     audioQueueRef := audioQueueRef w; isStoppingRef := b;
     playbackRateRef := playbackRateRef w; liveNodes := liveNodes w;
     suspendedCalls := suspendedCalls w; nextId := nextId w; log := log w |}.

Definition setPlaybackRateRef (r : Q) (w : world) : world :=
  {| isLoading := isLoading w; isPlaying := isPlaying w; error := error w;
     audioContextRef := audioContextRef w; sourceNodeRef := sourceNodeRef w;
     audioQueueRef := audioQueueRef w; isStoppingRef := isStoppingRef w;
     playbackRateRef := r; liveNodes := liveNodes w;
     suspendedCalls := suspendedCalls w; nextId := nextId w; log := log w |}.

Definition setLiveNodes (l : list sourceNode) (w : world) : world :=
  {| isLoading := isLoading w; isPlaying := isPlaying w; error := error w;
     audioContextRef := audioContextRef w; sourceNodeRef := sourceNodeRef w;
     audioQueueRef := audioQueueRef w; isStoppingRef := isStoppingRef w;
     playbackRateRef := playbackRateRef w; liveNodes := l;
     suspendedCalls := suspendedCalls w; nextId := nextId w; log := log w |}.

Definition setSuspendedCalls (l : list suspended) (w : world) : world :=
  {| isLoading := isLoading w; isPlaying := isPlaying w; error := error w;
     audioContextRef := audioContextRef w; sourceNodeRef := sourceNodeRef w;
     audioQueueRef := audioQueueRef w; isStoppingRef := isStoppingRef w;
     playbackRateRef := playbackRateRef w; liveNodes := liveNodes w;
     suspendedCalls := l; nextId := nextId w; log := log w |}.

Definition setNextId (n : nat) (w : world) : world :=
  {| isLoading := isLoading w; isPlaying := isPlaying w; error := error w;
     audioContextRef := audioContextRef w; sourceNodeRef := sourceNodeRef w;
     audioQueueRef := audioQueueRef w; isStoppingRef := isStoppingRef w;
     playbackRateRef := playbackRateRef w; liveNodes := liveNodes w;
     suspendedCalls := suspendedCalls w; nextId := n; log := log w |}.

Definition emit (e : event) (w : world) : world :=
  {| isLoading := isLoading w; isPlaying := isPlaying w; error := error w;
     audioContextRef := audioContextRef w; sourceNodeRef := sourceNodeRef w;
     audioQueueRef := audioQueueRef w; isStoppingRef := isStoppingRef w;
     playbackRateRef := playbackRateRef w; liveNodes := liveNodes w;
     suspendedCalls := suspendedCalls w; nextId := nextId w;
     log := log w ++ [e] |}.

(** *** Statements: state and exceptions *)

Definition M (A : Type) : Type := world -> (thrown + A) * world.

Definition ret {A : Type} (a : A) : M A := fun w => (inr a, w).

Definition bind {A B : Type} (m : M A) (f : A -> M B) : M B :=
  fun w =>
    match m w with
    | (inl e, w') => (inl e, w')
    | (inr a, w') => f a w'
    end.

Definition throw {A : Type} (e : thrown) : M A := fun w => (inl e, w).

Definition gets {A : Type} (f : world -> A) : M A := fun w => (inr (f w), w).

Definition modify (f : world -> world) : M unit := fun w => (inr tt, f w).

(** [try { body } catch (e) { handler }] *)
Definition tryCatch {A : Type} (body : M A) (handler : thrown -> M A) : M A :=
  fun w =>
    match body w with
    | (inl e, w') => handler e w'
    | (inr a, w') => (inr a, w')
    end.

(** [try { body } finally { cleanup }] *)
Definition tryFinally {A : Type} (body : M A) (cleanup : M unit) : M A :=
  fun w =>
    match body w with
    | (r, w') =>
        match cleanup w' with
        | (inl e, w'') => (inl e, w'')
        | (inr _, w'') => (r, w'')
        end
    end.

(** The state a statement leaves, thrown or not. *)
Definition exec {A : Type} (m : M A) (w : world) : world := snd (m w).

Notation "x <- m ;; k" := (bind m (fun x => k))
  (at level 61, m at next level, right associativity).
Notation "m ;; k" := (bind m (fun _ => k))
  (at level 61, right associativity).

(** What a call of the closure [cb] throws, if it does not return, when
    the events so far are the given ones. The hook knows nothing of the
    closures it is given. *)
Variable raises : callback -> list event -> option thrown.

(** [if (onEnd) onEnd()] *)
Definition invoke (onEnd : option callback) : M unit :=
  match onEnd with
  | Some cb =>
      history <- gets log ;;
      modify (emit (CallbackInvoked cb)) ;;
      match raises cb history with
      | Some e => throw e
      | None => ret tt
      end
  | None => ret tt
  end.

(** What [audioContext.createBufferSource()] throws when
    [audioContextRef.current] is still [null]. *)
Definition NULL_CONTEXT : thrown :=
  ErrorObj (utf16 "Cannot read properties of null (reading 'createBufferSource')").

(** [sourceNode.start()]: the node plays from now on, until its [ended]
    event is dispatched. *)
Definition start (n : sourceNode) : M unit :=
  modify (fun w => setLiveNodes (liveNodes w ++ [n]) w) ;;
  modify (emit (NodeStarted n)).

Definition playNextInQueue (onEnd : option callback) : M unit :=
  isStopping <- gets isStoppingRef ;;
  if isStopping then
    modify (setAudioQueueRef []) ;;
    modify (setSourceNodeRef None) ;;
    modify (setIsPlaying false) ;;
    invoke onEnd
  else
    queue <- gets audioQueueRef ;;
    match queue with
    | buffer :: rest =>
        audioContext <- gets audioContextRef ;;
        modify (setAudioQueueRef rest) ;;
        if audioContext then
          id <- gets nextId ;;
          modify (setNextId (S id)) ;;
          rate <- gets playbackRateRef ;;
          let sourceNode :=
            {| node_id := id; node_buffer := buffer;
               node_rate := rate; node_onEnd := onEnd |} in
          modify (setSourceNodeRef (Some sourceNode)) ;;
          start sourceNode
        else throw NULL_CONTEXT
    | [] =>
        modify (setIsPlaying false) ;;
        modify (setSourceNodeRef None) ;;
        invoke onEnd
    end.

(** The [onended] handler [playNextInQueue] gives a node. *)
Definition onended (n : sourceNode) : M unit :=
  modify (setSourceNodeRef None) ;;
  playNextInQueue (node_onEnd n).

Definition stop : M unit :=
  modify (setIsStoppingRef true) ;;
  current <- gets sourceNodeRef ;;
  match current with
  | Some n => modify (emit (NodeStopRequested (node_id n)))
  | None =>
      modify (setAudioQueueRef []) ;;
      modify (setIsPlaying false)
  end.

(** The [catch] clause of [speak]. *)
Definition speakCatch (onEnd : option callback) (e : thrown) : M unit :=
  let errorMessage :=
    match e with
    | ErrorObj message => message
    | NonError => MSG_SPEAK_UNKNOWN
    end in
  modify (setError (Some errorMessage)) ;;
  modify (setIsPlaying false) ;;
  modify (setAudioQueueRef []) ;;
  invoke onEnd.

(** The [finally] clause of [speak]. *)
Definition speakFinally : M unit := modify (setIsLoading false).

Definition suspend (id : nat) (onEnd : option callback) (at_ : awaiting)
  : M unit :=
  modify (fun w =>
            setSuspendedCalls
              (suspendedCalls w
               ++ [{| speak_id := id; speak_onEnd := onEnd; speak_at := at_ |}])
              w).

(** [speak] up to [await generateSpeech(text)], or to its return when
    the text is blank. *)
Definition speak (text : jsstring) (onEnd : option callback)
  (playbackRate : option Q) : M unit :=
  id <- gets nextId ;;
  modify (setNextId (S id)) ;;
  modify (emit (SpeakCalled id onEnd)) ;;
  stop ;;
  modify (setIsStoppingRef false) ;;
  modify (setIsLoading true) ;;
  modify (setError None) ;;
  modify (setPlaybackRateRef
            (match playbackRate with Some r => r | None => 1%Q end)) ;;
  if isEmpty (trim text) then
    tryFinally (tryCatch (invoke onEnd) (speakCatch onEnd)) speakFinally
  else
    modify (emit (SynthesisRequested id text)) ;;
    suspend id onEnd AwaitSynthesis.

(** [speak] from the settling of [generateSpeech(text)] up to
    [await Promise.all(...)]; the [await audioContext.resume()] of a
    suspended context settles together with the decoding. *)
Definition speakAfterSynthesis (id : nat) (onEnd : option callback)
  (r : thrown + list jsstring) : M unit :=
  match r with
  | inl e => tryFinally (speakCatch onEnd e) speakFinally
  | inr base64AudioChunks =>
      modify (setAudioContextRef true) ;;
      suspend id onEnd AwaitDecode
  end.

(** [speak] from the settling of the decoding to its return. *)
Definition speakAfterDecode (onEnd : option callback)
  (r : thrown + list AudioBuffer) : M unit :=
  match r with
  | inl e => tryFinally (speakCatch onEnd e) speakFinally
  | inr audioBuffers =>
      tryFinally
        (tryCatch
           (modify (setAudioQueueRef audioBuffers) ;;
            queue <- gets audioQueueRef ;;
            if 0 <? length queue then
              modify (setIsPlaying true) ;;
              playNextInQueue onEnd
            else invoke onEnd)
           (speakCatch onEnd))
        speakFinally
  end.

(** *** The event loop *)

(** What happens to the hook: its two operations are called, a promise
    a [speak] call awaits settles, a playing node ends (by itself or
    because it was stopped). *)
Inductive input : Type :=
| CallSpeak (text : jsstring) (onEnd : option callback)
    (playbackRate : option Q)
| CallStop
| SynthesisSettled (id : nat) (r : thrown + list jsstring)
| DecodeSettled (id : nat) (r : thrown + list AudioBuffer)
| NodeEnded (id : nat).

Fixpoint takeNode (id : nat) (l : list sourceNode)
  : option (sourceNode * list sourceNode) :=
  match l with
  | [] => None
  | n :: l' =>
      if node_id n =? id then Some (n, l')
      else match takeNode id l' with
           | Some (m, l'') => Some (m, n :: l'')
           | None => None
           end
  end.

Definition awaiting_eqb (a b : awaiting) : bool :=
  match a, b with
  | AwaitSynthesis, AwaitSynthesis => true
  | AwaitDecode, AwaitDecode => true
  | _, _ => false
  end.

Fixpoint takeCall (id : nat) (at_ : awaiting) (l : list suspended)
  : option (suspended * list suspended) :=
  match l with
  | [] => None
  | c :: l' =>
      if (speak_id c =? id) && awaiting_eqb (speak_at c) at_
      then Some (c, l')
      else match takeCall id at_ l' with
           | Some (d, l'') => Some (d, c :: l'')
           | None => None
           end
  end.

(** One turn of the event loop; [None] when the input cannot happen in
    this state (no such node is playing, no such call is suspended). An
    exception a handler does not catch ends the turn. *)
Definition step (i : input) (w : world) : option world :=
  match i with
  | CallSpeak text onEnd playbackRate =>
      Some (exec (speak text onEnd playbackRate) w)
  | CallStop => Some (exec stop w)
  | SynthesisSettled id r =>
      match takeCall id AwaitSynthesis (suspendedCalls w) with
      | Some (c, rest) =>
          Some (exec (speakAfterSynthesis id (speak_onEnd c) r)
                  (setSuspendedCalls rest w))
      | None => None
      end
  | DecodeSettled id r =>
      match takeCall id AwaitDecode (suspendedCalls w) with
      | Some (c, rest) =>
          Some (exec (speakAfterDecode (speak_onEnd c) r)
                  (setSuspendedCalls rest w))
      | None => None
      end
  | NodeEnded id =>
      match takeNode id (liveNodes w) with
      | Some (n, rest) =>
          Some (exec (modify (emit (NodeFinished id)) ;; onended n)
                  (setLiveNodes rest w))
      | None => None
      end
  end.

Fixpoint run (inputs : list input) (w : world) : option world :=
  match inputs with
  | [] => Some w
  | i :: inputs' =>
      match step i w with
      | Some w' => run inputs' w'
      | None => None
      end
  end.

(** How often [cb] has been invoked. *)
Definition isInvocation (cb : callback) (e : event) : bool :=
  match e with
  | CallbackInvoked cb' => cb' =? cb
  | _ => false
  end.

Definition invocations (cb : callback) (l : list event) : nat :=
  length (filter (isInvocation cb) l).

Definition isStart (e : event) : bool :=
  match e with
  | NodeStarted _ => true
  | _ => false
  end.

(** The buffers whose playback has been started, in order. *)
Fixpoint startedBuffers (l : list event) : list AudioBuffer :=
  match l with
  | [] => []
  | NodeStarted n :: l' => node_buffer n :: startedBuffers l'
  | _ :: l' => startedBuffers l'
  end.

(** *** Descriptions of states and logs *)

(** [options?.playbackRate ?? 1.0] *)
Definition rateOf (playbackRate : option Q) : Q :=
  match playbackRate with Some r => r | None => 1%Q end.

(** [e instanceof Error ? e.message : '...'] in the [catch] clause of
    [speak]. *)
Definition caughtMessage (e : thrown) : jsstring :=
  match e with
  | ErrorObj message => message
  | NonError => MSG_SPEAK_UNKNOWN
  end.

Definition mkCall (id : nat) (onEnd : option callback) (at_ : awaiting)
  : suspended :=
  {| speak_id := id; speak_onEnd := onEnd; speak_at := at_ |}.

(** Nothing is playing and no [speak] call is under way. *)
Definition quiescent (w : world) : Prop :=
  sourceNodeRef w = None /\ liveNodes w = [] /\ suspendedCalls w = [].

(** The identities in use are below the next fresh one. *)
Definition wellFormed (w : world) : Prop :=
  Forall (fun c => speak_id c < nextId w) (suspendedCalls w)
  /\ Forall (fun n => node_id n < nextId w) (liveNodes w).

(** The node [playNextInQueue] makes for a buffer. *)
Definition mkNode (id : nat) (buffer : AudioBuffer) (rate : Q)
  (onEnd : option callback) : sourceNode :=
  {| node_id := id; node_buffer := buffer; node_rate := rate;
     node_onEnd := onEnd |}.

(** One session is playing: [n] is the only node, the ref points to it and
    [queue] waits behind it. *)
Definition playing (w : world) (n : sourceNode) (queue : list AudioBuffer)
  : Prop :=
  isStoppingRef w = false
  /\ audioContextRef w = true
  /\ sourceNodeRef w = Some n
  /\ liveNodes w = [n]
  /\ audioQueueRef w = queue
  /\ nextId w = S (node_id n)
  /\ node_rate n = playbackRateRef w.

(** The events of playing [queue] after the node [id]: each node finishes
    and only then the next one, with the next identity, starts. *)
Fixpoint advanceLog (id : nat) (rate : Q) (onEnd : option callback)
  (queue : list AudioBuffer) : list event :=
  match queue with
  | [] => []
  | b :: queue' =>
      NodeFinished id :: NodeStarted (mkNode (S id) b rate onEnd)
      :: advanceLog (S id) rate onEnd queue'
  end.

(** The three inputs of a [speak] call whose synthesis and decoding
    succeed, and the inputs that end [k] nodes in turn from node [id] on. *)
Definition speakInputs (id : nat) (text : jsstring) (onEnd : option callback)
  (playbackRate : option Q) (payloads : list jsstring)
  (buffers : list AudioBuffer) : list input :=
  [ CallSpeak text onEnd playbackRate;
    SynthesisSettled id (inr payloads);
    DecodeSettled id (inr buffers) ].

Definition endings (id k : nat) : list input := map NodeEnded (seq id k).

(** The callback [cb] returns whenever it is called, and so does
    [onEnd] when there is one. *)
Definition returns (cb : callback) : Prop :=
  forall history, raises cb history = None.

Definition returnsIfAny (onEnd : option callback) : Prop :=
  match onEnd with
  | Some cb => returns cb
  | None => True
  end.

(** What a call of [onEnd] inside the [try] of [speak] adds to the log:
    when it throws, the [catch] clause calls it again. *)
Definition attempted (onEnd : option callback) (history : list event)
  : list event :=
  match onEnd with
  | Some cb =>
      CallbackInvoked cb
      :: match raises cb history with
         | Some _ => [CallbackInvoked cb]
         | None => []
         end
  | None => []
  end.

(** Callbacks that all return. *)
Definition quiet : callback -> list event -> option thrown :=
  fun _ _ => None.

(** The callback [bad] throws [e] whenever it is called; the others
    return. *)
Definition raisesAt (bad : callback) (e : thrown)
  : callback -> list event -> option thrown :=
  fun cb _ => if cb =? bad then Some e else None.

(** *** Who still owes an invocation of a callback *)

(** [onEnd] is the callback [cb]. *)
Definition owes (cb : callback) (onEnd : option callback) : bool :=
  match onEnd with
  | Some cb' => cb' =? cb
  | None => false
  end.

(** The suspended [speak] calls and the playing nodes that hold [cb], and
    the [speak] calls made with it so far. *)
Definition owedByCalls (cb : callback) (l : list suspended) : nat :=
  length (filter (fun c => owes cb (speak_onEnd c)) l).

Definition owedByNodes (cb : callback) (l : list sourceNode) : nat :=
  length (filter (fun n => owes cb (node_onEnd n)) l).

Definition isSpeakCall (cb : callback) (e : event) : bool :=
  match e with
  | SpeakCalled _ onEnd => owes cb onEnd
  | _ => false
  end.

Definition speakCalls (cb : callback) (l : list event) : nat :=
  length (filter (isSpeakCall cb) l).

(** Every [speak] call made with [cb] has invoked it once or still holds
    it, in a suspended call or in a playing node. *)
Definition balanced (cb : callback) (w : world) : Prop :=
  invocations cb (log w) + owedByCalls cb (suspendedCalls w)
  + owedByNodes cb (liveNodes w)
  = speakCalls cb (log w).

(** No [speak] call made with [cb] has been dropped: each has invoked it
    or still holds it. *)
Definition neverLost (cb : callback) (w : world) : Prop :=
  speakCalls cb (log w)
  <= invocations cb (log w) + owedByCalls cb (suspendedCalls w)
     + owedByNodes cb (liveNodes w).

(** [cb] has been invoked at most twice for a [speak] call that has
    ended and at most once for one that plays, and not yet for one that
    is suspended. *)
Definition atMostTwice (cb : callback) (w : world) : Prop :=
  invocations cb (log w) + 2 * owedByCalls cb (suspendedCalls w)
  + owedByNodes cb (liveNodes w)
  <= 2 * speakCalls cb (log w).

(** What the hook keeps about a callback, whatever is done to it. *)
Definition accounted (cb : callback) (w : world) : Prop :=
  (returns cb -> balanced cb w) /\ neverLost cb w /\ atMostTwice cb w.

(** The audio context exists as soon as a buffer is queued or a call
    awaits its decoding. *)
Definition contextReady (w : world) : Prop :=
  audioContextRef w = true
  \/ (audioQueueRef w = []
      /\ Forall (fun c => speak_at c = AwaitSynthesis) (suspendedCalls w)).

End WithBuffers.

Arguments CallStop {AudioBuffer}.
Arguments CallSpeak {AudioBuffer} text onEnd playbackRate.
Arguments NodeEnded {AudioBuffer} id.
Arguments SynthesisSettled {AudioBuffer} id r.
Arguments CallbackInvoked {AudioBuffer} cb.
Arguments NodeStopRequested {AudioBuffer} id.
Arguments NodeFinished {AudioBuffer} id.
Arguments SpeakCalled {AudioBuffer} id onEnd.
Arguments SynthesisRequested {AudioBuffer} id text.
Arguments endings {AudioBuffer} id k.
Arguments quiet {AudioBuffer} _ _.
Arguments raisesAt {AudioBuffer} bad e _ _.

End Hook.

(** ** Definitions the statements use *)

(** The code units of a string that are not white space, in order. *)
Definition nonWhitespace (s : jsstring) : jsstring :=
  filter (fun c => negb (isWhiteSpace c)) s.

(** A chunk that is empty or holds white space only. *)
Definition isBlank (s : jsstring) : bool := isEmpty (trim s).

(** A string [trim] leaves alone: it neither starts nor ends with white
    space. *)
Definition trimmed (s : jsstring) : Prop :=
  match s with
  | [] => True
  | c :: _ => isWhiteSpace c = false /\ isWhiteSpace (last s c) = false
  end.

(** What the loop over the sentences maintains: every chunk, and what the
    buffer will give once trimmed, is within the limit. *)
Definition withinLimit (maxLen : nat) (st : list jsstring * jsstring) : Prop :=
  Forall (fun c => length c <= maxLen) (fst st)
  /\ length (trim (snd st)) <= maxLen.

(** Tab, line feed and carriage return. *)
Definition isPreserved (cp : codePoint) : bool :=
  (cp =? 0x0009)%N || (cp =? 0x000A)%N || (cp =? 0x000D)%N.

(** A Unicode scalar value: a code point that is not a surrogate. *)
Definition isScalarValue (cp : codePoint) : bool :=
  (cp <? 0x110000)%N && negb (isSurrogate cp).

(** The failure taxonomy of the specification, the message each category
    shows, and the category of a lower-cased error message: the first of
    the substring tests that succeeds, in this order. *)
Inductive category : Type :=
| InvalidCredential
| RateLimited
| ServiceUnavailable
| MalformedRequest
| Unknown.

Definition categoryMessage (c : category) : jsstring :=
  match c with
  | InvalidCredential => MSG_CREDENTIAL
  | RateLimited => MSG_RATE_LIMIT
  | ServiceUnavailable => MSG_UNAVAILABLE
  | MalformedRequest => MSG_BAD_REQUEST
  | Unknown => MSG_UNEXPECTED
  end.

Definition mentions (errorMessage : jsstring) (needles : list string) : bool :=
  existsb (fun needle => includes errorMessage (utf16 needle)) needles.

Definition categoryOf (errorMessage : jsstring) : category :=
  if mentions errorMessage ["api key not valid"; "permission denied"]%string
  then InvalidCredential
  else if mentions errorMessage ["rate limit"]%string
  then RateLimited
  else if mentions errorMessage ["500"; "503"; "server error"; "rpc failed"]%string
  then ServiceUnavailable
  else if mentions errorMessage ["400"; "invalid"]%string
  then MalformedRequest
  else Unknown.

(** All the requests in [sent] were answered by the remote model. *)
Definition answered (generateContent : nat -> jsstring -> response)
  (sent : list jsstring) : Prop :=
  forall k req, nth_error sent k = Some req ->
                exists d, generateContent k req = Responds d.

(** What the pattern leaves after a unit that starts with a character
    followed by [s']. *)
Definition afterUnit (s' : jsstring) : jsstring :=
  dropWhile terminatorOrSpace (dropWhile notTerminator s').

(** The non-white-space content of the chunks made so far and of the
    buffer. *)
Definition contentOf (st : list jsstring * jsstring) : jsstring :=
  nonWhitespace (concat (fst st)) ++ nonWhitespace (snd st).

(** The texts [generateSpeech] has to send for a text: the chunks,
    sanitized and trimmed, less the empty ones. *)
Definition requestTexts (isCf : codePoint -> bool) (text : jsstring)
  : list jsstring :=
  filter (fun s => negb (isEmpty s))
    (map (fun chunk => trim (sanitizeText isCf chunk)) (chunkText text)).

(** What the answer to the [n]-th request adds to the result, and what the
    answers to the requests [reqs], numbered from [n], add. *)
Definition payloadOf (generateContent : nat -> jsstring -> response)
  (n : nat) (req : jsstring) : list jsstring :=
  match generateContent n req with
  | Responds (Some d) => if isEmpty d then [] else [d]
  | Responds None => []
  | Rejects _ => []
  end.

Fixpoint payloadsFrom (generateContent : nat -> jsstring -> response)
  (n : nat) (reqs : list jsstring) : list jsstring :=
  match reqs with
  | [] => []
  | req :: reqs' =>
      payloadOf generateContent n req
      ++ payloadsFrom generateContent (S n) reqs'
  end.

(** The six messages [handleApiError] can give. *)
Definition API_MESSAGES : list jsstring :=
  [MSG_UNKNOWN; MSG_CREDENTIAL; MSG_RATE_LIMIT; MSG_UNAVAILABLE;
   MSG_BAD_REQUEST; MSG_UNEXPECTED].

(* ===================================================================== *)
(** * Part II. Properties                                                 *)
(* ===================================================================== *)

(** ** Strings *)

Section StringFacts.

Variable p : codeUnit -> bool.

Lemma dropWhile_split (s : jsstring) :
  exists pre, s = pre ++ dropWhile p s /\ forallb p pre = true.
Proof.
  induction s as [|c s IH]; simpl.
  - exists []. split; reflexivity.
  - destruct (p c) eqn:Hc.
    + destruct IH as [pre [Heq Hall]].
      exists (c :: pre). simpl. rewrite Hc, Hall. split; [congruence | reflexivity].
    + exists []. split; reflexivity.
Qed.

Lemma dropWhile_head (s : jsstring) (c : codeUnit) (s' : jsstring) :
  dropWhile p s = c :: s' -> p c = false.
Proof.
  induction s as [|d s IH]; simpl; [discriminate|].
  destruct (p d) eqn:Hd; [exact IH|].
  intros H. injection H as -> _. exact Hd.
Qed.

Lemma dropWhile_length (s : jsstring) : length (dropWhile p s) <= length s.
Proof.
  induction s as [|c s IH]; simpl; [lia|].
  destruct (p c); simpl; lia.
Qed.

Lemma dropWhile_all (s : jsstring) :
  forallb p s = true -> dropWhile p s = [].
Proof.
  induction s as [|c s IH]; simpl; [reflexivity|].
  destruct (p c); simpl; [exact IH | discriminate].
Qed.

Lemma dropWhile_stop (c : codeUnit) (s : jsstring) :
  p c = false -> dropWhile p (c :: s) = c :: s.
Proof. intros H. simpl. rewrite H. reflexivity. Qed.

Lemma dropWhile_app (s t : jsstring) :
  dropWhile p (s ++ t) =
  if forallb p s then dropWhile p t else dropWhile p s ++ t.
Proof.
  induction s as [|c s IH]; simpl; [reflexivity|].
  destruct (p c); simpl; [exact IH | reflexivity].
Qed.

Lemma dropWhile_idem (s : jsstring) :
  dropWhile p (dropWhile p s) = dropWhile p s.
Proof.
  destruct (dropWhile p s) as [|c s'] eqn:E; [reflexivity|].
  apply dropWhile_stop. exact (dropWhile_head _ E).
Qed.

End StringFacts.

Lemma trimEnd_length (s : jsstring) : length (trimEnd s) <= length s.
Proof.
  induction s as [|c s IH]; simpl; [lia|].
  destruct (trimEnd s); [destruct (isWhiteSpace c)|]; simpl in *; lia.
Qed.

Lemma trim_length (s : jsstring) : length (trim s) <= length s.
Proof.
  unfold trim, trimStart.
  etransitivity; [apply trimEnd_length | apply dropWhile_length].
Qed.

Lemma trimEnd_app_spaces (s suf : jsstring) :
  forallb isWhiteSpace suf = true -> trimEnd (s ++ suf) = trimEnd s.
Proof.
  intros Hsuf.
  assert (Hnil : trimEnd suf = []).
  { induction suf as [|c suf IH]; [reflexivity|].
    simpl in Hsuf. apply andb_prop in Hsuf. destruct Hsuf as [Hc Hsuf].
    simpl. rewrite (IH Hsuf), Hc. reflexivity. }
  induction s as [|c s IH]; simpl; [exact Hnil|].
  rewrite IH. reflexivity.
Qed.

Lemma trimEnd_snoc_space (s : jsstring) (c : codeUnit) :
  isWhiteSpace c = true -> trimEnd (s ++ [c]) = trimEnd s.
Proof.
  intros Hc. apply trimEnd_app_spaces. simpl. rewrite Hc. reflexivity.
Qed.

Lemma trimEnd_snoc_keep (s : jsstring) (c : codeUnit) :
  isWhiteSpace c = false -> trimEnd (s ++ [c]) = s ++ [c].
Proof.
  intros Hc. induction s as [|d s IH]; simpl.
  - rewrite Hc. reflexivity.
  - rewrite IH. destruct (s ++ [c]) eqn:E; [|reflexivity].
    destruct s; discriminate.
Qed.

Lemma trimEnd_prefix (s : jsstring) :
  exists suf, s = trimEnd s ++ suf /\ forallb isWhiteSpace suf = true.
Proof.
  induction s as [|c s [suf [Heq Hall]]]; simpl.
  - exists []. split; reflexivity.
  - destruct (trimEnd s) as [|d t] eqn:E.
    + destruct (isWhiteSpace c) eqn:Hc.
      * exists (c :: s). split; [reflexivity|].
        simpl in Heq. subst suf. simpl. rewrite Hc, Hall. reflexivity.
      * exists suf. split; [|exact Hall]. simpl in *. congruence.
    + exists suf. split; [|exact Hall]. simpl in *. congruence.
Qed.

Lemma trimEnd_last (s : jsstring) (d : codeUnit) :
  trimEnd s <> [] -> isWhiteSpace (last (trimEnd s) d) = false.
Proof.
  induction s as [|c s IH]; simpl; [congruence|].
  destruct (trimEnd s) as [|e t] eqn:E.
  - destruct (isWhiteSpace c) eqn:Hc; [congruence|].
    intros _. simpl. exact Hc.
  - intros _. specialize (IH ltac:(discriminate)).
    simpl in *. exact IH.
Qed.

Lemma trim_trimmed (s : jsstring) : trimmed (trim s).
Proof.
  unfold trimmed. destruct (trim s) as [|c t] eqn:E; [exact I|].
  split.
  - unfold trim in E.
    destruct (trimEnd_prefix (trimStart s)) as [suf [Heq _]].
    rewrite E in Heq. unfold trimStart in Heq. simpl in Heq.
    exact (dropWhile_head _ _ (eq_sym (eq_sym Heq))).
  - rewrite <- E. unfold trim. apply trimEnd_last.
    fold (trim s). rewrite E. discriminate.
Qed.

Lemma trimmed_trim (s : jsstring) : trimmed s -> trim s = s.
Proof.
  destruct s as [|c t]; [reflexivity|].
  intros [Hhd Hlast].
  unfold trim, trimStart. rewrite dropWhile_stop by exact Hhd.
  destruct (@exists_last _ (c :: t)) as [pre [z Hz]]; [discriminate|].
  rewrite Hz in Hlast |- *. rewrite last_last in Hlast.
  apply trimEnd_snoc_keep. exact Hlast.
Qed.

Lemma trim_idempotent (s : jsstring) : trim (trim s) = trim s.
Proof. apply trimmed_trim, trim_trimmed. Qed.

Lemma trim_snoc_space (s : jsstring) :
  trim (s ++ SPACE) = trim s.
Proof.
  unfold trim, trimStart, SPACE. rewrite dropWhile_app.
  destruct (forallb isWhiteSpace s) eqn:Hall.
  - rewrite (dropWhile_all _ _ Hall). reflexivity.
  - apply trimEnd_snoc_space. reflexivity.
Qed.

(** ** The sentence pattern *)

Lemma starMatch_total (cls : codeUnit -> bool) (s : jsstring) :
  starMatch cls s (fun rest => Some rest) = Some (dropWhile cls s).
Proof.
  induction s as [|c s IH]; simpl; [reflexivity|].
  destruct (cls c); [rewrite IH|]; reflexivity.
Qed.

(** A greedy star whose continuation never fails takes all it can. *)
Lemma starMatch_greedy (cls : codeUnit -> bool) (k : cont) (s : jsstring) :
  (forall t, k t <> None) -> starMatch cls s k = k (dropWhile cls s).
Proof.
  intros Hk. induction s as [|c s IH]; simpl; [reflexivity|].
  destruct (cls c); [|reflexivity].
  rewrite IH. destruct (k (dropWhile cls s)) eqn:E; [reflexivity|].
  exfalso. exact (Hk _ E).
Qed.

(** One attempt of the sentence pattern: it fails on a terminator and at
    the end of the input; otherwise it takes the run of non-terminators and
    the terminators and white space that follow it. *)
Lemma matchHere_sentence (s : jsstring) :
  matchHere sentencePattern s =
  match s with
  | [] => None
  | c :: s' =>
      if notTerminator c
      then Some (dropWhile terminatorOrSpace (dropWhile notTerminator s'))
      else None
  end.
Proof.
  unfold matchHere, sentencePattern. simpl.
  destruct s as [|c s']; simpl; [reflexivity|].
  destruct (notTerminator c); [|reflexivity].
  rewrite starMatch_greedy.
  - rewrite starMatch_total. reflexivity.
  - intros t. rewrite starMatch_total. discriminate.
Qed.

Lemma matchAll_no_terminator (s : jsstring) :
  s <> [] -> forallb notTerminator s = true ->
  matchAll sentencePattern s = [s].
Proof.
  intros Hne Hall. unfold matchAll.
  destruct s as [|c s']; [contradiction|].
  cbn [matchAllFrom length]. rewrite matchHere_sentence.
  simpl in Hall. apply andb_prop in Hall. destruct Hall as [Hc Hs'].
  rewrite Hc, (dropWhile_all _ _ Hs'). cbn [dropWhile length].
  rewrite Nat.sub_0_r.
  change (S (length s')) with (length (c :: s')). rewrite firstn_all.
  destruct s' as [|d s'']; cbn [matchAllFrom length];
    rewrite ?matchHere_sentence; reflexivity.
Qed.

(** ** The chunker *)

Section Chunker.

Variable maxLen : nat.

Lemma substring_slice (s : jsstring) (i : nat) :
  i <= length s ->
  substring s i (i + maxLen) = firstn maxLen (skipn i s).
Proof.
  intros Hi. unfold substring.
  rewrite (Nat.min_l i (length s)) by exact Hi.
  destruct (Nat.le_gt_cases (i + maxLen) (length s)) as [Hle|Hgt].
  - rewrite (Nat.min_l (i + maxLen)) by exact Hle.
    rewrite Nat.max_r, Nat.min_l by lia.
    f_equal. lia.
  - rewrite (Nat.min_r (i + maxLen)) by lia.
    rewrite Nat.max_r, Nat.min_l by lia.
    rewrite !firstn_all2; [reflexivity | |]; rewrite length_skipn; lia.
Qed.

Lemma sliceLoop_length (fuel : nat) (s : jsstring) (i : nat) :
  Forall (fun c => length c <= maxLen) (sliceLoop fuel maxLen s i).
Proof.
  revert i. induction fuel as [|fuel IH]; intros i; simpl; [constructor|].
  destruct (i <? length s) eqn:Hi; [|constructor].
  apply Nat.ltb_lt in Hi. constructor; [|apply IH].
  rewrite substring_slice by lia. rewrite length_firstn. lia.
Qed.

Hypothesis maxLen_pos : 0 < maxLen.

(** With at least [length s - i] iterations allowed the loop runs to its
    end, and the slices pushed are those of the rest of the string. *)
Lemma sliceLoop_concat (fuel : nat) (s : jsstring) (i : nat) :
  length s - i <= fuel ->
  concat (sliceLoop fuel maxLen s i) = skipn i s.
Proof.
  revert i. induction fuel as [|fuel IH]; intros i Hf; simpl.
  - rewrite skipn_all2 by lia. reflexivity.
  - destruct (i <? length s) eqn:Hi.
    + apply Nat.ltb_lt in Hi. simpl.
      rewrite substring_slice by lia. rewrite IH by lia.
      rewrite Nat.add_comm, <- skipn_skipn. apply firstn_skipn.
    + apply Nat.ltb_ge in Hi. rewrite skipn_all2 by lia. reflexivity.
Qed.

(** The loop does not depend on the iterations allowed beyond those. *)
Lemma sliceLoop_fuel (fuel fuel' : nat) (s : jsstring) (i : nat) :
  length s - i <= fuel -> length s - i <= fuel' ->
  sliceLoop fuel maxLen s i = sliceLoop fuel' maxLen s i.
Proof.
  revert fuel' i. induction fuel as [|fuel IH]; intros fuel' i Hf Hf'.
  - destruct fuel'; simpl; [reflexivity|].
    replace (i <? length s) with false; [reflexivity|].
    symmetry. apply Nat.ltb_ge. lia.
  - destruct fuel' as [|fuel']; simpl.
    + replace (i <? length s) with false; [reflexivity|].
      symmetry. apply Nat.ltb_ge. lia.
    + destruct (i <? length s) eqn:Hi; [|reflexivity].
      apply Nat.ltb_lt in Hi. f_equal. apply IH; lia.
Qed.

(** Every slice but the last has exactly [maxLen] code units, and the
    last one is not empty. *)
Lemma sliceLoop_exact (fuel : nat) (s : jsstring) (i : nat) :
  length s - i <= fuel ->
  Forall (fun c => length c = maxLen)
    (removelast (sliceLoop fuel maxLen s i))
  /\ (i < length s ->
      0 < length (last (sliceLoop fuel maxLen s i) [])
      /\ sliceLoop fuel maxLen s i <> []).
Proof.
  revert i. induction fuel as [|fuel IH]; intros i Hf.
  - simpl. split; [constructor | lia].
  - cbn [sliceLoop]. destruct (i <? length s) eqn:Hi.
    + apply Nat.ltb_lt in Hi.
      destruct (IH (i + maxLen)) as [IHa IHb]; [lia|].
      rewrite substring_slice by lia.
      destruct (Nat.lt_ge_cases (i + maxLen) (length s)) as [Hlt|Hge].
      * destruct (IHb Hlt) as [Hlast Hne].
        destruct (sliceLoop fuel maxLen s (i + maxLen)) as [|x xs] eqn:E;
          [contradiction|].
        split.
        -- cbn [removelast]. constructor; [|exact IHa].
           rewrite length_firstn, length_skipn. lia.
        -- intros _. split; [exact Hlast | discriminate].
      * assert (E : sliceLoop fuel maxLen s (i + maxLen) = []).
        { destruct fuel; simpl; [reflexivity|].
          replace (i + maxLen <? length s) with false; [reflexivity|].
          symmetry. apply Nat.ltb_ge. lia. }
        rewrite E. simpl. split; [constructor|].
        intros _. split; [|discriminate].
        rewrite length_firstn, length_skipn. lia.
    + apply Nat.ltb_ge in Hi. simpl. split; [constructor | lia].
Qed.

Lemma forceSplit_concat (s : jsstring) : concat (forceSplit maxLen s) = s.
Proof. unfold forceSplit. rewrite sliceLoop_concat by lia. reflexivity. Qed.

Lemma sliceLoop_done (fuel : nat) (s : jsstring) (i : nat) :
  length s <= i -> sliceLoop fuel maxLen s i = [].
Proof.
  intros Hi. destruct fuel; simpl; [reflexivity|].
  replace (i <? length s) with false; [reflexivity|].
  symmetry. apply Nat.ltb_ge. exact Hi.
Qed.

Lemma forceSplit_two (s : jsstring) :
  length s = S maxLen ->
  forceSplit maxLen s = [firstn maxLen s; skipn maxLen s].
Proof.
  intros Hlen. unfold forceSplit. rewrite Hlen.
  cbn [sliceLoop]. rewrite Hlen.
  replace (0 <? S maxLen) with true by (symmetry; apply Nat.ltb_lt; lia).
  rewrite substring_slice by lia. cbn [skipn Nat.add].
  rewrite (sliceLoop_fuel (fuel := maxLen) (fuel' := 1)) by lia.
  cbn [sliceLoop]. rewrite Hlen.
  replace (maxLen <? S maxLen) with true by (symmetry; apply Nat.ltb_lt; lia).
  rewrite substring_slice by lia.
  rewrite (firstn_all2 (n := maxLen) (skipn maxLen s))
    by (rewrite length_skipn; lia).
  reflexivity.
Qed.

Lemma pushTrimmed_within (chunks : list jsstring) (cur : jsstring) :
  withinLimit maxLen (chunks, cur) ->
  Forall (fun c => length c <= maxLen) (pushTrimmed chunks cur).
Proof using Type.
  clear maxLen_pos.
  intros [Hc Hcur]. unfold pushTrimmed. simpl in *.
  destruct (isEmpty (trim cur)); [exact Hc|].
  apply Forall_app. split; [exact Hc|]. constructor; [exact Hcur | constructor].
Qed.

Lemma chunkStep_within (st : list jsstring * jsstring) (sentence : jsstring) :
  withinLimit maxLen st -> withinLimit maxLen (chunkStep maxLen st sentence).
Proof using Type.
  clear maxLen_pos.
  destruct st as [chunks cur]. intros Hst. unfold chunkStep.
  destruct (isEmpty (trim sentence)); [exact Hst|].
  destruct (maxLen <? length (trim sentence)) eqn:Hlong.
  - split; simpl; [|lia].
    apply Forall_app. split.
    + apply pushTrimmed_within. exact Hst.
    + apply sliceLoop_length.
  - apply Nat.ltb_ge in Hlong.
    destruct (maxLen <? length cur + length (trim sentence) + 1) eqn:Hfull.
    + split; simpl.
      * apply pushTrimmed_within. exact Hst.
      * rewrite trim_snoc_space, trim_idempotent. exact Hlong.
    + apply Nat.ltb_ge in Hfull. destruct Hst as [Hc _]. split; simpl.
      * exact Hc.
      * etransitivity; [apply trim_length|].
        rewrite !length_app. unfold SPACE. simpl. lia.
Qed.

Lemma fold_chunkStep_within (sentences : list jsstring)
  (st : list jsstring * jsstring) :
  withinLimit maxLen st ->
  withinLimit maxLen (fold_left (chunkStep maxLen) sentences st).
Proof using Type.
  clear maxLen_pos.
  revert st. induction sentences as [|x xs IH]; intros st Hst; simpl.
  - exact Hst.
  - apply IH, chunkStep_within, Hst.
Qed.

(** Every chunk is within the limit. *)
Lemma chunkTextAt_length (text : jsstring) :
  Forall (fun c => length c <= maxLen) (chunkTextAt maxLen text).
Proof using Type.
  clear maxLen_pos.
  unfold chunkTextAt.
  destruct (isEmpty (trim text)); [constructor|].
  destruct (length (trim text) <=? maxLen) eqn:Hshort.
  - apply Nat.leb_le in Hshort. constructor; [exact Hshort | constructor].
  - pose proof (fold_chunkStep_within
                  (matchAll sentencePattern (trim text)) (st := ([], [])))
      as H.
    destruct (fold_left (chunkStep maxLen)
                (matchAll sentencePattern (trim text)) ([], []))
      as [chunks cur].
    apply pushTrimmed_within, H. split; simpl; [constructor | lia].
Qed.

(** No chunk is the empty string. *)
Lemma pushTrimmed_nonempty (chunks : list jsstring) (cur : jsstring) :
  Forall (fun c => c <> []) chunks ->
  Forall (fun c => c <> []) (pushTrimmed chunks cur).
Proof using Type.
  clear maxLen_pos.
  intros Hc. unfold pushTrimmed.
  destruct (trim cur) as [|c t] eqn:E; simpl; [exact Hc|].
  apply Forall_app. split; [exact Hc|].
  constructor; [discriminate | constructor].
Qed.

Lemma sliceLoop_nonempty (fuel : nat) (s : jsstring) (i : nat) :
  Forall (fun c => c <> []) (sliceLoop fuel maxLen s i).
Proof.
  revert i. induction fuel as [|fuel IH]; intros i; simpl; [constructor|].
  destruct (i <? length s) eqn:Hi; [|constructor].
  apply Nat.ltb_lt in Hi. constructor; [|apply IH].
  rewrite substring_slice by lia. intros E.
  apply (f_equal (@length _)) in E.
  rewrite length_firstn, length_skipn in E. simpl in E. lia.
Qed.

Lemma chunkStep_nonempty (st : list jsstring * jsstring) (sentence : jsstring) :
  Forall (fun c => c <> []) (fst st) ->
  Forall (fun c => c <> []) (fst (chunkStep maxLen st sentence)).
Proof.
  destruct st as [chunks cur]. intros Hst. unfold chunkStep.
  destruct (isEmpty (trim sentence)); [exact Hst|].
  destruct (maxLen <? length (trim sentence)).
  - simpl. apply Forall_app. split.
    + apply pushTrimmed_nonempty, Hst.
    + apply sliceLoop_nonempty.
  - destruct (maxLen <? length cur + length (trim sentence) + 1); simpl.
    + apply pushTrimmed_nonempty, Hst.
    + exact Hst.
Qed.

Lemma chunkTextAt_nonempty (text : jsstring) :
  Forall (fun c => c <> []) (chunkTextAt maxLen text).
Proof.
  unfold chunkTextAt.
  destruct (trim text) as [|c t] eqn:E; [constructor|].
  cbn [isEmpty].
  destruct (length (c :: t) <=? maxLen).
  - constructor; [discriminate | constructor].
  - assert (H : forall l st, Forall (fun c => c <> []) (fst st) ->
                Forall (fun c => c <> [])
                  (fst (fold_left (chunkStep maxLen) l st))).
    { induction l as [|x xs IH]; intros st Hst; simpl; [exact Hst|].
      apply IH, chunkStep_nonempty, Hst. }
    specialize (H (matchAll sentencePattern (c :: t)) ([], [])).
    destruct (fold_left (chunkStep maxLen)
                (matchAll sentencePattern (c :: t)) ([], []))
      as [chunks cur] eqn:Efold.
    apply pushTrimmed_nonempty.
    pose proof (f_equal fst Efold) as Hf. simpl in Hf. rewrite <- Hf.
    apply H. constructor.
Qed.

(** A text that fits is its own single chunk; a blank text has none. *)
Lemma chunkTextAt_blank (text : jsstring) :
  trim text = [] -> chunkTextAt maxLen text = [].
Proof using Type. intros E. unfold chunkTextAt. rewrite E. reflexivity. Qed.

Lemma chunkTextAt_short (text : jsstring) :
  trim text <> [] -> length (trim text) <= maxLen ->
  chunkTextAt maxLen text = [trim text].
Proof using Type.
  clear maxLen_pos.
  intros Hne Hlen. unfold chunkTextAt.
  destruct (trim text) as [|c t] eqn:E; [contradiction|].
  cbn [isEmpty].
  replace (length (c :: t) <=? maxLen) with true; [reflexivity|].
  symmetry. apply Nat.leb_le. exact Hlen.
Qed.

(** A long text without terminators is one unit, cut into slices. *)
Lemma chunkTextAt_unpunctuated (text : jsstring) :
  maxLen < length (trim text) ->
  forallb notTerminator (trim text) = true ->
  chunkTextAt maxLen text = forceSplit maxLen (trim text).
Proof.
  intros Hlen Hall. unfold chunkTextAt.
  destruct (trim text) as [|c t] eqn:E; [simpl in Hlen; lia|].
  cbn [isEmpty].
  replace (length (c :: t) <=? maxLen) with false
    by (symmetry; apply Nat.leb_gt; exact Hlen).
  rewrite matchAll_no_terminator by (exact Hall || discriminate).
  cbn [fold_left]. unfold chunkStep.
  rewrite <- E, trim_idempotent, E. cbn [isEmpty].
  replace (maxLen <? length (c :: t)) with true
    by (symmetry; apply Nat.ltb_lt; exact Hlen).
  unfold pushTrimmed. simpl. reflexivity.
Qed.

End Chunker.

(** [C2], the parts that hold: every chunk has at most [MAX_TEXT_LENGTH]
    code units and none is the empty string; a text whose trimmed form fits
    is the single chunk of that form; a blank text gives no chunk. *)
Lemma chunkText_bounds (text : jsstring) :
  Forall (fun c => length c <= MAX_TEXT_LENGTH /\ c <> []) (chunkText text)
  /\ (trim text = [] -> chunkText text = [])
  /\ (trim text <> [] -> length (trim text) <= MAX_TEXT_LENGTH ->
      chunkText text = [trim text]).
Proof.
  unfold chunkText. split; [|split].
  - apply Forall_forall. intros c Hc. split.
    + exact (proj1 (Forall_forall _ _) (chunkTextAt_length _ text) c Hc).
    + assert (Hpos : 0 < MAX_TEXT_LENGTH) by apply Nat.lt_0_succ.
      exact (proj1 (Forall_forall _ _) (chunkTextAt_nonempty Hpos text) c Hc).
  - apply chunkTextAt_blank.
  - apply chunkTextAt_short.
Qed.

(** [C2], where the code departs from it: a unit that is cut by force can
    hold a run of white space as long as a slice. For the text made of
    [a], 9000 spaces and [b] the second of the three chunks is 4500
    spaces. *)
Theorem chunkText_whitespace_only_chunk :
  let text :=
    utf16 "a" ++ repeat 0x20%N (2 * MAX_TEXT_LENGTH) ++ utf16 "b" in
  chunkText text =
    [ utf16 "a" ++ repeat 0x20%N (MAX_TEXT_LENGTH - 1);
      repeat 0x20%N MAX_TEXT_LENGTH;
      utf16 " b" ]
  /\ isBlank (repeat 0x20%N MAX_TEXT_LENGTH) = true.
Proof. vm_compute. split; reflexivity. Qed.

(** [C3] as stated fails: 4501 code units without a terminator, the first
    of them a space, are trimmed to 4500 and come back as one chunk. *)
Lemma chunkText_leading_space_one_chunk :
  let text := utf16 " " ++ repeat 0x61%N MAX_TEXT_LENGTH in
  length text = S MAX_TEXT_LENGTH
  /\ forallb notTerminator text = true
  /\ chunkText text = [repeat 0x61%N MAX_TEXT_LENGTH].
Proof. vm_compute. repeat split; reflexivity. Qed.

(** [C3], amended: a unit whose trimmed form is longer than the limit makes
    the loop push the trimmed buffer (when it is not blank), then the
    slices of the trimmed unit: together they are the unit, all but the
    last have exactly [MAX_TEXT_LENGTH] code units, the last one holds the
    rest; the buffer is left empty. In particular a text whose trimmed form
    has [MAX_TEXT_LENGTH + 1] code units, none of them a terminator, gives
    exactly two chunks, of [MAX_TEXT_LENGTH] code units and of one. *)
Theorem chunkText_force_split :
  (forall (chunks : list jsstring) (currentChunk sentence : jsstring),
      MAX_TEXT_LENGTH < length (trim sentence) ->
      exists slices,
        chunkStep MAX_TEXT_LENGTH (chunks, currentChunk) sentence
        = (pushTrimmed chunks currentChunk ++ slices, [])
        /\ concat slices = trim sentence
        /\ Forall (fun c => length c = MAX_TEXT_LENGTH) (removelast slices)
        /\ 0 < length (last slices []) <= MAX_TEXT_LENGTH)
  /\ (forall text : jsstring,
         length (trim text) = S MAX_TEXT_LENGTH ->
         forallb notTerminator (trim text) = true ->
         chunkText text
         = [firstn MAX_TEXT_LENGTH (trim text); skipn MAX_TEXT_LENGTH (trim text)]
         /\ length (firstn MAX_TEXT_LENGTH (trim text)) = MAX_TEXT_LENGTH
         /\ length (skipn MAX_TEXT_LENGTH (trim text)) = 1).
Proof.
  assert (Hpos : 0 < MAX_TEXT_LENGTH) by apply Nat.lt_0_succ.
  split.
  - intros chunks cur sentence Hlong.
    exists (forceSplit MAX_TEXT_LENGTH (trim sentence)).
    assert (Hne : trim sentence <> []).
    { intros E. rewrite E in Hlong. simpl in Hlong. lia. }
    split; [|split; [|split]].
    + unfold chunkStep.
      destruct (trim sentence) as [|c t] eqn:E; [contradiction|].
      cbn [isEmpty].
      replace (MAX_TEXT_LENGTH <? length (c :: t)) with true
        by (symmetry; apply Nat.ltb_lt; exact Hlong).
      reflexivity.
    + apply forceSplit_concat. exact Hpos.
    + unfold forceSplit.
      apply (sliceLoop_exact Hpos (fuel := length (trim sentence))
               (trim sentence) 0). lia.
    + unfold forceSplit.
      destruct (sliceLoop_exact Hpos (fuel := length (trim sentence))
                  (trim sentence) 0) as [_ Hlast]; [lia|].
      destruct Hlast as [Hlast Hnil]; [lia|].
      split; [exact Hlast|].
      pose proof (sliceLoop_length MAX_TEXT_LENGTH (length (trim sentence))
                    (trim sentence) 0) as Hall.
      rewrite Forall_forall in Hall. apply Hall.
      destruct (@exists_last _ _ Hnil) as [pre [z Hz]].
      rewrite Hz, last_last. apply in_or_app. right. left. reflexivity.
  - intros text Hlen Hall. split; [|split].
    + unfold chunkText.
      rewrite chunkTextAt_unpunctuated by (assumption || rewrite Hlen; apply Nat.lt_succ_diag_r).
      apply (forceSplit_two Hpos). exact Hlen.
    + rewrite length_firstn. lia.
    + rewrite length_skipn. lia.
Qed.

Lemma chunkText_force_split_witness :
  MAX_TEXT_LENGTH < length (trim (repeat 0x61%N (S MAX_TEXT_LENGTH)))
  /\ length (trim (repeat 0x61%N (S MAX_TEXT_LENGTH))) = S MAX_TEXT_LENGTH
  /\ forallb notTerminator (trim (repeat 0x61%N (S MAX_TEXT_LENGTH))) = true
  /\ chunkText (repeat 0x61%N (S MAX_TEXT_LENGTH))
     = [firstn MAX_TEXT_LENGTH (trim (repeat 0x61%N (S MAX_TEXT_LENGTH)));
        skipn MAX_TEXT_LENGTH (trim (repeat 0x61%N (S MAX_TEXT_LENGTH)))].
Proof.
  assert (Hlen : length (trim (repeat 0x61%N (S MAX_TEXT_LENGTH)))
                 = S MAX_TEXT_LENGTH) by (vm_compute; reflexivity).
  assert (Hall : forallb notTerminator (trim (repeat 0x61%N (S MAX_TEXT_LENGTH)))
                 = true) by (vm_compute; reflexivity).
  split; [rewrite Hlen; apply Nat.lt_succ_diag_r|].
  split; [exact Hlen|]. split; [exact Hall|].
  exact (proj1 (proj2 chunkText_force_split _ Hlen Hall)).
Defined.

(** [C4], where the code departs from it: no match of the sentence pattern
    can start at a terminator, so terminators that open a long text are in
    no unit and in no chunk. A full stop followed by 4500 letters comes
    back as the letters alone. *)
Theorem chunkText_drops_leading_terminator :
  let text := utf16 "." ++ repeat 0x61%N MAX_TEXT_LENGTH in
  chunkText text = [repeat 0x61%N MAX_TEXT_LENGTH]
  /\ nonWhitespace (concat (chunkText text)) <> nonWhitespace text.
Proof.
  cbv zeta. split; [vm_compute; reflexivity|].
  assert (A : nonWhitespace
                (concat (chunkText (utf16 "." ++ repeat 0x61%N MAX_TEXT_LENGTH)))
              = repeat 0x61%N MAX_TEXT_LENGTH) by (vm_compute; reflexivity).
  assert (B : nonWhitespace (utf16 "." ++ repeat 0x61%N MAX_TEXT_LENGTH)
              = 0x2E%N :: repeat 0x61%N MAX_TEXT_LENGTH)
    by (vm_compute; reflexivity).
  rewrite A, B. intros E. apply (f_equal (@length _)) in E.
  cbn [length] in E. exact (Nat.neq_succ_diag_r _ E).
Qed.

(** ** UTF-16 *)

Ltac bool_to_prop :=
  unfold isScalarValue, isSurrogate, isHighSurrogate, isLowSurrogate,
    isCodeUnit, inRange in *;
  repeat match goal with
    | H : (_ && _)%bool = true |- _ => apply andb_prop in H; destruct H
    | H : (_ && _)%bool = false |- _ => apply andb_false_iff in H
    | H : negb _ = true |- _ => apply negb_true_iff in H
    | H : (_ <=? _)%N = true |- _ => apply N.leb_le in H
    | H : (_ <=? _)%N = false |- _ => apply N.leb_gt in H
    | H : (_ <? _)%N = true |- _ => apply N.ltb_lt in H
    | H : (_ <? _)%N = false |- _ => apply N.ltb_ge in H
    end.

Lemma inRange_true (lo hi c : N) :
  (lo <= c)%N -> (c <= hi)%N -> inRange lo hi c = true.
Proof.
  intros H1 H2. unfold inRange. apply andb_true_intro.
  split; apply N.leb_le; assumption.
Qed.

Lemma inRange_false (lo hi c : N) :
  (c < lo)%N \/ (hi < c)%N -> inRange lo hi c = false.
Proof.
  intros H. unfold inRange. apply andb_false_iff.
  destruct H; [left | right]; apply N.leb_gt; assumption.
Qed.

Lemma codePoints_cons (c : codeUnit) (s : jsstring) :
  isHighSurrogate c = false -> codePoints (c :: s) = c :: codePoints s.
Proof.
  intros Hc. destruct s as [|d s]; [reflexivity|].
  cbn [codePoints]. rewrite Hc. reflexivity.
Qed.

Lemma codePoints_pair (c d : codeUnit) (s : jsstring) :
  isHighSurrogate c = true -> isLowSurrogate d = true ->
  codePoints (c :: d :: s)
  = (0x10000 + (c - 0xD800) * 0x400 + (d - 0xDC00))%N :: codePoints s.
Proof. intros Hc Hd. cbn [codePoints]. rewrite Hc, Hd. reflexivity. Qed.

Lemma codePoints_unpaired (c d : codeUnit) (s : jsstring) :
  isHighSurrogate c && isLowSurrogate d = false ->
  codePoints (c :: d :: s) = c :: codePoints (d :: s).
Proof.
  intros H.
  change (codePoints (c :: d :: s))
    with (if isHighSurrogate c && isLowSurrogate d
          then (0x10000 + (c - 0xD800) * 0x400 + (d - 0xDC00))%N :: codePoints s
          else c :: codePoints (d :: s)).
  rewrite H. reflexivity.
Qed.

(** Reading back the encoding of one scalar value. *)
Lemma codePoints_encodeCodePoint (cp : codePoint) (s : jsstring) :
  isScalarValue cp = true ->
  codePoints (encodeCodePoint cp ++ s) = cp :: codePoints s.
Proof.
  intros Hcp. unfold encodeCodePoint.
  destruct (cp <? 0x10000)%N eqn:Hbmp.
  - cbn [app]. apply codePoints_cons.
    bool_to_prop. apply inRange_false.
    destruct H0 as [H0|H0]; bool_to_prop; lia.
  - cbn [app]. bool_to_prop.
    pose proof (N.div_mod (cp - 0x10000) 0x400 ltac:(lia)) as Hdm.
    pose proof (N.mod_lt (cp - 0x10000) 0x400 ltac:(lia)) as Hr.
    assert (Hq : ((cp - 0x10000) / 0x400 < 0x400)%N)
      by (apply N.Div0.div_lt_upper_bound; lia).
    set (q := ((cp - 0x10000) / 0x400)%N) in *.
    set (r := ((cp - 0x10000) mod 0x400)%N) in *.
    clearbody q r.
    rewrite codePoints_pair.
    + f_equal. lia.
    + apply inRange_true; lia.
    + apply inRange_true; lia.
Qed.

Lemma codePoints_fromCodePoints (cps : list codePoint) :
  forallb isScalarValue cps = true ->
  codePoints (fromCodePoints cps) = cps.
Proof.
  induction cps as [|cp cps IH]; [reflexivity|].
  unfold fromCodePoints in *. cbn [flat_map forallb].
  intros H. apply andb_prop in H. destruct H as [Hcp Hcps].
  rewrite codePoints_encodeCodePoint by exact Hcp.
  rewrite IH by exact Hcps. reflexivity.
Qed.

(** Induction over a string one code point at a time. *)
Lemma codePoints_ind (P : jsstring -> Prop) :
  P [] ->
  (forall c, P [c]) ->
  (forall c d s, P s -> P (d :: s) -> P (c :: d :: s)) ->
  forall s, P s.
Proof.
  intros Hnil Hone Hstep.
  assert (H : forall s, P s /\ forall c, P (c :: s)).
  { induction s as [|d s [IH1 IH2]].
    - split; [exact Hnil | exact Hone].
    - split; [apply IH2|]. intros c. apply Hstep; [exact IH1 | apply IH2]. }
  intros s. apply H.
Qed.

Lemma codePoints_bound (s : jsstring) :
  forallb isCodeUnit s = true ->
  forallb (fun cp => cp <? 0x110000)%N (codePoints s) = true.
Proof.
  induction s as [| c | c d s IH1 IH2] using codePoints_ind; intros H.
  - reflexivity.
  - cbn [forallb codePoints] in *. rewrite andb_true_r in *. bool_to_prop.
    apply N.ltb_lt. lia.
  - cbn [forallb] in H. apply andb_prop in H. destruct H as [Hc Hds].
    pose proof Hds as Hds'.
    cbn [forallb] in Hds. apply andb_prop in Hds. destruct Hds as [Hd Hs].
    destruct (isHighSurrogate c && isLowSurrogate d) eqn:Hpair.
    + apply andb_prop in Hpair. destruct Hpair as [Hhi Hlo].
      rewrite (@codePoints_pair c d s Hhi Hlo).
      cbn [forallb]. rewrite (IH1 Hs), andb_true_r.
      bool_to_prop. apply N.ltb_lt. lia.
    + rewrite (@codePoints_unpaired c d s Hpair).
      cbn [forallb]. rewrite (IH2 Hds'), andb_true_r.
      bool_to_prop. apply N.ltb_lt. lia.
Qed.

Lemma isWellFormed_scalar (s : jsstring) :
  isWellFormed s = true -> forallb isScalarValue (codePoints s) = true.
Proof.
  unfold isWellFormed. intros H. apply andb_prop in H. destruct H as [Hu Hs].
  pose proof (codePoints_bound _ Hu) as Hb.
  rewrite forallb_forall in *. intros cp Hin.
  unfold isScalarValue. rewrite (Hb cp Hin), (Hs cp Hin). reflexivity.
Qed.

(** ** The sanitizer *)

Section SanitizerFacts.

Variable isCf : codePoint -> bool.

(** A code point has one general category. *)
Hypothesis Cc_not_Cf : forall cp, isCc cp = true -> isCf cp = false.

Lemma isPreserved_Cc (cp : codePoint) : isPreserved cp = true -> isCc cp = true.
Proof.
  unfold isPreserved, isCc. intros H.
  repeat (apply orb_prop in H; destruct H as [H|H]);
    apply N.eqb_eq in H; subst cp; reflexivity.
Qed.

(** The class of the pattern is Cc and Cf less the three preserved
    characters. *)
Lemma sanitizeClass_spec (cp : codePoint) :
  sanitizeClass isCf cp = (isCc cp || isCf cp) && negb (isPreserved cp).
Proof.
  unfold sanitizeClass.
  destruct (isCf cp) eqn:Hcf.
  - simpl. rewrite orb_true_r. simpl.
    destruct (isPreserved cp) eqn:Hp; [|reflexivity].
    apply isPreserved_Cc, Cc_not_Cf in Hp. congruence.
  - simpl. rewrite orb_false_r. clear Hcf.
    unfold isCc, isPreserved, inRange.
    repeat match goal with
      | |- context [(?a <=? ?b)%N] => destruct (N.leb_spec a b); try lia
      | |- context [(?a =? ?b)%N] => destruct (N.eqb_spec a b); try lia
      end; reflexivity.
Qed.

Lemma sanitizeText_codePoints (text : jsstring) :
  isWellFormed text = true ->
  codePoints (sanitizeText isCf text)
  = filter (fun cp => negb (sanitizeClass isCf cp)) (codePoints text).
Proof.
  intros Hwf. unfold sanitizeText. apply codePoints_fromCodePoints.
  apply isWellFormed_scalar in Hwf.
  rewrite forallb_forall in *. intros cp Hin.
  apply filter_In in Hin. apply Hwf, Hin.
Qed.

End SanitizerFacts.

Lemma isCf_Unicode15_not_Cc (cp : codePoint) :
  isCc cp = true -> isCf_Unicode15 cp = false.
Proof.
  unfold isCc. intros H.
  assert (Hle : (cp <= 0x9F)%N).
  { apply orb_prop in H. destruct H as [H|H]; bool_to_prop; lia. }
  unfold isCf_Unicode15.
  repeat match goal with
    | |- context [inRange ?lo ?hi cp] =>
        rewrite (@inRange_false lo hi cp) by (left; lia)
    | |- context [(cp =? ?k)%N] =>
        replace (cp =? k)%N with false by (symmetry; apply N.eqb_neq; lia)
    end.
  reflexivity.
Qed.

(** [C5] as stated fails on a string with unpaired surrogates: deleting the
    soft hyphen (Cf) between a high and a low surrogate leaves a pair, and
    the pair is U+110BD, a code point of category Cf. *)
Lemma sanitizeText_joins_surrogates :
  let text := [0xD804; 0x00AD; 0xDCBD]%N in
  forallb isCodeUnit text = true
  /\ sanitizeText isCf_Unicode15 text = [0xD804; 0xDCBD]%N
  /\ codePoints (sanitizeText isCf_Unicode15 text) = [0x110BD%N]
  /\ isCf_Unicode15 0x110BD%N = true
  /\ isPreserved 0x110BD%N = false.
Proof. vm_compute. repeat split; reflexivity. Qed.

(** [C5], amended: for a well-formed string the code points of the output
    are those of the input, in order, less the Cc and Cf code points other
    than tab, line feed and carriage return; so the output holds no Cc or
    Cf code point but those three. [sanitizeText] is a total function of
    its argument. *)
Theorem sanitizeText_strips_control_and_format
  (isCf : codePoint -> bool)
  (Cc_not_Cf : forall cp, isCc cp = true -> isCf cp = false)
  (text : jsstring) :
  isWellFormed text = true ->
  codePoints (sanitizeText isCf text)
  = filter (fun cp => negb ((isCc cp || isCf cp) && negb (isPreserved cp)))
      (codePoints text)
  /\ Forall (fun cp => isCc cp || isCf cp = true -> isPreserved cp = true)
       (codePoints (sanitizeText isCf text)).
Proof.
  intros Hwf.
  assert (E : codePoints (sanitizeText isCf text)
              = filter (fun cp => negb ((isCc cp || isCf cp)
                                        && negb (isPreserved cp)))
                  (codePoints text)).
  { rewrite sanitizeText_codePoints by exact Hwf.
    apply filter_ext. intros cp.
    rewrite (@sanitizeClass_spec isCf Cc_not_Cf cp). reflexivity. }
  split; [exact E|].
  rewrite E. apply Forall_forall. intros cp Hin Hcat.
  apply filter_In in Hin. destruct Hin as [_ Hkeep].
  rewrite Hcat in Hkeep. simpl in Hkeep.
  apply negb_true_iff, negb_false_iff in Hkeep. exact Hkeep.
Qed.

Lemma sanitizeText_strips_control_and_format_witness :
  let text := utf16 "a" ++ [0x200C; 0x09; 0x07; 0xD83D; 0xDE00]%N in
  isWellFormed text = true
  /\ codePoints (sanitizeText isCf_Unicode15 text) = [0x61; 0x09; 0x1F600]%N.
Proof.
  cbv zeta. split; [vm_compute; reflexivity|].
  rewrite (proj1 (sanitizeText_strips_control_and_format
                    isCf_Unicode15 isCf_Unicode15_not_Cc
                    (utf16 "a" ++ [0x200C; 0x09; 0x07; 0xD83D; 0xDE00]%N)
                    ltac:(vm_compute; reflexivity))).
  vm_compute. reflexivity.
Defined.

(** ** The synthesis client *)

Section ServiceFacts.

Variable toLowerCase : jsstring -> jsstring.
Variable isCf : codePoint -> bool.
Variable API_KEY : option jsstring.
Variable generateContent : nat -> jsstring -> response.

(** [handleApiError] follows the taxonomy. *)
Lemma handleApiError_category (message : jsstring) :
  handleApiError toLowerCase (ErrorObj message)
  = categoryMessage (categoryOf (toLowerCase message)).
Proof.
  unfold handleApiError, categoryOf, mentions. cbn [existsb].
  repeat match goal with
    | |- context [includes ?a ?b] =>
        let t := fresh "t" in generalize (includes a b); intros t
    end.
  repeat match goal with
    | t : bool |- _ => destruct t
    end; cbn [orb categoryMessage]; reflexivity.
Qed.

Lemma categoryMessage_injective (c1 c2 : category) :
  categoryMessage c1 = categoryMessage c2 -> c1 = c2.
Proof.
  destruct c1, c2; intros E; try reflexivity;
    apply (f_equal (fun s => (length s, nth 0 s 0%N, nth 3 s 0%N))) in E;
    vm_compute in E; discriminate.
Qed.

Lemma answered_snoc (sent : list jsstring) (req : jsstring)
  (d : option jsstring) :
  answered generateContent sent -> generateContent (length sent) req = Responds d ->
  answered generateContent (sent ++ [req]).
Proof.
  intros Hs Hd k r Hk.
  destruct (Nat.lt_ge_cases k (length sent)) as [Hlt|Hge].
  - rewrite nth_error_app1 in Hk by exact Hlt. exact (Hs k r Hk).
  - rewrite nth_error_app2 in Hk by exact Hge.
    destruct (k - length sent) as [|m] eqn:Ek; simpl in Hk.
    + injection Hk as <-. replace k with (length sent) by lia.
      exists d. exact Hd.
    + destruct m; discriminate.
Qed.

(** A rejected request ends the loop: it is the last request, and the loop
    leaves with what was thrown. *)
Lemma synthesizeChunks_rejected (textChunks : list jsstring) :
  forall (sent audioChunks : list jsstring),
    answered generateContent sent ->
    forall n req e,
      nth_error (requests (synthesizeChunks isCf generateContent
                             textChunks sent audioChunks)) n = Some req ->
      generateContent n req = Rejects e ->
      settled (synthesizeChunks isCf generateContent
                 textChunks sent audioChunks) = inl e
      /\ length (requests (synthesizeChunks isCf generateContent
                             textChunks sent audioChunks)) = S n.
Proof.
  induction textChunks as [|chunk rest IH]; intros sent audio Hsent n req e.
  - simpl. intros Hn He. destruct (Hsent n req Hn) as [d Hd]. congruence.
  - cbn [synthesizeChunks].
    destruct (isEmpty (trim (sanitizeText isCf chunk))); [apply IH, Hsent|].
    destruct (generateContent (length sent) (trim (sanitizeText isCf chunk)))
      as [e'|d] eqn:Hcall.
    + cbn [requests settled]. intros Hn He.
      destruct (Nat.lt_ge_cases n (length sent)) as [Hlt|Hge].
      * rewrite nth_error_app1 in Hn by exact Hlt.
        destruct (Hsent n req Hn) as [d Hd]. congruence.
      * rewrite nth_error_app2 in Hn by exact Hge.
        destruct (n - length sent) as [|m] eqn:Ek; simpl in Hn.
        -- injection Hn as <-. replace n with (length sent) in * by lia.
           rewrite Hcall in He. injection He as <-.
           split; [reflexivity|]. rewrite length_app. simpl. lia.
        -- destruct m; discriminate.
    + destruct (falsy d); apply IH; exact (@answered_snoc sent _ d Hsent Hcall).
Qed.

Lemma generateSpeech_rejected (text : jsstring) (n : nat) (req : jsstring)
  (e : thrown) :
  nth_error (requests (generateSpeech toLowerCase isCf API_KEY
                         generateContent text)) n = Some req ->
  generateContent n req = Rejects e ->
  settled (generateSpeech toLowerCase isCf API_KEY generateContent text)
  = inl (ErrorObj (handleApiError toLowerCase e))
  /\ length (requests (generateSpeech toLowerCase isCf API_KEY
                         generateContent text)) = S n.
Proof.
  intros Hn He.
  assert (Hbody :
            nth_error (requests (generateSpeechBody isCf API_KEY
                                   generateContent text)) n = Some req).
  { unfold generateSpeech in Hn.
    destruct (settled (generateSpeechBody isCf API_KEY generateContent text));
      exact Hn. }
  assert (H : settled (generateSpeechBody isCf API_KEY generateContent text)
              = inl e
              /\ length (requests (generateSpeechBody isCf API_KEY
                                     generateContent text)) = S n).
  { revert Hbody. unfold generateSpeechBody.
    destruct (falsy API_KEY);
      [cbn [requests]; destruct n; discriminate|].
    destruct (length (chunkText text) =? 0);
      [cbn [requests]; destruct n; discriminate|].
    intros Hbody. apply (synthesizeChunks_rejected _ (sent := [])) with req.
    - intros k r Hk. destruct k; discriminate.
    - exact Hbody.
    - exact He. }
  destruct H as [Hs Hl]. unfold generateSpeech. rewrite Hs.
  cbn [requests settled]. split; [reflexivity | exact Hl].
Qed.

End ServiceFacts.

(** [C7]: a request the remote model rejects is the last one of the call,
    and [generateSpeech] settles with an error, not with payloads; the
    message of that error is the message of the category of the
    lower-cased message thrown, the first of the five whose substrings
    occur in it; the five messages differ; a thrown value that is not an
    [Error] gives the default message. *)
Theorem api_failure_aborts_and_is_classified
  (toLowerCase : jsstring -> jsstring) (isCf : codePoint -> bool)
  (API_KEY : option jsstring)
  (generateContent : nat -> jsstring -> response) :
  (forall text n req e,
      nth_error (requests (generateSpeech toLowerCase isCf API_KEY
                             generateContent text)) n = Some req ->
      generateContent n req = Rejects e ->
      settled (generateSpeech toLowerCase isCf API_KEY generateContent text)
      = inl (ErrorObj (handleApiError toLowerCase e))
      /\ length (requests (generateSpeech toLowerCase isCf API_KEY
                             generateContent text)) = S n)
  /\ (forall message,
         handleApiError toLowerCase (ErrorObj message)
         = categoryMessage (categoryOf (toLowerCase message)))
  /\ (forall c1 c2, categoryMessage c1 = categoryMessage c2 -> c1 = c2)
  /\ handleApiError toLowerCase NonError = MSG_UNKNOWN.
Proof.
  split; [|split; [|split]].
  - intros text n req e. apply generateSpeech_rejected.
  - apply handleApiError_category.
  - apply categoryMessage_injective.
  - reflexivity.
Qed.

Lemma api_failure_aborts_and_is_classified_witness :
  let remote := fun (n : nat) (_ : jsstring) =>
                  if n =? 1
                  then Rejects (ErrorObj (utf16 "429 Rate limit exceeded"))
                  else Responds (Some (utf16 "UklGRg==")) in
  let text := repeat 0x61%N (S MAX_TEXT_LENGTH) in
  let call := generateSpeech (map asciiLower) isCf_Unicode15
                (Some (utf16 "key")) remote text in
  nth_error (requests call) 1 = Some (utf16 "a")
  /\ settled call = inl (ErrorObj MSG_RATE_LIMIT)
  /\ length (requests call) = 2.
Proof.
  cbv zeta.
  assert (Hn : nth_error
                 (requests
                    (generateSpeech (map asciiLower) isCf_Unicode15
                       (Some (utf16 "key"))
                       (fun (n : nat) (_ : jsstring) =>
                          if n =? 1
                          then Rejects (ErrorObj (utf16 "429 Rate limit exceeded"))
                          else Responds (Some (utf16 "UklGRg==")))
                       (repeat 0x61%N (S MAX_TEXT_LENGTH)))) 1
               = Some (utf16 "a")) by (vm_compute; reflexivity).
  split; [exact Hn|].
  destruct (proj1 (api_failure_aborts_and_is_classified
                     (map asciiLower) isCf_Unicode15 (Some (utf16 "key"))
                     (fun (n : nat) (_ : jsstring) =>
                        if n =? 1
                        then Rejects (ErrorObj (utf16 "429 Rate limit exceeded"))
                        else Responds (Some (utf16 "UklGRg=="))))
              _ 1 (utf16 "a")
              (ErrorObj (utf16 "429 Rate limit exceeded")) Hn eq_refl)
    as [Hs Hl].
  split; [|exact Hl].
  rewrite Hs. vm_compute. reflexivity.
Defined.

(** ** The hook *)

Import Hook.

Unset Implicit Arguments.

Section HookFacts.

Variable AudioBuffer : Type.

Let world := Hook.world AudioBuffer.
Let sourceNode := Hook.sourceNode AudioBuffer.
Let event := Hook.event AudioBuffer.

Variable raises : callback -> list event -> option thrown.

(** Whether the callback returns or throws, a call of it leaves the hook
    as it found it; what differs is what the caller does next. *)
Lemma invoke_exec (onEnd : option callback) (w : world) :
  exec (invoke raises onEnd) w
  = match onEnd with
    | Some cb => emit (CallbackInvoked cb) w
    | None => w
    end.
Proof.
  destruct onEnd as [cb|]; [|reflexivity].
  unfold exec, invoke, bind, gets, modify. cbn.
  destruct (raises cb (log w)); reflexivity.
Qed.

Lemma invoke_returns (onEnd : option callback) (w : world) :
  returnsIfAny raises onEnd ->
  invoke raises onEnd w = (inr tt, exec (invoke raises onEnd) w).
Proof.
  destruct onEnd as [cb|]; [|reflexivity]. cbn [returnsIfAny]. intros H.
  unfold exec, invoke, bind, gets, modify. cbn. rewrite H. reflexivity.
Qed.

(** [onEnd] called inside the [try] of [speak]: when it returns, the
    [catch] clause does nothing. *)
Lemma attempt_returns (onEnd : option callback) (w : world) :
  returnsIfAny raises onEnd ->
  exec (tryCatch (invoke raises onEnd) (speakCatch raises onEnd)) w
  = exec (invoke raises onEnd) w.
Proof.
  intros H. unfold exec, tryCatch. rewrite (invoke_returns _ _ H).
  reflexivity.
Qed.

Lemma exec_tryFinally (A : Type) (body : M AudioBuffer A) (w : world) :
  exec (tryFinally body (@speakFinally AudioBuffer)) w
  = setIsLoading false (exec body w).
Proof.
  unfold exec, tryFinally, speakFinally, modify.
  destruct (body w) as [[e|a] w']; reflexivity.
Qed.

Lemma exec_speakCatch (onEnd : option callback) (e : thrown) (w : world) :
  exec (speakCatch raises onEnd e) w
  = exec (invoke raises onEnd)
      (setAudioQueueRef []
         (setIsPlaying false (setError (Some (caughtMessage e)) w))).
Proof. reflexivity. Qed.

(** The [speak] call the settled promise belongs to is the only one
    suspended. *)
Ltac settle_call Hs :=
  unfold step; rewrite Hs;
  cbn [takeCall mkCall speak_id speak_at speak_onEnd];
  rewrite Nat.eqb_refl; cbn [andb awaiting_eqb].

Ltac finally_first :=
  match goal with
  | |- _ = Some (setIsLoading false (exec ?m ?W)) =>
      transitivity
        (Some (exec (tryFinally m (@speakFinally AudioBuffer)) W));
      [reflexivity | rewrite exec_tryFinally; reflexivity]
  end.


Lemma invocations_app (cb : callback) (l1 l2 : list event) :
  invocations cb (l1 ++ l2) = invocations cb l1 + invocations cb l2.
Proof. unfold invocations. rewrite filter_app, length_app. reflexivity. Qed.

Lemma invocations_advanceLog (cb : callback) (id : nat) (rate : Q)
  (onEnd : option callback) (queue : list AudioBuffer) :
  invocations cb (advanceLog id rate onEnd queue) = 0.
Proof.
  revert id. induction queue as [|b q IH]; intros id; [reflexivity|].
  cbn [advanceLog]. unfold invocations in *. cbn [filter isInvocation].
  apply IH.
Qed.

Lemma startedBuffers_app (l1 l2 : list event) :
  startedBuffers (l1 ++ l2) = startedBuffers l1 ++ startedBuffers l2.
Proof.
  induction l1 as [|e l1 IH]; [reflexivity|].
  destruct e; cbn [app startedBuffers]; rewrite IH; reflexivity.
Qed.

Lemma startedBuffers_advanceLog (id : nat) (rate : Q)
  (onEnd : option callback) (queue : list AudioBuffer) :
  startedBuffers (advanceLog id rate onEnd queue) = queue.
Proof.
  revert id. induction queue as [|b q IH]; intros id; [reflexivity|].
  cbn [advanceLog startedBuffers mkNode node_buffer]. rewrite IH. reflexivity.
Qed.

(** *** [stop] *)

Lemma stop_active (w : world) (n : sourceNode) :
  sourceNodeRef w = Some n ->
  stop w = (inr tt, emit (NodeStopRequested (node_id n))
                      (setIsStoppingRef true w)).
Proof. destruct w. cbn. intros ->. reflexivity. Qed.

Lemma stop_idle (w : world) :
  sourceNodeRef w = None ->
  stop w = (inr tt, setIsPlaying false
                      (setAudioQueueRef [] (setIsStoppingRef true w))).
Proof. destruct w. cbn. intros ->. reflexivity. Qed.

(** *** One node ends *)

Lemma ended_next (w : world) (n : sourceNode) (b : AudioBuffer)
  (q : list AudioBuffer) :
  playing w n (b :: q) ->
  let n' := mkNode (nextId w) b (playbackRateRef w) (node_onEnd n) in
  step raises (NodeEnded (node_id n)) w
  = Some (emit (NodeStarted n')
            (setLiveNodes [n']
               (setSourceNodeRef (Some n')
                  (setNextId (S (nextId w))
                     (setAudioQueueRef q
                        (emit (NodeFinished (node_id n)) w)))))).
Proof.
  destruct w. unfold playing. cbn.
  intros (-> & -> & -> & -> & -> & -> & _). cbn.
  rewrite Nat.eqb_refl. reflexivity.
Qed.

Lemma ended_last (w : world) (n : sourceNode) :
  playing w n [] ->
  step raises (NodeEnded (node_id n)) w
  = Some (exec (invoke raises (node_onEnd n))
            (setSourceNodeRef None
               (setIsPlaying false
                  (setLiveNodes [] (emit (NodeFinished (node_id n)) w))))).
Proof.
  destruct w. unfold playing. cbn.
  intros (-> & -> & -> & -> & -> & -> & _). cbn.
  rewrite Nat.eqb_refl. reflexivity.
Qed.

Lemma ended_stopping (w : world) (n : sourceNode) :
  liveNodes w = [n] -> isStoppingRef w = true ->
  step raises (NodeEnded (node_id n)) w
  = Some (exec (invoke raises (node_onEnd n))
            (setIsPlaying false
               (setSourceNodeRef None
                  (setAudioQueueRef []
                     (setLiveNodes [] (emit (NodeFinished (node_id n)) w)))))).
Proof.
  destruct w. cbn. intros -> ->. cbn.
  rewrite Nat.eqb_refl. reflexivity.
Qed.

Lemma ended_stopping_fields (w : world) (n : sourceNode) :
  liveNodes w = [n] -> isStoppingRef w = true ->
  exists w',
    step raises (NodeEnded (node_id n)) w = Some w'
    /\ log w' = log w ++ NodeFinished (node_id n)
                         :: match node_onEnd n with
                            | Some cb => [CallbackInvoked cb]
                            | None => []
                            end
    /\ sourceNodeRef w' = None
    /\ liveNodes w' = []
    /\ audioQueueRef w' = []
    /\ isPlaying w' = false
    /\ suspendedCalls w' = suspendedCalls w.
Proof.
  intros Hlive Hstop. rewrite (ended_stopping w n Hlive Hstop).
  eexists. split; [reflexivity|].
  rewrite invoke_exec.
  destruct w. destruct (node_onEnd n); cbn; rewrite <- ?app_assoc;
    repeat split; reflexivity.
Qed.

(** *** Playing a queue *)

Lemma endings_S (id k : nat) :
  @endings AudioBuffer id (S k) = NodeEnded id :: endings (S id) k.
Proof. reflexivity. Qed.

Lemma run_app (i1 i2 : list (input AudioBuffer)) (w : world) :
  run raises (i1 ++ i2) w
  = match run raises i1 w with
    | Some w' => run raises i2 w'
    | None => None
    end.
Proof.
  revert w. induction i1 as [|i i1 IH]; intros w; [reflexivity|].
  cbn [app run]. destruct (step raises i w); [apply IH | reflexivity].
Qed.

(** While no [stop] comes, the nodes end one after the other and each
    ending starts the head of the queue. *)
Lemma playing_run (k : nat) :
  forall (q : list AudioBuffer) (w : world) (n : sourceNode),
    k <= length q -> playing w n q ->
    exists w' n',
      run raises (endings (node_id n) k) w = Some w'
      /\ playing w' n' (skipn k q)
      /\ node_id n' = node_id n + k
      /\ nth_error (node_buffer n :: q) k = Some (node_buffer n')
      /\ node_onEnd n' = node_onEnd n
      /\ log w' = log w ++ advanceLog (node_id n) (playbackRateRef w)
                             (node_onEnd n) (firstn k q)
      /\ isPlaying w' = isPlaying w
      /\ isLoading w' = isLoading w
      /\ error w' = error w
      /\ suspendedCalls w' = suspendedCalls w
      /\ playbackRateRef w' = playbackRateRef w.
Proof.
  induction k as [|k IH]; intros q w n Hk Hp.
  - exists w, n. cbn [endings seq map run skipn firstn advanceLog nth_error].
    rewrite app_nil_r, Nat.add_0_r.
    split; [reflexivity|]. split; [exact Hp|]. repeat split; reflexivity.
  - destruct q as [|b q]; [simpl in Hk; lia|].
    pose proof (ended_next w n b q Hp) as Hstep. cbv zeta in Hstep.
    set (n1 := mkNode (nextId w) b (playbackRateRef w) (node_onEnd n)) in *.
    set (w1 := emit (NodeStarted n1) _) in *.
    assert (Hid : nextId w = S (node_id n)) by apply Hp.
    assert (Hp1 : playing w1 n1 q).
    { destruct Hp as (H1 & H2 & H3 & H4 & H5 & H6 & H7).
      unfold playing. subst w1 n1. destruct w. cbn in *.
      repeat split; assumption || reflexivity. }
    destruct (IH q w1 n1 ltac:(simpl in Hk; lia) Hp1)
      as (w' & n' & Hrun & Hp' & Hid' & Hbuf & Hend & Hlog & F1 & F2 & F3 & F4 & F5).
    exists w', n'.
    assert (Hn1 : node_id n1 = S (node_id n)) by (subst n1; cbn; exact Hid).
    rewrite endings_S. cbn [run]. rewrite Hstep.
    rewrite <- Hn1. split; [exact Hrun|].
    split; [exact Hp'|].
    split; [lia|].
    split; [exact Hbuf|].
    split; [rewrite Hend; reflexivity|].
    split.
    { rewrite Hlog. subst w1. destruct w. cbn [log emit setLiveNodes
        setSourceNodeRef setNextId setAudioQueueRef playbackRateRef].
      rewrite <- !app_assoc. cbn [app firstn advanceLog].
      rewrite Hn1. cbn in Hid. subst n1. cbn [node_onEnd mkNode].
      rewrite Hid. reflexivity. }
    subst w1. destruct w. cbn in *. repeat split; assumption.
Qed.

(** *** [speak] *)

Ltac hook_unfold :=
  unfold step, exec, speak, speakAfterSynthesis, speakAfterDecode,
    speakCatch, speakFinally, suspend, stop, playNextInQueue, onended,
    start, invoke, tryCatch, tryFinally, bind, ret, throw, gets, modify;
  cbn -[trim isEmpty Nat.eqb].

(** The state [speak] leaves when it suspends at [generateSpeech], called
    while no node is referenced. *)
Lemma speak_begin (w : world) (text : jsstring) (onEnd : option callback)
  (playbackRate : option Q) :
  sourceNodeRef w = None -> isEmpty (trim text) = false ->
  step raises (CallSpeak text onEnd playbackRate) w
  = Some (setSuspendedCalls
            (suspendedCalls w
             ++ [{| speak_id := nextId w; speak_onEnd := onEnd;
                    speak_at := AwaitSynthesis |}])
            (emit (SynthesisRequested (nextId w) text)
               (setPlaybackRateRef (rateOf playbackRate)
                  (setError None
                     (setIsLoading true
                        (setIsStoppingRef false
                           (setIsPlaying false
                              (setAudioQueueRef []
                                 (emit (SpeakCalled (nextId w) onEnd)
                                    (setNextId (S (nextId w)) w)))))))))).
Proof.
  destruct w. cbn [sourceNodeRef]. intros -> Htext.
  hook_unfold. rewrite Htext. reflexivity.
Qed.

Lemma speak_blank (w : world) (text : jsstring) (onEnd : option callback)
  (playbackRate : option Q) :
  sourceNodeRef w = None -> isEmpty (trim text) = true ->
  step raises (CallSpeak text onEnd playbackRate) w
  = Some (setIsLoading false
            (exec (tryCatch (invoke raises onEnd) (speakCatch raises onEnd))
               (setPlaybackRateRef (rateOf playbackRate)
                  (setError None
                     (setIsLoading true
                        (setIsStoppingRef false
                           (setIsPlaying false
                              (setAudioQueueRef []
                                 (emit (SpeakCalled (nextId w) onEnd)
                                    (setNextId (S (nextId w)) w)))))))))).
Proof.
  destruct w. cbn [sourceNodeRef]. intros -> Htext.
  unfold step, speak, stop, bind, gets, modify.
  cbn -[trim isEmpty invoke tryCatch tryFinally speakCatch]. rewrite Htext.
  finally_first.
Qed.

(** The promises a suspended call awaits settle. *)
Lemma synthesis_settled_ok (w : world) (id : nat) (onEnd : option callback)
  (payloads : list jsstring) :
  suspendedCalls w = [mkCall id onEnd AwaitSynthesis] ->
  step raises (SynthesisSettled id (inr payloads)) w
  = Some (setSuspendedCalls [mkCall id onEnd AwaitDecode]
            (setAudioContextRef true w)).
Proof.
  destruct w. cbn [suspendedCalls]. intros ->.
  hook_unfold. rewrite Nat.eqb_refl. reflexivity.
Qed.

Lemma synthesis_settled_failed (w : world) (id : nat)
  (onEnd : option callback) (e : thrown) :
  suspendedCalls w = [mkCall id onEnd AwaitSynthesis] ->
  step raises (SynthesisSettled id (inl e)) w
  = Some (setIsLoading false
            (exec (invoke raises onEnd)
               (setAudioQueueRef []
                  (setIsPlaying false
                     (setError (Some (caughtMessage e))
                        (setSuspendedCalls [] w)))))).
Proof.
  intros Hs. settle_call Hs. unfold speakAfterSynthesis.
  rewrite exec_tryFinally, exec_speakCatch. reflexivity.
Qed.

Lemma decode_settled_failed (w : world) (id : nat)
  (onEnd : option callback) (e : thrown) :
  suspendedCalls w = [mkCall id onEnd AwaitDecode] ->
  step raises (@DecodeSettled AudioBuffer id (inl e)) w
  = Some (setIsLoading false
            (exec (invoke raises onEnd)
               (setAudioQueueRef []
                  (setIsPlaying false
                     (setError (Some (caughtMessage e))
                        (setSuspendedCalls [] w)))))).
Proof.
  intros Hs. settle_call Hs. unfold speakAfterDecode.
  rewrite exec_tryFinally, exec_speakCatch. reflexivity.
Qed.

Lemma decode_settled_empty (w : world) (id : nat) (onEnd : option callback) :
  suspendedCalls w = [mkCall id onEnd AwaitDecode] ->
  step raises (@DecodeSettled AudioBuffer id (inr [])) w
  = Some (setIsLoading false
            (exec (tryCatch (invoke raises onEnd) (speakCatch raises onEnd))
               (setAudioQueueRef [] (setSuspendedCalls [] w)))).
Proof.
  intros Hs. settle_call Hs. unfold speakAfterDecode.
  rewrite exec_tryFinally. reflexivity.
Qed.

Lemma decode_settled_ok (w : world) (id : nat) (onEnd : option callback)
  (b : AudioBuffer) (q : list AudioBuffer) :
  suspendedCalls w = [mkCall id onEnd AwaitDecode] ->
  isStoppingRef w = false -> audioContextRef w = true ->
  let n := mkNode (nextId w) b (playbackRateRef w) onEnd in
  step raises (DecodeSettled id (inr (b :: q))) w
  = Some (setIsLoading false
            (emit (NodeStarted n)
               (setLiveNodes (liveNodes w ++ [n])
                  (setSourceNodeRef (Some n)
                     (setNextId (S (nextId w))
                        (setAudioQueueRef q
                           (setIsPlaying true
                              (setSuspendedCalls [] w)))))))).
Proof.
  destruct w. cbn [suspendedCalls isStoppingRef audioContextRef].
  intros -> -> ->.
  hook_unfold. rewrite Nat.eqb_refl. reflexivity.
Qed.

(** A [speak] call on a hook at rest whose synthesis and decoding give at
    least one buffer: the first buffer plays, the others wait. *)
Lemma speak_hands_over (w0 : world) (text : jsstring)
  (onEnd : option callback) (playbackRate : option Q)
  (payloads : list jsstring) (b : AudioBuffer) (q : list AudioBuffer) :
  quiescent w0 -> isEmpty (trim text) = false ->
  exists w1,
    run raises (speakInputs (nextId w0) text onEnd playbackRate payloads
                  (b :: q)) w0
    = Some w1
    /\ playing w1 (mkNode (S (nextId w0)) b (rateOf playbackRate) onEnd) q
    /\ log w1 = log w0 ++ [SpeakCalled (nextId w0) onEnd;
                           SynthesisRequested (nextId w0) text;
                           NodeStarted (mkNode (S (nextId w0)) b
                                          (rateOf playbackRate) onEnd)]
    /\ isPlaying w1 = true
    /\ isLoading w1 = false
    /\ error w1 = None
    /\ suspendedCalls w1 = []
    /\ playbackRateRef w1 = rateOf playbackRate.
Proof.
  intros (Hsrc & Hlive & Hsusp) Htext.
  unfold speakInputs. cbn [run].
  rewrite (speak_begin w0 text onEnd playbackRate Hsrc Htext).
  rewrite (synthesis_settled_ok _ (nextId w0) onEnd payloads)
    by (destruct w0; cbn in *; subst; reflexivity).
  rewrite (decode_settled_ok _ (nextId w0) onEnd b q)
    by (destruct w0; reflexivity).
  eexists. split; [reflexivity|].
  destruct w0. cbn in *. subst.
  unfold playing. cbn.
  rewrite <- !app_assoc. cbn [app].
  repeat split; reflexivity.
Qed.

Lemma endings_snoc (id k : nat) :
  @endings AudioBuffer id (S k) = endings id k ++ [NodeEnded (id + k)].
Proof. unfold endings. rewrite seq_S, map_app. reflexivity. Qed.

(** The session after [k] nodes have ended, [k] at most the length of the
    queue: node [k] plays and the rest of the queue waits. *)
Lemma session_playing (w0 : world) (text : jsstring)
  (onEnd : option callback) (playbackRate : option Q)
  (payloads : list jsstring) (b : AudioBuffer) (q : list AudioBuffer)
  (k : nat) :
  quiescent w0 -> isEmpty (trim text) = false -> k <= length q ->
  exists w n,
    run raises (speakInputs (nextId w0) text onEnd playbackRate payloads
                  (b :: q)
                ++ endings (S (nextId w0)) k) w0 = Some w
    /\ playing w n (skipn k q)
    /\ node_id n = S (nextId w0) + k
    /\ nth_error (b :: q) k = Some (node_buffer n)
    /\ node_onEnd n = onEnd
    /\ log w = log w0
               ++ [SpeakCalled (nextId w0) onEnd;
                   SynthesisRequested (nextId w0) text;
                   NodeStarted (mkNode (S (nextId w0)) b
                                  (rateOf playbackRate) onEnd)]
               ++ advanceLog (S (nextId w0)) (rateOf playbackRate) onEnd
                    (firstn k q)
    /\ isPlaying w = true
    /\ isLoading w = false
    /\ error w = None
    /\ suspendedCalls w = [].
Proof.
  intros Hq Htext Hk.
  destruct (speak_hands_over w0 text onEnd playbackRate payloads b q Hq Htext)
    as (w1 & Hrun1 & Hp1 & Hlog1 & Hplay1 & Hload1 & Herr1 & Hsusp1 & Hrate1).
  destruct (playing_run k q w1 _ Hk Hp1)
    as (w & n & Hrun & Hp & Hid & Hbuf & Hend & Hlog & F1 & F2 & F3 & F4 & F5).
  exists w, n. rewrite run_app, Hrun1.
  cbn [mkNode node_id node_buffer node_onEnd] in *.
  split; [exact Hrun|]. split; [exact Hp|]. split; [exact Hid|].
  split; [exact Hbuf|]. split; [exact Hend|].
  split; [rewrite Hlog, Hlog1, Hrate1, <- app_assoc; reflexivity|].
  repeat split; congruence.
Qed.

(** The session after its last node has ended. *)
Lemma session_finished (w0 : world) (text : jsstring)
  (onEnd : option callback) (playbackRate : option Q)
  (payloads : list jsstring) (b : AudioBuffer) (q : list AudioBuffer) :
  quiescent w0 -> isEmpty (trim text) = false ->
  exists w,
    run raises (speakInputs (nextId w0) text onEnd playbackRate payloads
                  (b :: q)
                ++ endings (S (nextId w0)) (S (length q))) w0 = Some w
    /\ log w = log w0
               ++ [SpeakCalled (nextId w0) onEnd;
                   SynthesisRequested (nextId w0) text;
                   NodeStarted (mkNode (S (nextId w0)) b
                                  (rateOf playbackRate) onEnd)]
               ++ advanceLog (S (nextId w0)) (rateOf playbackRate) onEnd q
               ++ NodeFinished (S (nextId w0) + length q)
                  :: match onEnd with
                     | Some cb => [CallbackInvoked cb]
                     | None => []
                     end
    /\ quiescent w
    /\ audioQueueRef w = []
    /\ isPlaying w = false
    /\ isLoading w = false
    /\ error w = None.
Proof.
  intros Hq Htext.
  destruct (session_playing w0 text onEnd playbackRate payloads b q
              (length q) Hq Htext (le_n _))
    as (w & n & Hrun & Hp & Hid & Hbuf & Hend & Hlog & F1 & F2 & F3 & F4).
  rewrite skipn_all in Hp. rewrite firstn_all in Hlog.
  pose proof (ended_last w n Hp) as Hstep.
  rewrite endings_snoc, app_assoc, run_app, Hrun. cbn [run].
  rewrite <- Hid, Hstep. eexists. split; [reflexivity|].
  rewrite invoke_exec.
  rewrite Hend. destruct Hp as (_ & _ & _ & _ & Hqueue & _).
  destruct w. cbn in *. subst.
  unfold quiescent. destruct (node_onEnd n); cbn; rewrite <- !app_assoc;
    cbn [app]; repeat split; reflexivity.
Qed.


(** *** [stop] during a session *)

(** The session when [stop] is called while node [k] plays. *)
Lemma session_stop (w0 : world) (text : jsstring)
  (onEnd : option callback) (playbackRate : option Q)
  (payloads : list jsstring) (b : AudioBuffer) (q : list AudioBuffer)
  (k : nat) :
  quiescent w0 -> isEmpty (trim text) = false -> k <= length q ->
  exists w n,
    run raises (speakInputs (nextId w0) text onEnd playbackRate payloads
                  (b :: q)
                ++ endings (S (nextId w0)) k ++ [CallStop]) w0 = Some w
    /\ sourceNodeRef w = Some n
    /\ liveNodes w = [n]
    /\ node_id n = S (nextId w0) + k
    /\ node_onEnd n = onEnd
    /\ isStoppingRef w = true
    /\ audioQueueRef w = skipn k q
    /\ isPlaying w = true
    /\ suspendedCalls w = []
    /\ log w = log w0
               ++ [SpeakCalled (nextId w0) onEnd;
                   SynthesisRequested (nextId w0) text;
                   NodeStarted (mkNode (S (nextId w0)) b
                                  (rateOf playbackRate) onEnd)]
               ++ advanceLog (S (nextId w0)) (rateOf playbackRate) onEnd
                    (firstn k q)
               ++ [NodeStopRequested (S (nextId w0) + k)].
Proof.
  intros Hq Htext Hk.
  destruct (session_playing w0 text onEnd playbackRate payloads b q k
              Hq Htext Hk)
    as (w & n & Hrun & Hp & Hid & Hbuf & Hend & Hlog & F1 & F2 & F3 & F4).
  destruct Hp as (_ & _ & Hsrc & Hlive & Hqueue & _).
  exists (emit (NodeStopRequested (node_id n)) (setIsStoppingRef true w)), n.
  rewrite app_assoc, run_app, Hrun. cbn [run step]. unfold exec.
  rewrite (stop_active w n Hsrc). cbn [snd].
  split; [reflexivity|].
  destruct w. cbn in *. subst.
  rewrite <- !app_assoc. cbn [app]. rewrite Hid.
  repeat split; reflexivity.
Qed.

(** The session once the node [stop] has halted has ended. *)
Lemma session_stopped (w0 : world) (text : jsstring)
  (onEnd : option callback) (playbackRate : option Q)
  (payloads : list jsstring) (b : AudioBuffer) (q : list AudioBuffer)
  (k : nat) :
  quiescent w0 -> isEmpty (trim text) = false -> k <= length q ->
  exists w,
    run raises (speakInputs (nextId w0) text onEnd playbackRate payloads
                  (b :: q)
                ++ endings (S (nextId w0)) k
                ++ [CallStop; NodeEnded (S (nextId w0) + k)]) w0 = Some w
    /\ quiescent w
    /\ audioQueueRef w = []
    /\ isPlaying w = false
    /\ log w = log w0
               ++ [SpeakCalled (nextId w0) onEnd;
                   SynthesisRequested (nextId w0) text;
                   NodeStarted (mkNode (S (nextId w0)) b
                                  (rateOf playbackRate) onEnd)]
               ++ advanceLog (S (nextId w0)) (rateOf playbackRate) onEnd
                    (firstn k q)
               ++ NodeStopRequested (S (nextId w0) + k)
                  :: NodeFinished (S (nextId w0) + k)
                  :: match onEnd with
                     | Some cb => [CallbackInvoked cb]
                     | None => []
                     end.
Proof.
  intros Hq Htext Hk.
  destruct (session_stop w0 text onEnd playbackRate payloads b q k
              Hq Htext Hk)
    as (w & n & Hrun & Hsrc & Hlive & Hid & Hend & Hstop & Hqueue & Hplay
        & Hsusp & Hlog).
  destruct (ended_stopping_fields w n Hlive Hstop)
    as (w' & Hstep & Hlog' & Hsrc' & Hlive' & Hqueue' & Hplay' & Hsusp').
  change [@CallStop AudioBuffer; NodeEnded (S (nextId w0) + k)]
    with ([@CallStop AudioBuffer] ++ [NodeEnded (S (nextId w0) + k)]).
  rewrite !app_assoc, run_app, <- !app_assoc, Hrun. cbn [run].
  rewrite <- Hid, Hstep. exists w'. split; [reflexivity|].
  split; [unfold quiescent; repeat split; congruence|].
  split; [exact Hqueue'|]. split; [exact Hplay'|].
  rewrite Hlog', Hlog, Hend, !Hid, <- !app_assoc. reflexivity.
Qed.

(** [C9]: when [stop] is called while a buffer of the session plays, and
    the halted node then ends, no further buffer is started and [onEnd] is
    invoked exactly once: the log grows by the stop request, the end of
    the node and one invocation, the queue is empty and the hook is at
    rest and not playing. When [stop] is called while no node is
    referenced it returns normally, and at once the queue is empty and
    [isPlaying] is false; nothing is logged. On the initial state, before
    any [speak], it changes nothing but the stopping flag. *)
Theorem stop_cancels_playback :
  (forall (w0 : world) (text : jsstring) (cb : callback)
          (playbackRate : option Q) (payloads : list jsstring)
          (b : AudioBuffer) (q : list AudioBuffer) (k : nat),
      quiescent w0 -> isEmpty (trim text) = false -> k <= length q ->
      exists w,
        run raises (speakInputs (nextId w0) text (Some cb) playbackRate payloads
                      (b :: q)
                    ++ endings (S (nextId w0)) k
                    ++ [CallStop; NodeEnded (S (nextId w0) + k)]) w0 = Some w
        /\ startedBuffers (log w)
           = startedBuffers (log w0) ++ firstn (S k) (b :: q)
        /\ invocations cb (log w) = S (invocations cb (log w0))
        /\ quiescent w
        /\ audioQueueRef w = []
        /\ isPlaying w = false)
  /\ (forall w : world,
         sourceNodeRef w = None ->
         fst (stop w) = inr tt
         /\ audioQueueRef (exec (@stop AudioBuffer) w) = []
         /\ isPlaying (exec (@stop AudioBuffer) w) = false
         /\ log (exec (@stop AudioBuffer) w) = log w
         /\ liveNodes (exec (@stop AudioBuffer) w) = liveNodes w)
  /\ step raises CallStop (initial AudioBuffer)
     = Some (setIsStoppingRef true (initial AudioBuffer)).
Proof.
  split; [|split].
  - intros w0 text cb rate payloads b q k Hq Htext Hk.
    destruct (session_stopped w0 text (Some cb) rate payloads b q k
                Hq Htext Hk)
      as (w & Hrun & Hquiet & Hqueue & Hplay & Hlog).
    exists w. split; [exact Hrun|].
    split.
    { rewrite Hlog, !startedBuffers_app, startedBuffers_advanceLog.
      cbn. rewrite app_nil_r. reflexivity. }
    split.
    { rewrite Hlog, !invocations_app, invocations_advanceLog.
      unfold invocations. cbn [filter isInvocation length].
      rewrite Nat.eqb_refl. cbn [length]. lia. }
    repeat split; assumption || apply Hquiet.
  - intros w Hsrc. unfold exec. rewrite (stop_idle w Hsrc).
    destruct w. cbn. repeat split; reflexivity.
  - reflexivity.
Qed.

(** [C10]: a [stop] that finds a node in the ref only sets the stopping
    flag and asks that node to stop: the queue and [isPlaying] are as
    before. In a session, after the [stop] the queue still holds the
    buffers behind the active one and [isPlaying] is still true; the queue
    is empty and [isPlaying] false once the [ended] event of the halted
    node has been handled. *)
Theorem stop_defers_cleanup :
  (forall (w : world) (n : sourceNode),
      sourceNodeRef w = Some n ->
      stop w = (inr tt, emit (NodeStopRequested (node_id n))
                          (setIsStoppingRef true w))
      /\ audioQueueRef (exec (@stop AudioBuffer) w) = audioQueueRef w
      /\ isPlaying (exec (@stop AudioBuffer) w) = isPlaying w)
  /\ (forall (w0 : world) (text : jsstring) (onEnd : option callback)
             (playbackRate : option Q) (payloads : list jsstring)
             (b : AudioBuffer) (q : list AudioBuffer) (k : nat),
         quiescent w0 -> isEmpty (trim text) = false -> k <= length q ->
         (exists w,
             run raises (speakInputs (nextId w0) text onEnd playbackRate
                           payloads (b :: q)
                         ++ endings (S (nextId w0)) k ++ [CallStop]) w0
             = Some w
             /\ isStoppingRef w = true
             /\ audioQueueRef w = skipn k q
             /\ isPlaying w = true)
         /\ (exists w,
                run raises (speakInputs (nextId w0) text onEnd playbackRate
                              payloads (b :: q)
                            ++ endings (S (nextId w0)) k
                            ++ [CallStop; NodeEnded (S (nextId w0) + k)]) w0
                = Some w
                /\ audioQueueRef w = []
                /\ isPlaying w = false)).
Proof.
  split.
  - intros w n Hsrc. unfold exec. rewrite (stop_active w n Hsrc).
    destruct w. cbn. repeat split; reflexivity.
  - intros w0 text onEnd rate payloads b q k Hq Htext Hk. split.
    + destruct (session_stop w0 text onEnd rate payloads b q k Hq Htext Hk)
        as (w & n & Hrun & _ & _ & _ & _ & Hstop & Hqueue & Hplay & _).
      exists w. repeat split; assumption.
    + destruct (session_stopped w0 text onEnd rate payloads b q k
                  Hq Htext Hk)
        as (w & Hrun & _ & Hqueue & Hplay & _).
      exists w. repeat split; assumption.
Qed.

(** *** The outcomes of [speak] *)

Lemma invocations_one (cb : callback) :
  invocations cb [@CallbackInvoked AudioBuffer cb] = 1.
Proof. unfold invocations. cbn. rewrite Nat.eqb_refl. reflexivity. Qed.

(** Blank text, in any state of the hook. *)
Lemma speak_blank_any (w : world) (text : jsstring) (cb : callback)
  (playbackRate : option Q) :
  isEmpty (trim text) = true -> returns raises cb ->
  exists w',
    step raises (CallSpeak text (Some cb) playbackRate) w = Some w'
    /\ invocations cb (log w') = S (invocations cb (log w))
    /\ suspendedCalls w' = suspendedCalls w
    /\ liveNodes w' = liveNodes w
    /\ isLoading w' = false
    /\ error w' = None.
Proof.
  intros Htext Hret. unfold returns in Hret.
  destruct w. destruct sourceNodeRef0 as [n|];
    hook_unfold; rewrite Htext; hook_unfold; rewrite Hret;
    (eexists; split; [reflexivity|]);
    cbn -[invocations];
    rewrite !invocations_app, invocations_one; unfold invocations; cbn;
    (split; [lia|]); repeat split; reflexivity.
Qed.

Lemma speak_synthesis_fails (w0 : world) (text : jsstring)
  (onEnd : option callback) (playbackRate : option Q) (e : thrown) :
  quiescent w0 -> isEmpty (trim text) = false ->
  exists w,
    run raises [CallSpeak text onEnd playbackRate;
                SynthesisSettled (nextId w0) (inl e)] w0 = Some w
    /\ log w = log w0
               ++ [SpeakCalled (nextId w0) onEnd;
                   SynthesisRequested (nextId w0) text]
               ++ match onEnd with
                  | Some cb => [CallbackInvoked cb]
                  | None => []
                  end
    /\ error w = Some (caughtMessage e)
    /\ quiescent w
    /\ audioQueueRef w = []
    /\ isLoading w = false
    /\ isPlaying w = false.
Proof.
  intros (Hsrc & Hlive & Hsusp) Htext. cbn [run].
  rewrite (speak_begin w0 text onEnd playbackRate Hsrc Htext).
  rewrite (synthesis_settled_failed _ (nextId w0) onEnd e)
    by (destruct w0; cbn in *; subst; reflexivity).
  eexists. split; [reflexivity|]. rewrite ?invoke_exec.
  destruct w0. cbn in *. subst. unfold quiescent.
  destruct onEnd; cbn; rewrite <- !app_assoc; repeat split; reflexivity.
Qed.

Lemma speak_decode_fails (w0 : world) (text : jsstring)
  (onEnd : option callback) (playbackRate : option Q)
  (payloads : list jsstring) (e : thrown) :
  quiescent w0 -> isEmpty (trim text) = false ->
  exists w,
    run raises [CallSpeak text onEnd playbackRate;
                SynthesisSettled (nextId w0) (inr payloads);
                DecodeSettled (nextId w0) (inl e)] w0 = Some w
    /\ log w = log w0
               ++ [SpeakCalled (nextId w0) onEnd;
                   SynthesisRequested (nextId w0) text]
               ++ match onEnd with
                  | Some cb => [CallbackInvoked cb]
                  | None => []
                  end
    /\ error w = Some (caughtMessage e)
    /\ quiescent w
    /\ audioQueueRef w = []
    /\ isLoading w = false
    /\ isPlaying w = false.
Proof.
  intros (Hsrc & Hlive & Hsusp) Htext. cbn [run].
  rewrite (speak_begin w0 text onEnd playbackRate Hsrc Htext).
  rewrite (synthesis_settled_ok _ (nextId w0) onEnd payloads)
    by (destruct w0; cbn in *; subst; reflexivity).
  rewrite (decode_settled_failed _ (nextId w0) onEnd e)
    by (destruct w0; reflexivity).
  eexists. split; [reflexivity|]. rewrite ?invoke_exec.
  destruct w0. cbn in *. subst. unfold quiescent.
  destruct onEnd; cbn; rewrite <- !app_assoc; repeat split; reflexivity.
Qed.

Lemma speak_no_buffers (w0 : world) (text : jsstring)
  (onEnd : option callback) (playbackRate : option Q)
  (payloads : list jsstring) :
  quiescent w0 -> isEmpty (trim text) = false ->
  returnsIfAny raises onEnd ->
  exists w,
    run raises (speakInputs (nextId w0) text onEnd playbackRate payloads []) w0
    = Some w
    /\ log w = log w0
               ++ [SpeakCalled (nextId w0) onEnd;
                   SynthesisRequested (nextId w0) text]
               ++ match onEnd with
                  | Some cb => [CallbackInvoked cb]
                  | None => []
                  end
    /\ error w = None
    /\ quiescent w
    /\ isLoading w = false
    /\ isPlaying w = false.
Proof.
  intros (Hsrc & Hlive & Hsusp) Htext Hret. unfold speakInputs. cbn [run].
  rewrite (speak_begin w0 text onEnd playbackRate Hsrc Htext).
  rewrite (synthesis_settled_ok _ (nextId w0) onEnd payloads)
    by (destruct w0; cbn in *; subst; reflexivity).
  rewrite (decode_settled_empty _ (nextId w0) onEnd)
    by (destruct w0; reflexivity).
  eexists. split; [reflexivity|].
  rewrite (attempt_returns _ _ Hret), invoke_exec.
  destruct w0. cbn in *. subst. unfold quiescent.
  destruct onEnd; cbn; rewrite <- !app_assoc; repeat split; reflexivity.
Qed.

(** [X13]: a [speak] call on a hook at rest invokes an [onEnd] that
    returns exactly once, whatever the outcome. Blank text (in any state
    of the hook): once, before [speak] returns, and the call leaves
    nothing suspended or playing. Success: not while fewer nodes have
    ended than there are buffers, and once when as many have; then the
    hook is at rest again. Failure of the synthesis or of the decoding:
    once, with the message caught in the error state, and the hook is at
    rest. [onEnd] has to return only where [speak] calls it inside its
    [try]: for blank text and for an empty sequence of buffers. *)
Theorem speak_fires_onEnd_once :
  (forall (w : world) (text : jsstring) (cb : callback)
          (playbackRate : option Q),
      isEmpty (trim text) = true -> returns raises cb ->
      exists w',
        step raises (CallSpeak text (Some cb) playbackRate) w = Some w'
        /\ invocations cb (log w') = S (invocations cb (log w))
        /\ suspendedCalls w' = suspendedCalls w
        /\ liveNodes w' = liveNodes w)
  /\ (forall (w0 : world) (text : jsstring) (cb : callback)
             (playbackRate : option Q) (payloads : list jsstring)
             (buffers : list AudioBuffer),
         quiescent w0 -> isEmpty (trim text) = false ->
         (forall k, k < length buffers ->
            exists w,
              run raises (speakInputs (nextId w0) text (Some cb) playbackRate
                            payloads buffers
                          ++ endings (S (nextId w0)) k) w0 = Some w
              /\ invocations cb (log w) = invocations cb (log w0))
         /\ ((buffers = [] -> returns raises cb) ->
             exists w,
               run raises (speakInputs (nextId w0) text (Some cb) playbackRate
                             payloads buffers
                           ++ endings (S (nextId w0)) (length buffers)) w0
               = Some w
               /\ invocations cb (log w) = S (invocations cb (log w0))
               /\ error w = None
               /\ quiescent w))
  /\ (forall (w0 : world) (text : jsstring) (cb : callback)
             (playbackRate : option Q) (e : thrown),
         quiescent w0 -> isEmpty (trim text) = false ->
         exists w,
           run raises [CallSpeak text (Some cb) playbackRate;
                       SynthesisSettled (nextId w0) (inl e)] w0 = Some w
           /\ invocations cb (log w) = S (invocations cb (log w0))
           /\ error w = Some (caughtMessage e)
           /\ quiescent w)
  /\ (forall (w0 : world) (text : jsstring) (cb : callback)
             (playbackRate : option Q) (payloads : list jsstring)
             (e : thrown),
         quiescent w0 -> isEmpty (trim text) = false ->
         exists w,
           run raises [CallSpeak text (Some cb) playbackRate;
                       SynthesisSettled (nextId w0) (inr payloads);
                       DecodeSettled (nextId w0) (inl e)] w0 = Some w
           /\ invocations cb (log w) = S (invocations cb (log w0))
           /\ error w = Some (caughtMessage e)
           /\ quiescent w).
Proof.
  split; [|split; [|split]].
  - intros w text cb rate Htext Hret.
    destruct (speak_blank_any w text cb rate Htext Hret)
      as (w' & Hstep & Hinv & Hsusp & Hlive & _).
    exists w'. repeat split; assumption.
  - intros w0 text cb rate payloads buffers Hq Htext. split.
    + intros k Hk. destruct buffers as [|b q]; [simpl in Hk; lia|].
      destruct (session_playing w0 text (Some cb) rate payloads b q k
                  Hq Htext ltac:(simpl in Hk; lia))
        as (w & n & Hrun & _ & _ & _ & _ & Hlog & _).
      exists w. split; [exact Hrun|].
      rewrite Hlog, !invocations_app, invocations_advanceLog.
      unfold invocations. cbn. lia.
    + intros Hret. destruct buffers as [|b q].
      * destruct (speak_no_buffers w0 text (Some cb) rate payloads Hq Htext
                    (Hret eq_refl))
          as (w & Hrun & Hlog & Herr & Hquiet & _).
        exists w. cbn [length endings seq map]. rewrite app_nil_r.
        split; [exact Hrun|]. split; [|split; assumption].
        rewrite Hlog, !invocations_app, invocations_one.
        unfold invocations. cbn. lia.
      * destruct (session_finished w0 text (Some cb) rate payloads b q
                    Hq Htext)
          as (w & Hrun & Hlog & Hquiet & _ & _ & _ & Herr).
        exists w. cbn [length]. split; [exact Hrun|].
        split; [|split; assumption].
        rewrite Hlog, !invocations_app, invocations_advanceLog.
        change (NodeFinished (S (nextId w0) + length q)
                :: [CallbackInvoked cb])
          with ([@NodeFinished AudioBuffer (S (nextId w0) + length q)]
                ++ [CallbackInvoked cb]).
        rewrite invocations_app, invocations_one.
        unfold invocations. cbn. lia.
  - intros w0 text cb rate e Hq Htext.
    destruct (speak_synthesis_fails w0 text (Some cb) rate e Hq Htext)
      as (w & Hrun & Hlog & Herr & Hquiet & _).
    exists w. split; [exact Hrun|]. split; [|split; assumption].
    rewrite Hlog, !invocations_app, invocations_one.
    unfold invocations. cbn. lia.
  - intros w0 text cb rate payloads e Hq Htext.
    destruct (speak_decode_fails w0 text (Some cb) rate payloads e Hq Htext)
      as (w & Hrun & Hlog & Herr & Hquiet & _).
    exists w. split; [exact Hrun|]. split; [|split; assumption].
    rewrite Hlog, !invocations_app, invocations_one.
    unfold invocations. cbn. lia.
Qed.

End HookFacts.

(** *** Examples on the initial state *)

Lemma initial_quiescent (AudioBuffer : Type) : quiescent (initial AudioBuffer).
Proof. repeat split; reflexivity. Qed.


Lemma stop_cancels_playback_witness :
  exists w,
    run quiet (speakInputs 0 (utf16 "Hi. Bye.") (Some 7) None [utf16 "AA=="]
                 [10; 20; 30]
               ++ endings 1 1 ++ [CallStop; NodeEnded 2]) (initial nat) = Some w
    /\ startedBuffers (log w) = [10; 20]
    /\ invocations 7 (log w) = 1.
Proof.
  destruct (proj1 (stop_cancels_playback nat quiet) (initial nat)
              (utf16 "Hi. Bye.") 7 None [utf16 "AA=="] 10 [20; 30] 1
              (initial_quiescent nat) eq_refl (le_S _ _ (le_n 1)))
    as (w & Hrun & Hstarted & Hinv & _).
  exists w. split; [exact Hrun|]. split; [exact Hstarted | exact Hinv].
Defined.

Lemma stop_defers_cleanup_witness :
  exists w,
    run quiet (speakInputs 0 (utf16 "Hi. Bye.") None None [utf16 "AA=="]
                 [10; 20; 30]
               ++ endings 1 1 ++ [CallStop]) (initial nat) = Some w
    /\ isStoppingRef w = true
    /\ audioQueueRef w = [30]
    /\ isPlaying w = true.
Proof.
  exact (proj1 (proj2 (stop_defers_cleanup nat quiet) (initial nat)
                  (utf16 "Hi. Bye.") None None [utf16 "AA=="] 10 [20; 30] 1
                  (initial_quiescent nat) eq_refl (le_S _ _ (le_n 1)))).
Defined.

Lemma speak_fires_onEnd_once_witness :
  (exists w,
      step quiet (CallSpeak (utf16 "  ") (Some 7) None) (initial nat) = Some w
      /\ invocations 7 (log w) = 1)
  /\ (exists w,
        run quiet (speakInputs 0 (utf16 "Hi.") (Some 7) None [utf16 "AA=="]
                     [10; 20]
                   ++ endings 1 2) (initial nat) = Some w
        /\ invocations 7 (log w) = 1)
  /\ (exists w,
        run quiet [CallSpeak (utf16 "Hi.") (Some 7) None;
                   SynthesisSettled 0 (inl NonError)] (initial nat) = Some w
        /\ invocations 7 (log w) = 1
        /\ error w = Some (caughtMessage NonError)).
Proof.
  split; [|split].
  - destruct (proj1 (speak_fires_onEnd_once nat quiet) (initial nat)
                (utf16 "  ") 7 None eq_refl (fun _ => eq_refl))
      as (w & Hstep & Hinv & _).
    exists w. split; [exact Hstep | exact Hinv].
  - destruct (proj2 (proj1 (proj2 (speak_fires_onEnd_once nat quiet))
                       (initial nat)
                       (utf16 "Hi.") 7 None [utf16 "AA=="] [10; 20]
                       (initial_quiescent nat) eq_refl)
                (fun _ _ => eq_refl))
      as (w & Hrun & Hinv & _).
    exists w. split; [exact Hrun | exact Hinv].
  - destruct (proj1 (proj2 (proj2 (speak_fires_onEnd_once nat quiet)))
                (initial nat)
                (utf16 "Hi.") 7 None NonError
                (initial_quiescent nat) eq_refl)
      as (w & Hrun & Hinv & Herr & _).
    exists w. split; [exact Hrun|]. split; [exact Hinv | exact Herr].
Defined.

(** ** The missing credential, end to end *)

Lemma caughtMessage_Error (message : jsstring) :
  caughtMessage (ErrorObj message) = message.
Proof. reflexivity. Qed.

Section MissingCredential.

Variable toLowerCase : jsstring -> jsstring.
Hypothesis toLowerCase_ascii :
  forall s, forallb isAscii s = true -> toLowerCase s = map asciiLower s.

Lemma missing_key_message_category :
  categoryOf (toLowerCase (utf16 "API_KEY environment variable not set"))
  = Unknown.
Proof.
  rewrite toLowerCase_ascii by (vm_compute; reflexivity).
  vm_compute. reflexivity.
Qed.

Lemma generateSpeech_missing_key (isCf : codePoint -> bool)
  (API_KEY : option jsstring)
  (generateContent : nat -> jsstring -> response) (text : jsstring) :
  falsy API_KEY = true ->
  generateSpeech toLowerCase isCf API_KEY generateContent text
  = {| requests := []; settled := inl (ErrorObj MSG_UNEXPECTED) |}.
Proof.
  intros Hkey. unfold generateSpeech, generateSpeechBody. rewrite Hkey.
  cbn [settled requests].
  rewrite handleApiError_category, missing_key_message_category.
  reflexivity.
Qed.

End MissingCredential.

(** [C6]: without [API_KEY] in the environment (or with an empty one)
    [generateSpeech] rejects without having sent a request to the remote
    model, with the message of the category [Unknown] of the taxonomy: the
    message it throws matches none of the substrings. A [speak] call on a
    hook at rest, for a text that is not blank, then puts that message in
    the error state, invokes [onEnd] once and leaves the hook at rest,
    not loading and not playing. *)
Theorem missing_credential_fails
  (toLowerCase : jsstring -> jsstring)
  (toLowerCase_ascii : forall s, forallb isAscii s = true ->
                                 toLowerCase s = map asciiLower s)
  (isCf : codePoint -> bool) (API_KEY : option jsstring)
  (generateContent : nat -> jsstring -> response) (text : jsstring) :
  falsy API_KEY = true ->
  generateSpeech toLowerCase isCf API_KEY generateContent text
  = {| requests := []; settled := inl (ErrorObj MSG_UNEXPECTED) |}
  /\ categoryOf
       (toLowerCase (utf16 "API_KEY environment variable not set"))
     = Unknown
  /\ forall (AudioBuffer : Type)
            (raises : callback -> list (event AudioBuffer) -> option thrown)
            (w0 : world AudioBuffer) (cb : callback)
            (playbackRate : option Q),
       quiescent w0 -> isEmpty (trim text) = false ->
       exists w,
         run raises [CallSpeak text (Some cb) playbackRate;
                     SynthesisSettled (nextId w0)
                       (settled (generateSpeech toLowerCase isCf API_KEY
                                   generateContent text))] w0 = Some w
         /\ error w = Some MSG_UNEXPECTED
         /\ invocations cb (log w) = S (invocations cb (log w0))
         /\ quiescent w
         /\ isLoading w = false
         /\ isPlaying w = false.
Proof.
  intros Hkey.
  pose proof (generateSpeech_missing_key toLowerCase toLowerCase_ascii
                isCf API_KEY generateContent text Hkey) as Hgen.
  split; [exact Hgen|].
  split; [exact (missing_key_message_category toLowerCase toLowerCase_ascii)|].
  intros AudioBuffer raises w0 cb rate Hq Htext. rewrite Hgen.
  change (settled {| requests := [];
                     settled := inl (ErrorObj MSG_UNEXPECTED) |})
    with (@inl thrown (list jsstring) (ErrorObj MSG_UNEXPECTED)).
  destruct (speak_synthesis_fails AudioBuffer raises w0 text (Some cb) rate
              (ErrorObj MSG_UNEXPECTED) Hq Htext)
    as (w & Hrun & Hlog & Herr & Hquiet & _ & Hload & Hplay).
  rewrite caughtMessage_Error in Herr.
  exists w. split; [exact Hrun|].
  split; [exact Herr|].
  split; [|repeat split; assumption || apply Hquiet].
  rewrite Hlog, !invocations_app, invocations_one.
  unfold invocations. cbn. lia.
Qed.

Lemma missing_credential_fails_witness :
  generateSpeech (map asciiLower) isCf_Unicode15 None
    (fun _ _ => Responds (Some (utf16 "AA=="))) (utf16 "Hello.")
  = {| requests := []; settled := inl (ErrorObj MSG_UNEXPECTED) |}
  /\ exists w,
       run quiet [CallSpeak (utf16 "Hello.") (Some 7) None;
                  SynthesisSettled 0
                    (settled
                       (generateSpeech (map asciiLower) isCf_Unicode15 None
                          (fun _ _ => Responds (Some (utf16 "AA==")))
                          (utf16 "Hello.")))] (initial nat) = Some w
       /\ error w = Some MSG_UNEXPECTED
       /\ invocations 7 (log w) = 1.
Proof.
  destruct (missing_credential_fails (map asciiLower)
              (fun s _ => eq_refl) isCf_Unicode15 None
              (fun _ _ => Responds (Some (utf16 "AA==")))
              (utf16 "Hello.") eq_refl) as (Hgen & _ & Hspeak).
  split; [exact Hgen|].
  destruct (Hspeak nat quiet (initial nat) 7 None (initial_quiescent nat)
              eq_refl)
    as (w & Hrun & Herr & Hinv & _).
  exists w. split; [exact Hrun|]. split; [exact Herr | exact Hinv].
Defined.

(* ===================================================================== *)
(** * Part III. Further properties of the code                            *)
(* ===================================================================== *)

(** ** The sanitizer on strings it has nothing to remove from *)

Lemma encodeCodePoint_pair (c d : codeUnit) :
  isHighSurrogate c = true -> isLowSurrogate d = true ->
  encodeCodePoint (0x10000 + (c - 0xD800) * 0x400 + (d - 0xDC00))%N = [c; d].
Proof.
  intros Hc Hd. bool_to_prop. unfold encodeCodePoint.
  replace (0x10000 + (c - 0xD800) * 0x400 + (d - 0xDC00) <? 0x10000)%N
    with false by (symmetry; apply N.ltb_ge; lia).
  replace (0x10000 + (c - 0xD800) * 0x400 + (d - 0xDC00) - 0x10000)%N
    with ((c - 0xD800) * 0x400 + (d - 0xDC00))%N by lia.
  rewrite <- (N.div_unique ((c - 0xD800) * 0x400 + (d - 0xDC00)) 0x400
                (c - 0xD800) (d - 0xDC00)) by lia.
  rewrite <- (N.mod_unique ((c - 0xD800) * 0x400 + (d - 0xDC00)) 0x400
                (c - 0xD800) (d - 0xDC00)) by lia.
  f_equal; [lia | f_equal; lia].
Qed.

(** Encoding the code points of a string of code units gives the string
    back, unpaired surrogates included. *)
Lemma fromCodePoints_codePoints (s : jsstring) :
  forallb isCodeUnit s = true -> fromCodePoints (codePoints s) = s.
Proof.
  unfold fromCodePoints.
  induction s as [| c | c d s IH1 IH2] using codePoints_ind; intros H.
  - reflexivity.
  - cbn [forallb] in H. rewrite andb_true_r in H.
    cbn [codePoints flat_map]. unfold encodeCodePoint.
    unfold isCodeUnit in H. rewrite H. reflexivity.
  - cbn [forallb] in H. apply andb_prop in H. destruct H as [Hc Hds].
    pose proof Hds as Hds'.
    cbn [forallb] in Hds. apply andb_prop in Hds. destruct Hds as [Hd Hs].
    destruct (isHighSurrogate c && isLowSurrogate d) eqn:Hpair.
    + apply andb_prop in Hpair. destruct Hpair as [Hhi Hlo].
      rewrite (codePoints_pair c d s Hhi Hlo). cbn [flat_map].
      rewrite (encodeCodePoint_pair c d Hhi Hlo), (IH1 Hs). reflexivity.
    + rewrite (codePoints_unpaired c d s Hpair). cbn [flat_map].
      rewrite (IH2 Hds'). unfold encodeCodePoint.
      unfold isCodeUnit in Hc. rewrite Hc. reflexivity.
Qed.

Lemma filter_all {A : Type} (f : A -> bool) (l : list A) :
  forallb f l = true -> filter f l = l.
Proof.
  induction l as [|x l IH]; [reflexivity|].
  cbn [forallb filter]. intros H. apply andb_prop in H. destruct H as [Hx Hl].
  rewrite Hx, (IH Hl). reflexivity.
Qed.

(** [X1]: a string none of whose code points is in the class of the
    pattern comes back unchanged, whatever the Cf table and also when it
    has unpaired surrogates. *)
Theorem sanitizeText_clean (isCf : codePoint -> bool) (text : jsstring) :
  forallb isCodeUnit text = true ->
  forallb (fun cp => negb (sanitizeClass isCf cp)) (codePoints text) = true ->
  sanitizeText isCf text = text.
Proof.
  intros Hunits Hclean. unfold sanitizeText.
  rewrite (filter_all _ _ Hclean). apply fromCodePoints_codePoints, Hunits.
Qed.

Lemma sanitizeText_clean_witness :
  sanitizeText isCf_Unicode15 (utf16 "Hi" ++ [0xD83D; 0xDE00; 0xDC00; 0x0A]%N)
  = utf16 "Hi" ++ [0xD83D; 0xDE00; 0xDC00; 0x0A]%N.
Proof.
  apply (sanitizeText_clean isCf_Unicode15); vm_compute; reflexivity.
Defined.

Lemma encodeCodePoint_units (cp : codePoint) :
  isScalarValue cp = true -> forallb isCodeUnit (encodeCodePoint cp) = true.
Proof.
  intros Hcp. unfold encodeCodePoint.
  destruct (cp <? 0x10000)%N eqn:Hbmp.
  - cbn [forallb]. unfold isCodeUnit. rewrite Hbmp. reflexivity.
  - bool_to_prop.
    pose proof (N.mod_lt (cp - 0x10000) 0x400 ltac:(lia)) as Hr.
    assert (Hq : ((cp - 0x10000) / 0x400 < 0x400)%N)
      by (apply N.Div0.div_lt_upper_bound; lia).
    set (q := ((cp - 0x10000) / 0x400)%N) in *.
    set (r := ((cp - 0x10000) mod 0x400)%N) in *.
    clearbody q r.
    cbn [forallb]. rewrite andb_true_r.
    apply andb_true_intro. split; apply N.ltb_lt; lia.
Qed.

Lemma fromCodePoints_units (cps : list codePoint) :
  forallb isScalarValue cps = true ->
  forallb isCodeUnit (fromCodePoints cps) = true.
Proof.
  unfold fromCodePoints.
  induction cps as [|cp cps IH]; [reflexivity|].
  intros H. cbn [forallb] in H. apply andb_prop in H.
  destruct H as [Hcp Hcps].
  change (flat_map encodeCodePoint (cp :: cps))
    with (encodeCodePoint cp ++ flat_map encodeCodePoint cps).
  rewrite forallb_app. apply andb_true_intro.
  split; [apply encodeCodePoint_units, Hcp | apply IH, Hcps].
Qed.

Lemma forallb_filter {A : Type} (p f : A -> bool) (l : list A) :
  forallb p l = true -> forallb p (filter f l) = true.
Proof.
  rewrite !forallb_forall. intros H x Hx. apply filter_In in Hx. apply H, Hx.
Qed.

Lemma filter_idempotent {A : Type} (f : A -> bool) (l : list A) :
  filter f (filter f l) = filter f l.
Proof.
  apply filter_all. rewrite forallb_forall. intros x Hx.
  apply filter_In in Hx. apply Hx.
Qed.

(** [X2]: on a well-formed string the sanitizer gives a well-formed string,
    and sanitizing that again changes nothing. *)
Theorem sanitizeText_idempotent (isCf : codePoint -> bool) (text : jsstring) :
  isWellFormed text = true ->
  isWellFormed (sanitizeText isCf text) = true
  /\ sanitizeText isCf (sanitizeText isCf text) = sanitizeText isCf text.
Proof.
  intros Hwf.
  pose proof (sanitizeText_codePoints isCf text Hwf) as Hcps.
  pose proof (isWellFormed_scalar text Hwf) as Hscalar.
  split.
  - unfold isWellFormed. apply andb_true_intro. split.
    + unfold sanitizeText. apply fromCodePoints_units, forallb_filter, Hscalar.
    + rewrite Hcps. apply forallb_filter.
      rewrite forallb_forall in *. intros cp Hin.
      specialize (Hscalar cp Hin). unfold isScalarValue in Hscalar.
      apply andb_prop in Hscalar. apply Hscalar.
  - unfold sanitizeText at 1. rewrite Hcps, filter_idempotent. reflexivity.
Qed.

Lemma sanitizeText_idempotent_witness :
  sanitizeText isCf_Unicode15
    (sanitizeText isCf_Unicode15 (utf16 "a" ++ [0x200C; 0x62; 0x07]%N))
  = sanitizeText isCf_Unicode15 (utf16 "a" ++ [0x200C; 0x62; 0x07]%N).
Proof.
  exact (proj2 (sanitizeText_idempotent isCf_Unicode15
                  (utf16 "a" ++ [0x200C; 0x62; 0x07]%N) eq_refl)).
Defined.

(** The sanitizer never makes a string of code units longer. *)
Lemma flat_map_filter_length (f : codePoint -> bool) (cps : list codePoint) :
  length (flat_map encodeCodePoint (filter f cps))
  <= length (flat_map encodeCodePoint cps).
Proof.
  induction cps as [|cp cps IH]; [apply le_n|].
  cbn [filter flat_map]. destruct (f cp); cbn [flat_map];
    rewrite ?length_app; lia.
Qed.

Lemma sanitizeText_length (isCf : codePoint -> bool) (text : jsstring) :
  forallb isCodeUnit text = true ->
  length (sanitizeText isCf text) <= length text.
Proof.
  intros Hunits. unfold sanitizeText, fromCodePoints.
  etransitivity; [apply flat_map_filter_length|].
  pose proof (fromCodePoints_codePoints text Hunits) as E.
  unfold fromCodePoints in E. rewrite E. apply le_n.
Qed.

(** ** The sentence units *)

Lemma dropWhile_suffix (p : codeUnit -> bool) (s : jsstring) :
  exists pre, s = pre ++ dropWhile p s.
Proof.
  destruct (dropWhile_split p s) as [pre [E _]]. exists pre. exact E.
Qed.

Lemma firstn_prefix (pre rest : jsstring) :
  firstn (length (pre ++ rest) - length rest) (pre ++ rest) = pre.
Proof.
  rewrite length_app, Nat.add_sub.
  rewrite firstn_app, Nat.sub_diag, firstn_all. cbn [firstn].
  apply app_nil_r.
Qed.

Lemma afterUnit_suffix (c : codeUnit) (s' : jsstring) :
  exists pre, c :: s' = (c :: pre) ++ afterUnit s'.
Proof.
  unfold afterUnit.
  destruct (dropWhile_suffix notTerminator s') as [p1 E1].
  destruct (dropWhile_suffix terminatorOrSpace (dropWhile notTerminator s'))
    as [p2 E2].
  exists (p1 ++ p2). cbn [app]. f_equal. rewrite <- app_assoc, <- E2. exact E1.
Qed.

Lemma afterUnit_length (s' : jsstring) : length (afterUnit s') <= length s'.
Proof.
  unfold afterUnit.
  etransitivity; [apply dropWhile_length | apply dropWhile_length].
Qed.

Lemma afterUnit_head (s' : jsstring) :
  dropWhile isTerminator (afterUnit s') = afterUnit s'.
Proof.
  unfold afterUnit.
  destruct (dropWhile terminatorOrSpace (dropWhile notTerminator s'))
    as [|d r] eqn:E; [reflexivity|].
  apply dropWhile_head in E. unfold terminatorOrSpace in E.
  apply orb_false_iff in E. destruct E as [E _].
  cbn [dropWhile]. rewrite E. reflexivity.
Qed.

Lemma unit_matched (c : codeUnit) (s' : jsstring) :
  exists pre,
    firstn (length (c :: s') - length (afterUnit s')) (c :: s') = c :: pre
    /\ c :: s' = (c :: pre) ++ afterUnit s'.
Proof.
  destruct (afterUnit_suffix c s') as [pre E]. exists pre.
  split; [|exact E].
  rewrite E. apply (firstn_prefix (c :: pre) (afterUnit s')).
Qed.

(** One round of the global match at a string that is not empty. *)
Lemma matchAllFrom_step (fuel : nat) (c : codeUnit) (s' : jsstring) :
  matchAllFrom (S fuel) sentencePattern (c :: s')
  = if notTerminator c
    then firstn (length (c :: s') - length (afterUnit s')) (c :: s')
         :: matchAllFrom fuel sentencePattern (afterUnit s')
    else matchAllFrom fuel sentencePattern s'.
Proof.
  cbn [matchAllFrom]. rewrite matchHere_sentence. fold (afterUnit s').
  destruct (notTerminator c); [|reflexivity].
  destruct (unit_matched c s') as [pre [Hm _]]. rewrite Hm. reflexivity.
Qed.

Lemma matchAllFrom_nil (fuel : nat) :
  matchAllFrom fuel sentencePattern [] = [].
Proof. destruct fuel; [reflexivity|]. cbn [matchAllFrom]. reflexivity. Qed.

(** The units are cut from the text after its leading terminators, and
    nothing between them is left out; the bound on the rounds of the
    global match is never reached. *)
Lemma matchAllFrom_concat (fuel : nat) :
  forall s : jsstring,
    length s < fuel ->
    concat (matchAllFrom fuel sentencePattern s) = dropWhile isTerminator s.
Proof.
  induction fuel as [|fuel IH]; intros s Hlen; [lia|].
  destruct s as [|c s']; [reflexivity|].
  rewrite matchAllFrom_step. cbn [dropWhile].
  unfold notTerminator. destruct (isTerminator c) eqn:Hc; cbn [negb].
  - apply IH. simpl in Hlen. lia.
  - cbn [concat]. rewrite IH
      by (pose proof (afterUnit_length s'); simpl in Hlen; lia).
    rewrite afterUnit_head.
    destruct (unit_matched c s') as [pre [Hm E]].
    rewrite Hm. symmetry. exact E.
Qed.

Lemma matchAllFrom_units (fuel : nat) :
  forall s : jsstring,
    Forall (fun u => exists c u', u = c :: u' /\ isTerminator c = false)
      (matchAllFrom fuel sentencePattern s).
Proof.
  induction fuel as [|fuel IH]; intros s; [constructor|].
  destruct s as [|c s']; [rewrite matchAllFrom_nil; constructor|].
  rewrite matchAllFrom_step.
  unfold notTerminator. destruct (isTerminator c) eqn:Hc; cbn [negb].
  - apply IH.
  - constructor; [|apply IH].
    destruct (unit_matched c s') as [pre [Hm _]]. rewrite Hm.
    exists c, pre. split; [reflexivity | exact Hc].
Qed.

Lemma matchAllFrom_fuel (fuel : nat) :
  forall (fuel' : nat) (s : jsstring),
    length s < fuel -> length s < fuel' ->
    matchAllFrom fuel sentencePattern s = matchAllFrom fuel' sentencePattern s.
Proof.
  induction fuel as [|fuel IH]; intros fuel' s Hf Hf'; [lia|].
  destruct fuel' as [|fuel']; [lia|].
  destruct s as [|c s']; [reflexivity|].
  rewrite !matchAllFrom_step. simpl in Hf, Hf'.
  pose proof (afterUnit_length s').
  destruct (notTerminator c); [f_equal|]; apply IH; lia.
Qed.

(** [X3]: the units the sentence pattern cuts out of a text, put together
    again, are the text after its leading terminators; each unit starts
    with a character that is not a terminator; and allowing the global
    match more rounds than the text has code units changes nothing. *)
Theorem sentence_units_partition (s : jsstring) :
  concat (matchAll sentencePattern s) = dropWhile isTerminator s
  /\ Forall (fun u => exists c u', u = c :: u' /\ isTerminator c = false)
       (matchAll sentencePattern s)
  /\ forall fuel, length s < fuel ->
                  matchAllFrom fuel sentencePattern s
                  = matchAll sentencePattern s.
Proof.
  unfold matchAll. split; [|split].
  - apply matchAllFrom_concat. lia.
  - apply matchAllFrom_units.
  - intros fuel Hf. apply matchAllFrom_fuel; lia.
Qed.

(** ** What the chunks hold *)

Lemma nonWhitespace_app (s t : jsstring) :
  nonWhitespace (s ++ t) = nonWhitespace s ++ nonWhitespace t.
Proof. apply filter_app. Qed.

Lemma nonWhitespace_spaces (s : jsstring) :
  forallb isWhiteSpace s = true -> nonWhitespace s = [].
Proof.
  induction s as [|c s IH]; [reflexivity|].
  cbn [forallb]. intros H. apply andb_prop in H. destruct H as [Hc Hs].
  unfold nonWhitespace in *. cbn [filter]. rewrite Hc. cbn [negb].
  apply IH, Hs.
Qed.

Lemma nonWhitespace_trim (s : jsstring) :
  nonWhitespace (trim s) = nonWhitespace s.
Proof.
  unfold trim, trimStart.
  destruct (dropWhile_split isWhiteSpace s) as [pre [E1 Hpre]].
  destruct (trimEnd_prefix (dropWhile isWhiteSpace s)) as [suf [E2 Hsuf]].
  rewrite E1 at 2. rewrite E2 at 2.
  rewrite !nonWhitespace_app, (nonWhitespace_spaces _ Hpre),
    (nonWhitespace_spaces _ Hsuf), app_nil_r.
  reflexivity.
Qed.

Lemma nonWhitespace_pushTrimmed (chunks : list jsstring) (cur : jsstring) :
  nonWhitespace (concat (pushTrimmed chunks cur))
  = nonWhitespace (concat chunks) ++ nonWhitespace cur.
Proof.
  unfold pushTrimmed. rewrite <- (nonWhitespace_trim cur).
  destruct (trim cur) as [|c t]; cbn [isEmpty].
  - cbn. rewrite app_nil_r. reflexivity.
  - rewrite concat_app, nonWhitespace_app. cbn [concat].
    rewrite app_nil_r. reflexivity.
Qed.

Lemma chunkStep_content (maxLen : nat) (st : list jsstring * jsstring)
  (sentence : jsstring) :
  0 < maxLen ->
  contentOf (chunkStep maxLen st sentence)
  = contentOf st ++ nonWhitespace sentence.
Proof.
  intros Hpos. destruct st as [chunks cur]. unfold chunkStep, contentOf.
  rewrite <- (nonWhitespace_trim sentence).
  destruct (trim sentence) as [|c t] eqn:E; cbn [isEmpty].
  - cbn [fst snd]. cbn. rewrite app_nil_r. reflexivity.
  - destruct (maxLen <? length (c :: t)).
    + cbn [fst snd]. rewrite concat_app, nonWhitespace_app,
        nonWhitespace_pushTrimmed, (forceSplit_concat Hpos).
      cbn. rewrite app_nil_r. reflexivity.
    + destruct (maxLen <? length cur + length (c :: t) + 1); cbn [fst snd].
      * rewrite nonWhitespace_pushTrimmed, nonWhitespace_app.
        cbn. rewrite app_nil_r, <- app_assoc. reflexivity.
      * rewrite !nonWhitespace_app. cbn. rewrite app_nil_r, <- !app_assoc.
        reflexivity.
Qed.

Lemma fold_chunkStep_content (maxLen : nat) (sentences : list jsstring) :
  0 < maxLen ->
  forall st : list jsstring * jsstring,
    contentOf (fold_left (chunkStep maxLen) sentences st)
    = contentOf st ++ nonWhitespace (concat sentences).
Proof.
  intros Hpos. induction sentences as [|u us IH]; intros st.
  - cbn. rewrite app_nil_r. reflexivity.
  - cbn [fold_left concat]. rewrite IH, (chunkStep_content _ _ _ Hpos),
      nonWhitespace_app, <- app_assoc. reflexivity.
Qed.

Lemma chunkTextAt_content (maxLen : nat) (text : jsstring) :
  0 < maxLen ->
  nonWhitespace (concat (chunkTextAt maxLen text))
  = if length (trim text) <=? maxLen
    then nonWhitespace text
    else nonWhitespace (dropWhile isTerminator (trim text)).
Proof.
  intros Hpos. unfold chunkTextAt.
  destruct (trim text) as [|c t] eqn:E.
  - cbn [isEmpty length Nat.leb]. rewrite <- (nonWhitespace_trim text), E.
    reflexivity.
  - cbn [isEmpty]. destruct (length (c :: t) <=? maxLen).
    + cbn [concat]. rewrite app_nil_r, <- E. apply nonWhitespace_trim.
    + pose proof (fold_chunkStep_content maxLen
                    (matchAll sentencePattern (c :: t)) Hpos ([], [])) as H.
      destruct (fold_left (chunkStep maxLen)
                  (matchAll sentencePattern (c :: t)) ([], []))
        as [chunks cur] eqn:Efold.
      rewrite nonWhitespace_pushTrimmed.
      unfold contentOf in H. cbn [fst snd] in H.
      rewrite H. cbn [concat nonWhitespace filter app].
      unfold matchAll. rewrite matchAllFrom_concat by apply Nat.lt_succ_diag_r.
      reflexivity.
Qed.

(** [X4]: the characters of the chunks that are not white space, in order,
    are those of the text when its trimmed form has at most
    [MAX_TEXT_LENGTH] code units, and otherwise those of the trimmed text
    after the terminators it begins with. In particular nothing but white
    space is lost, added or moved when the trimmed text does not begin
    with a terminator. *)
Theorem chunkText_content (text : jsstring) :
  nonWhitespace (concat (chunkText text))
  = (if length (trim text) <=? MAX_TEXT_LENGTH
     then nonWhitespace text
     else nonWhitespace (dropWhile isTerminator (trim text)))
  /\ (dropWhile isTerminator (trim text) = trim text ->
      nonWhitespace (concat (chunkText text)) = nonWhitespace text).
Proof.
  assert (Hpos : 0 < MAX_TEXT_LENGTH) by apply Nat.lt_0_succ.
  pose proof (chunkTextAt_content MAX_TEXT_LENGTH text Hpos) as H.
  fold (chunkText text) in H. split; [exact H|].
  intros Hhead. rewrite H, Hhead, nonWhitespace_trim.
  destruct (length (trim text) <=? MAX_TEXT_LENGTH); reflexivity.
Qed.

Lemma chunkText_content_witness :
  nonWhitespace
    (concat (chunkText (repeat 0x61%N MAX_TEXT_LENGTH ++ utf16 ". b c? d")))
  = nonWhitespace (repeat 0x61%N MAX_TEXT_LENGTH ++ utf16 ". b c? d").
Proof.
  apply (proj2 (chunkText_content
                  (repeat 0x61%N MAX_TEXT_LENGTH ++ utf16 ". b c? d"))).
  vm_compute. reflexivity.
Defined.

Lemma sentence_units_partition_witness :
  matchAllFrom 40 sentencePattern (utf16 "?Hi. Yo! ok")
  = matchAll sentencePattern (utf16 "?Hi. Yo! ok").
Proof.
  apply (proj2 (proj2 (sentence_units_partition (utf16 "?Hi. Yo! ok")))).
  vm_compute. repeat constructor.
Defined.

(** ** Where the code units of the chunks come from *)

Section Units.

Variable P : codeUnit -> Prop.

Lemma Forall_dropWhile (p : codeUnit -> bool) (s : jsstring) :
  Forall P s -> Forall P (dropWhile p s).
Proof.
  intros H. destruct (dropWhile_suffix p s) as [pre E].
  rewrite E in H. apply Forall_app in H. apply H.
Qed.

Lemma Forall_trimEnd (s : jsstring) : Forall P s -> Forall P (trimEnd s).
Proof.
  intros H. destruct (trimEnd_prefix s) as [suf [E _]].
  rewrite E in H. apply Forall_app in H. apply H.
Qed.

Lemma Forall_trim (s : jsstring) : Forall P s -> Forall P (trim s).
Proof.
  intros H. unfold trim, trimStart. apply Forall_trimEnd, Forall_dropWhile, H.
Qed.

Lemma Forall_firstn (n : nat) (s : jsstring) :
  Forall P s -> Forall P (firstn n s).
Proof.
  intros H. rewrite <- (firstn_skipn n s) in H.
  apply Forall_app in H. apply H.
Qed.

Lemma Forall_skipn (n : nat) (s : jsstring) :
  Forall P s -> Forall P (skipn n s).
Proof.
  intros H. rewrite <- (firstn_skipn n s) in H.
  apply Forall_app in H. apply H.
Qed.

Lemma matchAllFrom_Forall (fuel : nat) :
  forall s : jsstring,
    Forall P s -> Forall (Forall P) (matchAllFrom fuel sentencePattern s).
Proof.
  induction fuel as [|fuel IH]; intros s Hs; [constructor|].
  destruct s as [|c s']; [rewrite matchAllFrom_nil; constructor|].
  rewrite matchAllFrom_step. destruct (notTerminator c).
  - constructor; [apply Forall_firstn, Hs|].
    apply IH. unfold afterUnit. apply Forall_dropWhile, Forall_dropWhile.
    inversion Hs; assumption.
  - apply IH. inversion Hs; assumption.
Qed.

Lemma sliceLoop_Forall (fuel maxLen : nat) (s : jsstring) (i : nat) :
  Forall P s -> Forall (Forall P) (sliceLoop fuel maxLen s i).
Proof.
  intros Hs. revert i. induction fuel as [|fuel IH]; intros i; [constructor|].
  cbn [sliceLoop]. destruct (i <? length s); [|constructor].
  constructor; [|apply IH].
  unfold substring. apply Forall_firstn, Forall_skipn, Hs.
Qed.

Hypothesis P_space : P 0x20%N.

Lemma pushTrimmed_Forall (chunks : list jsstring) (cur : jsstring) :
  Forall (Forall P) chunks -> Forall P cur ->
  Forall (Forall P) (pushTrimmed chunks cur).
Proof.
  intros Hc Hcur. unfold pushTrimmed.
  destruct (isEmpty (trim cur)); [exact Hc|].
  apply Forall_app. split; [exact Hc|].
  constructor; [apply Forall_trim, Hcur | constructor].
Qed.

Lemma chunkStep_Forall (maxLen : nat) (st : list jsstring * jsstring)
  (sentence : jsstring) :
  Forall P sentence ->
  Forall (Forall P) (fst st) /\ Forall P (snd st) ->
  Forall (Forall P) (fst (chunkStep maxLen st sentence))
  /\ Forall P (snd (chunkStep maxLen st sentence)).
Proof.
  intros Hu [Hc Hcur]. destruct st as [chunks cur]. cbn [fst snd] in *.
  assert (Hspace : Forall P SPACE) by (constructor; [exact P_space | constructor]).
  pose proof (Forall_trim sentence Hu) as Htu.
  unfold chunkStep.
  destruct (isEmpty (trim sentence)); [split; assumption|].
  destruct (maxLen <? length (trim sentence)); cbn [fst snd].
  - split; [|constructor].
    apply Forall_app. split; [apply pushTrimmed_Forall; assumption|].
    apply sliceLoop_Forall, Htu.
  - destruct (maxLen <? length cur + length (trim sentence) + 1);
      cbn [fst snd].
    + split; [apply pushTrimmed_Forall; assumption|].
      apply Forall_app. split; assumption.
    + split; [exact Hc|]. apply Forall_app. split; [exact Hcur|].
      apply Forall_app. split; assumption.
Qed.

Lemma chunkTextAt_Forall (maxLen : nat) (text : jsstring) :
  Forall P text -> Forall (Forall P) (chunkTextAt maxLen text).
Proof.
  intros Htext. pose proof (Forall_trim text Htext) as Ht.
  unfold chunkTextAt.
  destruct (isEmpty (trim text)); [constructor|].
  destruct (length (trim text) <=? maxLen);
    [constructor; [exact Ht | constructor]|].
  assert (H : forall l st,
             Forall (Forall P) l ->
             Forall (Forall P) (fst st) /\ Forall P (snd st) ->
             Forall (Forall P) (fst (fold_left (chunkStep maxLen) l st))
             /\ Forall P (snd (fold_left (chunkStep maxLen) l st))).
  { induction l as [|u us IH]; intros st Hl Hst; [exact Hst|].
    cbn [fold_left]. inversion Hl; subst.
    apply IH; [assumption|]. apply chunkStep_Forall; assumption. }
  specialize (H (matchAll sentencePattern (trim text)) ([], [])
                (matchAllFrom_Forall _ _ Ht)
                (conj (Forall_nil _) (Forall_nil _))).
  destruct (fold_left (chunkStep maxLen)
              (matchAll sentencePattern (trim text)) ([], []))
    as [chunks cur] eqn:Efold.
  pose proof (f_equal fst Efold) as Hf. pose proof (f_equal snd Efold) as Hs.
  cbn [fst snd] in Hf, Hs. rewrite <- Hf, <- Hs.
  apply pushTrimmed_Forall; apply H.
Qed.

End Units.

(** [X5]: every chunk has at least one and at most [MAX_TEXT_LENGTH] code
    units, and each of them is a code unit of the text or a space. *)
Theorem chunkText_chunks (text : jsstring) :
  Forall (fun chunk =>
            1 <= length chunk <= MAX_TEXT_LENGTH
            /\ Forall (fun c => In c text \/ c = 0x20%N) chunk)
    (chunkText text).
Proof.
  pose proof (chunkText_bounds text) as [Hb _].
  pose proof (chunkTextAt_Forall (fun c => In c text \/ c = 0x20%N)
                (or_intror eq_refl) MAX_TEXT_LENGTH text) as Hu.
  fold (chunkText text) in Hu.
  assert (Htext : Forall (fun c => In c text \/ c = 0x20%N) text)
    by (apply Forall_forall; intros c Hc; left; exact Hc).
  specialize (Hu Htext).
  rewrite Forall_forall in *. intros chunk Hin.
  destruct (Hb chunk Hin) as [Hlen Hne].
  split; [|exact (Hu chunk Hin)].
  split; [|exact Hlen].
  destruct chunk; [contradiction|]. cbn [length]. lia.
Qed.

(** ** The requests of [generateSpeech] *)

Section Requests.

Variable toLowerCase : jsstring -> jsstring.
Variable isCf : codePoint -> bool.
Variable API_KEY : option jsstring.
Variable generateContent : nat -> jsstring -> response.

(** The requests the loop has to send for the chunks [textChunks]. *)
Let pending (textChunks : list jsstring) : list jsstring :=
  filter (fun s => negb (isEmpty s))
    (map (fun chunk => trim (sanitizeText isCf chunk)) textChunks).

(** The loop sends a prefix of the requests it has to send. *)
Lemma synthesizeChunks_prefix (textChunks : list jsstring) :
  forall sent audioChunks,
  exists rest,
    sent ++ pending textChunks
    = requests (synthesizeChunks isCf generateContent textChunks
                  sent audioChunks) ++ rest.
Proof.
  induction textChunks as [|chunk chunks IH]; intros sent audio.
  - exists []. reflexivity.
  - cbn [synthesizeChunks]. unfold pending. cbn [map filter].
    fold (pending chunks).
    destruct (isEmpty (trim (sanitizeText isCf chunk))); cbn [negb].
    + apply IH.
    + destruct (generateContent (length sent)
                  (trim (sanitizeText isCf chunk))) as [e|d].
      * exists (pending chunks). cbn [requests].
        rewrite <- app_assoc. reflexivity.
      * destruct (falsy d);
          [destruct (IH (sent ++ [trim (sanitizeText isCf chunk)]) audio)
            as [rest E]
          |destruct (IH (sent ++ [trim (sanitizeText isCf chunk)])
                      (audio ++ [match d with Some x => x | None => [] end]))
            as [rest E]];
          exists rest; rewrite <- E, <- app_assoc; reflexivity.
Qed.

(** When no request is rejected the loop sends them all and collects the
    payloads of the answers in order. *)
Lemma synthesizeChunks_answered (textChunks : list jsstring) :
  forall sent audioChunks,
    (forall k req, nth_error (pending textChunks) k = Some req ->
                   exists d, generateContent (length sent + k) req
                             = Responds d) ->
    synthesizeChunks isCf generateContent textChunks sent audioChunks
    = {| requests := sent ++ pending textChunks;
         settled := inr (audioChunks
                         ++ payloadsFrom generateContent (length sent)
                              (pending textChunks)) |}.
Proof.
  induction textChunks as [|chunk chunks IH]; intros sent audio Hans.
  - cbn. rewrite !app_nil_r. reflexivity.
  - cbn [synthesizeChunks]. unfold pending in *. cbn [map filter] in *.
    fold (pending chunks) in *.
    destruct (isEmpty (trim (sanitizeText isCf chunk))); cbn [negb] in *.
    + apply IH, Hans.
    + destruct (Hans 0 _ eq_refl) as [d Hd]. rewrite Nat.add_0_r in Hd.
      assert (Hans' : forall k req,
                 nth_error (pending chunks) k = Some req ->
                 exists d', generateContent
                              (length (sent ++ [trim (sanitizeText isCf chunk)])
                               + k) req = Responds d').
      { intros k req Hk. rewrite length_app. cbn [length].
        replace (length sent + 1 + k) with (length sent + S k) by lia.
        apply Hans. exact Hk. }
      rewrite Hd. cbn [payloadsFrom]. unfold payloadOf. rewrite Hd.
      destruct d as [x|]; cbn [falsy].
      * destruct (isEmpty x); rewrite (IH _ _ Hans'), length_app;
          cbn [length]; rewrite Nat.add_1_r, <- !app_assoc; reflexivity.
      * rewrite (IH _ _ Hans'), length_app.
        cbn [length]. rewrite Nat.add_1_r, <- !app_assoc. reflexivity.
Qed.

Lemma generateSpeech_requests_prefix (text : jsstring) :
  falsy API_KEY = false ->
  exists rest,
    requestTexts isCf text
    = requests (generateSpeech toLowerCase isCf API_KEY generateContent
                  text) ++ rest.
Proof.
  intros Hkey.
  assert (Hreq : requests (generateSpeech toLowerCase isCf API_KEY
                             generateContent text)
                 = requests (generateSpeechBody isCf API_KEY
                               generateContent text)).
  { unfold generateSpeech.
    destruct (settled (generateSpeechBody isCf API_KEY generateContent text));
      reflexivity. }
  rewrite Hreq. unfold generateSpeechBody. rewrite Hkey.
  destruct (length (chunkText text) =? 0) eqn:Hlen.
  - exists []. apply Nat.eqb_eq in Hlen. unfold requestTexts.
    destruct (chunkText text); [reflexivity | discriminate].
  - destruct (synthesizeChunks_prefix (chunkText text) [] []) as [rest E].
    exists rest. exact E.
Qed.

(** [X6]: with a key, [generateSpeech] sends, in the order of the chunks,
    a prefix of the sanitized and trimmed chunks that are not empty; when
    the remote model rejects none of them it sends them all and resolves
    to the audio data of the answers that have some, in that order. *)
Theorem generateSpeech_requests (text : jsstring) :
  falsy API_KEY = false ->
  (exists rest,
      requestTexts isCf text
      = requests (generateSpeech toLowerCase isCf API_KEY generateContent
                    text) ++ rest)
  /\ ((forall k req, nth_error (requestTexts isCf text) k = Some req ->
                     exists d, generateContent k req = Responds d) ->
      generateSpeech toLowerCase isCf API_KEY generateContent text
      = {| requests := requestTexts isCf text;
           settled := inr (payloadsFrom generateContent 0
                             (requestTexts isCf text)) |}).
Proof.
  intros Hkey. split; [apply generateSpeech_requests_prefix, Hkey|].
  intros Hans. unfold generateSpeech, generateSpeechBody. rewrite Hkey.
  destruct (length (chunkText text) =? 0) eqn:Hlen.
  - cbn [settled]. apply Nat.eqb_eq in Hlen. unfold requestTexts.
    destruct (chunkText text); [reflexivity | discriminate].
  - rewrite (synthesizeChunks_answered (chunkText text) [] [] Hans).
    reflexivity.
Qed.

(** [X7]: every text sent to the remote model has at least one and at most
    [MAX_TEXT_LENGTH] code units and neither starts nor ends with white
    space, when the text given is a string of code units. *)
Theorem generateSpeech_requests_within_limit (text : jsstring) :
  forallb isCodeUnit text = true ->
  Forall (fun req => 1 <= length req <= MAX_TEXT_LENGTH /\ trim req = req)
    (requests (generateSpeech toLowerCase isCf API_KEY generateContent text)).
Proof.
  intros Hunits.
  assert (Hall : Forall (fun req => 1 <= length req <= MAX_TEXT_LENGTH
                                    /\ trim req = req)
                   (requestTexts isCf text)).
  { unfold requestTexts. apply Forall_forall. intros req Hin.
    apply filter_In in Hin. destruct Hin as [Hin Hne].
    apply in_map_iff in Hin. destruct Hin as [chunk [<- Hchunk]].
    pose proof (proj1 (chunkText_bounds text)) as Hc.
    rewrite Forall_forall in Hc. destruct (Hc chunk Hchunk) as [Hlen _].
    pose proof (chunkTextAt_Forall (fun c => isCodeUnit c = true)
                  eq_refl MAX_TEXT_LENGTH text
                  (proj2 (Forall_forall _ _)
                     (proj1 (forallb_forall _ _) Hunits))) as Hu.
    fold (chunkText text) in Hu. rewrite Forall_forall in Hu.
    assert (Hcu : forallb isCodeUnit chunk = true).
    { apply forallb_forall. apply Forall_forall. exact (Hu chunk Hchunk). }
    split; [split|].
    - destruct (trim (sanitizeText isCf chunk)); [discriminate|].
      cbn [length]. lia.
    - etransitivity; [apply trim_length|].
      etransitivity; [apply (sanitizeText_length isCf chunk Hcu) | exact Hlen].
    - apply trim_idempotent. }
  destruct (falsy API_KEY) eqn:Hkey.
  - unfold generateSpeech, generateSpeechBody. rewrite Hkey. constructor.
  - destruct (generateSpeech_requests_prefix text Hkey) as [rest E].
    rewrite E in Hall. apply Forall_app in Hall. apply Hall.
Qed.

Lemma handleApiError_messages (e : thrown) :
  In (handleApiError toLowerCase e) API_MESSAGES.
Proof.
  destruct e as [message|]; [|cbn [handleApiError]; left; reflexivity].
  rewrite handleApiError_category. unfold API_MESSAGES.
  destruct (categoryOf (toLowerCase message)); cbn [categoryMessage];
    [do 1 right | do 2 right | do 3 right | do 4 right | do 5 right];
    left; reflexivity.
Qed.

(** [X8]: whatever is thrown while it runs, [generateSpeech] rejects with
    an [Error] whose message is one of the six fixed messages; a [speak]
    call on a hook at rest whose synthesis fails so ends with that very
    message in its error state, neither loading nor playing, whatever
    [onEnd] does. *)
Theorem generateSpeech_error_messages (text : jsstring) (e : thrown) :
  settled (generateSpeech toLowerCase isCf API_KEY generateContent text)
  = inl e ->
  exists message,
    e = ErrorObj message
    /\ In message API_MESSAGES
    /\ forall (AudioBuffer : Type)
              (raises : callback -> list (event AudioBuffer) -> option thrown)
              (w0 : world AudioBuffer)
              (onEnd : option callback) (playbackRate : option Q),
         quiescent w0 -> isEmpty (trim text) = false ->
         exists w,
           run raises [CallSpeak text onEnd playbackRate;
                       SynthesisSettled (nextId w0)
                         (settled (generateSpeech toLowerCase isCf API_KEY
                                     generateContent text))] w0 = Some w
           /\ error w = Some message
           /\ isLoading w = false
           /\ isPlaying w = false.
Proof.
  intros Hs.
  assert (He : exists message, e = ErrorObj message /\ In message API_MESSAGES).
  { unfold generateSpeech in Hs.
    destruct (settled (generateSpeechBody isCf API_KEY generateContent text))
      as [e'|audio] eqn:Hbody.
    - cbn [settled] in Hs. injection Hs as <-.
      exists (handleApiError toLowerCase e').
      split; [reflexivity | apply handleApiError_messages].
    - rewrite Hbody in Hs. discriminate. }
  destruct He as [message [-> Hin]].
  exists message. split; [reflexivity|]. split; [exact Hin|].
  intros AudioBuffer raises w0 onEnd rate Hq Htext. rewrite Hs.
  destruct (speak_synthesis_fails AudioBuffer raises w0 text onEnd rate
              (ErrorObj message) Hq Htext)
    as (w & Hrun & _ & Herr & _ & _ & Hload & Hplay).
  exists w. split; [exact Hrun|]. split; [exact Herr|].
  split; assumption.
Qed.

End Requests.

Lemma generateSpeech_requests_witness :
  generateSpeech (map asciiLower) isCf_Unicode15 (Some (utf16 "k"))
    (fun n _ => if n =? 0 then Responds (Some (utf16 "QQ=="))
                else Responds None)
    (repeat 0x61%N (MAX_TEXT_LENGTH - 1) ++ utf16 ". Next one.")
  = {| requests := [repeat 0x61%N (MAX_TEXT_LENGTH - 1) ++ utf16 ".";
                   utf16 "Next one."];
       settled := inr [utf16 "QQ=="] |}.
Proof.
  rewrite (proj2 (generateSpeech_requests (map asciiLower) isCf_Unicode15
                    (Some (utf16 "k"))
                    (fun n _ => if n =? 0 then Responds (Some (utf16 "QQ=="))
                                else Responds None)
                    (repeat 0x61%N (MAX_TEXT_LENGTH - 1) ++ utf16 ". Next one.")
                    eq_refl)).
  - vm_compute. reflexivity.
  - intros k req _. destruct (k =? 0); eexists; reflexivity.
Defined.

Lemma generateSpeech_requests_within_limit_witness :
  Forall (fun req => 1 <= length req <= MAX_TEXT_LENGTH /\ trim req = req)
    (requests
       (generateSpeech (map asciiLower) isCf_Unicode15 (Some (utf16 "k"))
          (fun _ _ => Responds None)
          (repeat 0x61%N (S MAX_TEXT_LENGTH)))).
Proof.
  apply generateSpeech_requests_within_limit. vm_compute. reflexivity.
Defined.

Lemma generateSpeech_error_messages_witness :
  exists message,
    In message API_MESSAGES
    /\ exists w,
         run quiet [CallSpeak (utf16 "Hello.") None None;
                    SynthesisSettled 0
                      (settled
                         (generateSpeech (map asciiLower) isCf_Unicode15 None
                            (fun _ _ => Responds None) (utf16 "Hello.")))]
           (initial nat) = Some w
         /\ error w = Some message.
Proof.
  destruct (generateSpeech_error_messages (map asciiLower) isCf_Unicode15
              None (fun _ _ => Responds None) (utf16 "Hello.")
              (ErrorObj MSG_UNEXPECTED)
              (f_equal (@settled)
                 (generateSpeech_missing_key (map asciiLower)
                    (fun s _ => eq_refl) isCf_Unicode15 None
                    (fun _ _ => Responds None) (utf16 "Hello.")
                    eq_refl)))
    as (message & _ & Hin & Hspeak).
  exists message. split; [exact Hin|].
  destruct (Hspeak nat quiet (initial nat) None None (initial_quiescent nat)
              eq_refl)
    as (w & Hrun & Herr & _).
  exists w. split; [exact Hrun | exact Herr].
Defined.

(** ** Every [speak] call is answered, whatever happens in between *)

Ltac hook_unfold :=
  unfold step, exec, speak, speakAfterSynthesis, speakAfterDecode,
    speakCatch, speakFinally, suspend, stop, playNextInQueue, onended,
    start, invoke, tryCatch, tryFinally, bind, ret, throw, gets, modify;
  cbn -[trim isEmpty Nat.eqb].

Section Conservation.

Variable AudioBuffer : Type.

Let world := Hook.world AudioBuffer.
Let sourceNode := Hook.sourceNode AudioBuffer.
Let event := Hook.event AudioBuffer.

Variable raises : callback -> list event -> option thrown.

Lemma takeCall_spec (id : nat) (at_ : awaiting) (l : list suspended) :
  forall c rest,
    takeCall id at_ l = Some (c, rest) ->
    speak_at c = at_
    /\ In c l
    /\ (forall cb, owedByCalls cb l
                   = (if owes cb (speak_onEnd c) then 1 else 0)
                     + owedByCalls cb rest)
    /\ (forall P : suspended -> Prop, Forall P l -> Forall P rest).
Proof.
  induction l as [|x l IH]; intros c rest H; [discriminate|].
  cbn [takeCall] in H.
  destruct ((speak_id x =? id) && awaiting_eqb (speak_at x) at_) eqn:Hx.
  - injection H as <- <-. apply andb_prop in Hx. destruct Hx as [_ Hat].
    split; [destruct (speak_at x), at_; cbn in Hat; congruence|].
    split; [left; reflexivity|]. split.
    + intros cb. unfold owedByCalls. cbn [filter].
      destruct (owes cb (speak_onEnd x)); reflexivity.
    + intros P HP. inversion HP; assumption.
  - destruct (takeCall id at_ l) as [[d l'']|] eqn:E; [|discriminate].
    injection H as <- <-.
    destruct (IH d l'' eq_refl) as (Hat & Hin & Hcount & HP).
    split; [exact Hat|]. split; [right; exact Hin|]. split.
    + intros cb. unfold owedByCalls in *. cbn [filter].
      specialize (Hcount cb).
      destruct (owes cb (speak_onEnd x)); cbn [length]; lia.
    + intros P HPl. inversion HPl; subst. constructor; [assumption|].
      apply HP. assumption.
Qed.

Lemma takeNode_spec (id : nat) (l : list sourceNode) :
  forall n rest,
    takeNode id l = Some (n, rest) ->
    forall cb, owedByNodes cb l
               = (if owes cb (node_onEnd n) then 1 else 0)
                 + owedByNodes cb rest.
Proof.
  induction l as [|x l IH]; intros n rest H cb; [discriminate|].
  cbn [takeNode] in H. destruct (node_id x =? id).
  - injection H as <- <-. unfold owedByNodes. cbn [filter].
    destruct (owes cb (node_onEnd x)); reflexivity.
  - destruct (takeNode id l) as [[m l'']|] eqn:E; [|discriminate].
    injection H as <- <-. specialize (IH m l'' eq_refl cb).
    unfold owedByNodes in *. cbn [filter].
    destruct (owes cb (node_onEnd x)); cbn [length]; lia.
Qed.

(** The cases of what the callbacks called in a turn do. *)
Ltac raise_cases :=
  repeat match goal with
         | |- context [raises ?c ?history] =>
             let E := fresh "Hraise" in destruct (raises c history) eqn:E
         end.

(** Counting in a log or a list that has grown at its end. *)
Ltac count :=
  unfold balanced, neverLost, atMostTwice, invocations, speakCalls,
    owedByCalls, owedByNodes in *;
  cbn [log suspendedCalls liveNodes emit setIsLoading setIsPlaying setError
       setAudioContextRef setSourceNodeRef setAudioQueueRef setIsStoppingRef
       setPlaybackRateRef setLiveNodes setSuspendedCalls setNextId] in *;
  rewrite ?filter_app, ?length_app in *;
  cbn [filter isInvocation isSpeakCall owes speak_onEnd node_onEnd mkCall
       mkNode length] in *;
  repeat match goal with
    | Hne : ?a <> ?b |- _ =>
        rewrite ?(proj2 (Nat.eqb_neq a b) Hne) in *; clear Hne
    end;
  repeat match goal with
    | |- context [Nat.eqb ?a ?b] => destruct (Nat.eqb a b)
    | |- context [owes ?a ?b] => destruct (owes a b)
    end;
  cbn [length] in *; lia.

(** A callback that returns has not thrown. *)
Ltac returned cb Hret :=
  repeat match goal with
    | H : raises ?c _ = Some _ |- _ =>
        destruct (Nat.eqb_spec c cb) as [->|?];
        [rewrite Hret in H; discriminate | clear H]
    end.

(** The three parts of [accounted], after a turn. *)
Ltac accounts_for cb :=
  let Hb := fresh "Hb" in
  let Hl := fresh "Hl" in
  let Ht := fresh "Ht" in
  let Hret := fresh "Hret" in
  intros (Hb & Hl & Ht);
  split; [intros Hret; specialize (Hb Hret); clear Hl Ht;
          unfold returns in Hret; returned cb Hret; count
         |clear Hb; split; [clear Ht | clear Hl]; count].

Ltac accounts := let cb := fresh "cb" in intros cb; accounts_for cb.

Ltac accounts_with Hcount :=
  let cb := fresh "cb" in
  intros cb; specialize (Hcount cb); accounts_for cb.

Ltac ready :=
  unfold contextReady in *;
  cbn [audioContextRef audioQueueRef suspendedCalls emit setIsLoading
       setIsPlaying setError setAudioContextRef setSourceNodeRef
       setAudioQueueRef setIsStoppingRef setPlaybackRateRef setLiveNodes
       setSuspendedCalls setNextId] in *.

Lemma speak_preserves (w : world) (text : jsstring)
  (onEnd : option callback) (playbackRate : option Q) :
  contextReady w ->
  contextReady (exec (speak raises text onEnd playbackRate) w)
  /\ forall cb, accounted raises cb w ->
                accounted raises cb
                  (exec (speak raises text onEnd playbackRate) w).
Proof.
  intros Hready. destruct w.
  destruct sourceNodeRef0 as [n|]; destruct (isEmpty (trim text)) eqn:Htext;
    hook_unfold; rewrite Htext; destruct onEnd as [cb'|]; cbn;
    raise_cases; cbn;
    (split;
     [ready; destruct Hready as [H|[H1 H2]];
       [left; exact H
       |right; split; [assumption || reflexivity|];
        try (apply Forall_app; split; [exact H2|]);
        repeat constructor; assumption]
     |accounts]).
Qed.

Lemma stop_preserves (w : world) :
  contextReady w ->
  contextReady (exec (@stop AudioBuffer) w)
  /\ forall cb, accounted raises cb w ->
                accounted raises cb (exec (@stop AudioBuffer) w).
Proof.
  intros Hready. destruct w. destruct sourceNodeRef0 as [n|]; hook_unfold;
    (split;
     [ready; destruct Hready as [H|[H1 H2]];
       [left; exact H | right; split; [assumption || reflexivity | exact H2]]
     |accounts]).
Qed.

Lemma synthesis_preserves (w : world) (id : nat) (c : suspended)
  (rest : list suspended) (r : thrown + list jsstring) :
  takeCall id AwaitSynthesis (suspendedCalls w) = Some (c, rest) ->
  contextReady w ->
  contextReady (exec (speakAfterSynthesis raises id (speak_onEnd c) r)
                  (setSuspendedCalls rest w))
  /\ forall cb, accounted raises cb w ->
                accounted raises cb
                  (exec (speakAfterSynthesis raises id (speak_onEnd c) r)
                     (setSuspendedCalls rest w)).
Proof.
  intros Htake Hready.
  destruct (takeCall_spec id AwaitSynthesis _ c rest Htake)
    as (Hat & Hin & Hcount & HP).
  destruct w. cbn [suspendedCalls] in *.
  destruct r as [e|payloads]; hook_unfold.
  - destruct (speak_onEnd c) as [cb'|] eqn:Hc; cbn; raise_cases; cbn;
      (split;
       [ready; destruct Hready as [H|[H1 H2]];
         [left; exact H | right; split; [reflexivity | apply HP, H2]]
       |accounts_with Hcount]).
  - split; [ready; left; reflexivity|]. accounts_with Hcount.
Qed.

Lemma decode_preserves (w : world) (id : nat) (c : suspended)
  (rest : list suspended) (r : thrown + list AudioBuffer) :
  takeCall id AwaitDecode (suspendedCalls w) = Some (c, rest) ->
  contextReady w ->
  contextReady (exec (speakAfterDecode raises (speak_onEnd c) r)
                  (setSuspendedCalls rest w))
  /\ forall cb, accounted raises cb w ->
                accounted raises cb
                  (exec (speakAfterDecode raises (speak_onEnd c) r)
                     (setSuspendedCalls rest w)).
Proof.
  intros Htake Hready.
  destruct (takeCall_spec id AwaitDecode _ c rest Htake)
    as (Hat & Hin & Hcount & HP).
  assert (Hctx : audioContextRef w = true).
  { destruct Hready as [H|[_ H]]; [exact H|].
    rewrite Forall_forall in H. specialize (H c Hin). congruence. }
  destruct w. cbn [suspendedCalls audioContextRef] in *. subst.
  destruct r as [e|[|b q]]; [| |destruct isStoppingRef0];
    hook_unfold; destruct (speak_onEnd c) as [cb'|] eqn:Hc; cbn;
    raise_cases; cbn;
    (split; [ready; left; reflexivity | accounts_with Hcount]).
Qed.

Lemma ended_preserves (w : world) (id : nat) (n : sourceNode)
  (rest : list sourceNode) :
  takeNode id (liveNodes w) = Some (n, rest) ->
  contextReady w ->
  contextReady (exec (bind (modify (emit (NodeFinished id)))
                        (fun _ => onended raises n))
                  (setLiveNodes rest w))
  /\ forall cb, accounted raises cb w ->
                accounted raises cb
                  (exec (bind (modify (emit (NodeFinished id)))
                           (fun _ => onended raises n))
                     (setLiveNodes rest w)).
Proof.
  intros Htake Hready.
  pose proof (takeNode_spec id _ n rest Htake) as Hcount.
  destruct w. cbn [liveNodes] in *.
  assert (Hctx : isStoppingRef0 = false -> audioQueueRef0 <> [] ->
                 audioContextRef0 = true).
  { intros _ Hq. destruct Hready as [H|[H _]]; [exact H | contradiction]. }
  destruct isStoppingRef0.
  - hook_unfold; destruct (node_onEnd n) as [cb'|] eqn:Hn; cbn;
      raise_cases; cbn;
      (split;
       [ready; destruct Hready as [H|[H1 H2]];
         [left; exact H | right; split; [reflexivity | exact H2]]
       |accounts_with Hcount]).
  - destruct audioQueueRef0 as [|b q].
    + hook_unfold; destruct (node_onEnd n) as [cb'|] eqn:Hn; cbn;
        raise_cases; cbn;
        (split;
         [ready; destruct Hready as [H|[H1 H2]];
           [left; exact H | right; split; [reflexivity | exact H2]]
         |accounts_with Hcount]).
    + rewrite (Hctx eq_refl ltac:(discriminate)) in *.
      hook_unfold; destruct (node_onEnd n) as [cb'|] eqn:Hn; cbn;
        (split; [ready; left; reflexivity | accounts_with Hcount]).
Qed.

Lemma step_preserves (i : input AudioBuffer) (w w' : world) :
  step raises i w = Some w' ->
  contextReady w ->
  contextReady w' /\ forall cb, accounted raises cb w ->
                                accounted raises cb w'.
Proof.
  intros Hstep Hready. destruct i as [text onEnd rate| |id r|id r|id];
    cbn [step] in Hstep.
  - injection Hstep as <-. apply speak_preserves, Hready.
  - injection Hstep as <-. apply stop_preserves, Hready.
  - destruct (takeCall id AwaitSynthesis (suspendedCalls w))
      as [[c rest]|] eqn:E; [|discriminate].
    injection Hstep as <-. apply (synthesis_preserves w id c rest r E Hready).
  - destruct (takeCall id AwaitDecode (suspendedCalls w))
      as [[c rest]|] eqn:E; [|discriminate].
    injection Hstep as <-. apply (decode_preserves w id c rest r E Hready).
  - destruct (takeNode id (liveNodes w)) as [[n rest]|] eqn:E; [|discriminate].
    injection Hstep as <-. apply (ended_preserves w id n rest E Hready).
Qed.

Lemma run_preserves (inputs : list (input AudioBuffer)) :
  forall w w' : world,
    run raises inputs w = Some w' ->
    contextReady w ->
    contextReady w' /\ forall cb, accounted raises cb w ->
                                  accounted raises cb w'.
Proof.
  induction inputs as [|i inputs IH]; intros w w' Hrun Hready.
  - injection Hrun as <-. split; [exact Hready | intros cb H; exact H].
  - cbn [run] in Hrun.
    destruct (step raises i w) as [w1|] eqn:Hstep; [|discriminate].
    destruct (step_preserves i w w1 Hstep Hready) as [Hready1 Hb1].
    destruct (IH w1 w' Hrun Hready1) as [Hready' Hb'].
    split; [exact Hready'|]. intros cb Hb. apply Hb', Hb1, Hb.
Qed.

(** [X9]: whatever is done to the hook from its initial state on, in any
    order ([speak] and [stop] calls, promises settling, nodes ending), and
    whatever the callbacks do, no [speak] call is dropped and none has its
    [onEnd] invoked more than twice: the invocations of a callback, the
    suspended [speak] calls and the playing nodes that hold it are at
    least the [speak] calls made with it, and the invocations are at most
    twice these calls. For a callback that returns whenever it is called
    they add up to the calls exactly: it is never invoked more often than
    [speak] was called with it, and once for each call when no call is
    suspended and no node plays. *)
Theorem onEnd_conservation (inputs : list (input AudioBuffer)) (w : world)
  (cb : callback) :
  run raises inputs (initial AudioBuffer) = Some w ->
  speakCalls cb (log w)
  <= invocations cb (log w) + owedByCalls cb (suspendedCalls w)
     + owedByNodes cb (liveNodes w)
  /\ invocations cb (log w) <= 2 * speakCalls cb (log w)
  /\ (returns raises cb ->
      invocations cb (log w) + owedByCalls cb (suspendedCalls w)
      + owedByNodes cb (liveNodes w)
      = speakCalls cb (log w)
      /\ invocations cb (log w) <= speakCalls cb (log w)
      /\ (suspendedCalls w = [] -> liveNodes w = [] ->
          invocations cb (log w) = speakCalls cb (log w))).
Proof.
  intros Hrun.
  assert (Hready : contextReady (initial AudioBuffer))
    by (right; split; [reflexivity | constructor]).
  destruct (run_preserves inputs _ w Hrun Hready) as [_ Hacc].
  destruct (Hacc cb) as (Hb & Hl & Ht).
  { split; [intros _; reflexivity|]. split; cbv; lia. }
  unfold balanced, neverLost, atMostTwice in *.
  split; [exact Hl|]. split; [lia|].
  intros Hret. specialize (Hb Hret).
  split; [exact Hb|]. split; [lia|].
  intros Hs Hl'. rewrite Hs, Hl' in Hb. cbn in Hb. lia.
Qed.

End Conservation.

Lemma onEnd_conservation_witness :
  let raises : callback -> list (event nat) -> option thrown :=
    fun cb _ => if cb =? 8 then Some NonError else None in
  exists w,
    run raises [CallSpeak (utf16 "One.") (Some 7) None;
                SynthesisSettled 0 (inr [utf16 "AA=="]);
                DecodeSettled 0 (inr [10; 20]);
                CallSpeak (utf16 " ") (Some 8) None;
                NodeEnded 1;
                CallSpeak (utf16 "Two.") (Some 7) None;
                SynthesisSettled 3 (inl NonError)] (initial nat) = Some w
    /\ invocations 7 (log w) = speakCalls 7 (log w)
    /\ invocations 8 (log w) <= 2 * speakCalls 8 (log w).
Proof.
  intros raises.
  assert (Hrun : exists w,
             run raises [CallSpeak (utf16 "One.") (Some 7) None;
                         SynthesisSettled 0 (inr [utf16 "AA=="]);
                         DecodeSettled 0 (inr [10; 20]);
                         CallSpeak (utf16 " ") (Some 8) None;
                         NodeEnded 1;
                         CallSpeak (utf16 "Two.") (Some 7) None;
                         SynthesisSettled 3 (inl NonError)] (initial nat)
             = Some w
             /\ suspendedCalls w = [] /\ liveNodes w = [])
    by (eexists; vm_compute; repeat split; reflexivity).
  destruct Hrun as (w & E & Hs & Hl). exists w. split; [exact E|]. split.
  - exact (proj2 (proj2 (proj2 (proj2 (onEnd_conservation nat raises _ w 7 E))
                           (fun _ => eq_refl))) Hs Hl).
  - exact (proj1 (proj2 (onEnd_conservation nat raises _ w 8 E))).
Defined.

(** ** Calls that overlap a session *)

Section Overlap.

Variable AudioBuffer : Type.

Let world := Hook.world AudioBuffer.
Let sourceNode := Hook.sourceNode AudioBuffer.
Let event := Hook.event AudioBuffer.

Variable raises : callback -> list event -> option thrown.

Ltac raise_cases :=
  repeat match goal with
         | |- context [raises ?c ?history] =>
             let E := fresh "Hraise" in destruct (raises c history) eqn:E
         end.

Lemma skipn_cons (q : list AudioBuffer) (k : nat) :
  k < length q ->
  exists b rest,
    skipn k q = b :: rest
    /\ nth_error q k = Some b
    /\ firstn (S k) q = firstn k q ++ [b].
Proof.
  revert k. induction q as [|x q IH]; intros k Hk; [simpl in Hk; lia|].
  destruct k as [|k].
  - exists x, q. repeat split; reflexivity.
  - destruct (IH k ltac:(simpl in Hk; lia)) as (b & rest & E1 & E2 & E3).
    exists b, rest. split; [exact E1|]. split; [exact E2|].
    cbn [firstn app] in *. rewrite E3. reflexivity.
Qed.

(** [speak] called while the node [n] plays: the node is asked to stop,
    and the stopping flag is back to [false] before [speak] suspends. *)
Lemma speak_begin_active (w : world) (n : sourceNode) (text : jsstring)
  (onEnd : option callback) (playbackRate : option Q) :
  sourceNodeRef w = Some n -> isEmpty (trim text) = false ->
  step raises (CallSpeak text onEnd playbackRate) w
  = Some (setSuspendedCalls
            (suspendedCalls w
             ++ [mkCall (nextId w) onEnd AwaitSynthesis])
            (emit (SynthesisRequested (nextId w) text)
               (setPlaybackRateRef (rateOf playbackRate)
                  (setError None
                     (setIsLoading true
                        (setIsStoppingRef false
                           (emit (NodeStopRequested (node_id n))
                              (emit (SpeakCalled (nextId w) onEnd)
                                 (setNextId (S (nextId w)) w))))))))).
Proof.
  destruct w. cbn [sourceNodeRef]. intros -> Htext.
  hook_unfold. rewrite Htext. reflexivity.
Qed.

Lemma ended_starts_next (w : world) (n : sourceNode) (b : AudioBuffer)
  (q : list AudioBuffer) :
  liveNodes w = [n] -> isStoppingRef w = false ->
  audioContextRef w = true -> audioQueueRef w = b :: q ->
  let n' := mkNode (nextId w) b (playbackRateRef w) (node_onEnd n) in
  step raises (NodeEnded (node_id n)) w
  = Some (emit (NodeStarted n')
            (setLiveNodes [n']
               (setSourceNodeRef (Some n')
                  (setNextId (S (nextId w))
                     (setAudioQueueRef q
                        (emit (NodeFinished (node_id n)) w)))))).
Proof.
  destruct w. cbn [liveNodes isStoppingRef audioContextRef audioQueueRef].
  intros -> -> -> ->. hook_unfold. rewrite Nat.eqb_refl. reflexivity.
Qed.

(** [X10]: a [speak] call made while a session plays does not end that
    session. [speak] sets the stopping flag and resets it before the
    [ended] event of the node it has stopped can be handled, so that the
    handler finds the flag down and the old queue in place and starts the
    next buffer of the old session, with the old [onEnd] and at the rate
    of the new call. *)
Theorem speak_does_not_halt_playback (w0 : world) (text text' : jsstring)
  (onEnd onEnd' : option callback) (playbackRate playbackRate' : option Q)
  (payloads : list jsstring) (b : AudioBuffer) (q : list AudioBuffer)
  (k : nat) :
  quiescent w0 -> isEmpty (trim text) = false ->
  isEmpty (trim text') = false -> k < length q ->
  exists w n',
    run raises (speakInputs (nextId w0) text onEnd playbackRate payloads
                  (b :: q)
                ++ endings (S (nextId w0)) k
                ++ [CallSpeak text' onEnd' playbackRate';
                    NodeEnded (S (nextId w0) + k)]) w0 = Some w
    /\ isStoppingRef w = false
    /\ sourceNodeRef w = Some n'
    /\ liveNodes w = [n']
    /\ nth_error (b :: q) (S k) = Some (node_buffer n')
    /\ node_onEnd n' = onEnd
    /\ node_rate n' = rateOf playbackRate'
    /\ startedBuffers (log w)
       = startedBuffers (log w0) ++ firstn (S (S k)) (b :: q).
Proof.
  intros Hq Htext Htext' Hk.
  destruct (session_playing AudioBuffer raises w0 text onEnd playbackRate
              payloads
              b q k Hq Htext (Nat.lt_le_incl _ _ Hk))
    as (w1 & n & Hrun & Hp & Hid & Hbuf & Hend & Hlog & F1 & F2 & F3 & F4).
  destruct Hp as (Hstop & Hctx & Hsrc & Hlive & Hqueue & Hnext & Hrate).
  destruct (skipn_cons q k Hk) as (b2 & rest & Eskip & Enth & Efirst).
  pose proof (speak_begin_active w1 n text' onEnd' playbackRate' Hsrc Htext')
    as Hspeak.
  set (w2 := setSuspendedCalls _ _) in Hspeak.
  assert (Hstep2 : step raises (NodeEnded (node_id n)) w2 = Some
            (let n' := mkNode (nextId w2) b2 (playbackRateRef w2)
                         (node_onEnd n) in
             emit (NodeStarted n')
               (setLiveNodes [n']
                  (setSourceNodeRef (Some n')
                     (setNextId (S (nextId w2))
                        (setAudioQueueRef rest
                           (emit (NodeFinished (node_id n)) w2))))))).
  { rewrite Eskip in Hqueue.
    apply ended_starts_next; subst w2; destruct w1;
      cbn in Hlive, Hctx, Hqueue |- *; assumption || reflexivity. }
  change [@CallSpeak AudioBuffer text' onEnd' playbackRate';
          NodeEnded (S (nextId w0) + k)]
    with ([@CallSpeak AudioBuffer text' onEnd' playbackRate']
          ++ [NodeEnded (S (nextId w0) + k)]).
  rewrite !app_assoc, run_app, run_app, Hrun.
  cbn [run]. rewrite Hspeak. rewrite <- Hid, Hstep2.
  eexists. eexists. split; [reflexivity|]. cbv zeta.
  split; [subst w2; destruct w1; reflexivity|].
  split; [reflexivity|].
  split; [reflexivity|].
  split; [exact Enth|].
  split; [exact Hend|].
  split; [subst w2; destruct w1; reflexivity|].
  change (firstn (S (S k)) (b :: q)) with (b :: firstn (S k) q).
  rewrite Efirst.
  subst w2. destruct w1. cbn [log] in Hlog. cbn -[firstn]. rewrite Hlog.
  rewrite !startedBuffers_app. cbn -[firstn].
  rewrite startedBuffers_advanceLog, ?app_nil_r, <- app_assoc.
  reflexivity.
Qed.

(** *** [stop] while [speak] is suspended *)

Lemma stop_step_idle (w : world) :
  sourceNodeRef w = None ->
  step raises CallStop w
  = Some (setIsPlaying false (setAudioQueueRef [] (setIsStoppingRef true w))).
Proof.
  intros H. cbn [step]. unfold exec.
  rewrite (stop_idle AudioBuffer w H). reflexivity.
Qed.

Lemma decode_settled_stopping (w : world) (id : nat)
  (onEnd : option callback) (buffers : list AudioBuffer) :
  suspendedCalls w = [mkCall id onEnd AwaitDecode] ->
  isStoppingRef w = true -> sourceNodeRef w = None -> isPlaying w = false ->
  exists w',
    step raises (DecodeSettled id (inr buffers)) w = Some w'
    /\ log w' = log w ++ attempted raises onEnd (log w)
    /\ audioQueueRef w' = []
    /\ suspendedCalls w' = []
    /\ liveNodes w' = liveNodes w
    /\ sourceNodeRef w' = None
    /\ isPlaying w' = false
    /\ isLoading w' = false
    /\ isStoppingRef w' = true.
Proof.
  destruct w. cbn [suspendedCalls isStoppingRef sourceNodeRef isPlaying].
  intros -> -> -> ->.
  destruct buffers as [|b q]; hook_unfold; rewrite Nat.eqb_refl;
    unfold attempted; destruct onEnd; cbn; raise_cases; cbn;
    (eexists; split; [reflexivity|]); cbn;
    rewrite <- ?app_assoc, ?app_nil_r; repeat split; reflexivity.
Qed.

(** [X11]: a [stop] that comes while [speak] awaits the synthesis or the
    decoding cancels the playback before it starts: when the buffers
    arrive none is started, the queue is empty and the hook is at rest,
    neither loading nor playing. [onEnd] is then called inside the [try]
    of [speak]: once when it returns, and a second time, from the [catch]
    clause, when it throws. *)
Theorem stop_while_loading (w0 : world) (text : jsstring)
  (onEnd : option callback) (playbackRate : option Q)
  (payloads : list jsstring) (buffers : list AudioBuffer) :
  quiescent w0 -> isEmpty (trim text) = false ->
  let called := [SpeakCalled (nextId w0) onEnd;
                 SynthesisRequested (nextId w0) text] in
  (exists w,
      run raises [CallSpeak text onEnd playbackRate;
                  CallStop;
                  SynthesisSettled (nextId w0) (inr payloads);
                  DecodeSettled (nextId w0) (inr buffers)] w0 = Some w
      /\ log w = log w0 ++ called
                 ++ attempted raises onEnd (log w0 ++ called)
      /\ startedBuffers (log w) = startedBuffers (log w0)
      /\ quiescent w
      /\ audioQueueRef w = []
      /\ isPlaying w = false
      /\ isLoading w = false)
  /\ (exists w,
        run raises [CallSpeak text onEnd playbackRate;
                    SynthesisSettled (nextId w0) (inr payloads);
                    CallStop;
                    DecodeSettled (nextId w0) (inr buffers)] w0 = Some w
        /\ log w = log w0 ++ called
                   ++ attempted raises onEnd (log w0 ++ called)
        /\ startedBuffers (log w) = startedBuffers (log w0)
        /\ quiescent w
        /\ audioQueueRef w = []
        /\ isPlaying w = false
        /\ isLoading w = false)
  /\ (returnsIfAny raises onEnd ->
      attempted raises onEnd (log w0 ++ called)
      = match onEnd with
        | Some cb => [CallbackInvoked cb]
        | None => []
        end).
Proof.
  intros (Hsrc & Hlive & Hsusp) Htext called.
  pose proof (speak_begin AudioBuffer raises w0 text onEnd playbackRate
                Hsrc Htext) as Hbegin.
  set (w1 := setSuspendedCalls _ _) in Hbegin.
  assert (Hsrc1 : sourceNodeRef w1 = None)
    by (subst w1; destruct w0; exact Hsrc).
  assert (Hlog1 : log w1 = log w0 ++ called)
    by (subst w1 called; destruct w0; cbn; rewrite <- app_assoc;
        reflexivity).
  assert (Hquiet : forall l : list event,
             startedBuffers (log w0 ++ called ++ attempted raises onEnd l)
             = startedBuffers (log w0)).
  { intros l. rewrite !startedBuffers_app. unfold attempted.
    destruct onEnd as [cb|]; [destruct (raises cb l)|]; cbn;
      rewrite app_nil_r; reflexivity. }
  split; [|split].
  - cbn [run]. rewrite Hbegin, (stop_step_idle w1 Hsrc1).
    rewrite (synthesis_settled_ok AudioBuffer raises _ (nextId w0) onEnd
               payloads)
      by (subst w1; destruct w0; cbn in *; subst; reflexivity).
    set (w2 := setSuspendedCalls _ (setAudioContextRef _ _)).
    assert (Hlog2 : log w2 = log w0 ++ called)
      by (subst w2 w1 called; destruct w0; cbn; rewrite <- app_assoc;
          reflexivity).
    destruct (decode_settled_stopping w2 (nextId w0) onEnd buffers)
      as (w & Hstep & Hlog & Hqueue & Hsusp' & Hlive' & Hsrc' & Hplay
          & Hload & _);
      try (subst w2 w1; destruct w0; cbn in Hsrc, Hsusp |- *; subst;
           reflexivity).
    rewrite Hlog2, <- app_assoc in Hlog.
    exists w. split; [rewrite Hstep; reflexivity|].
    split; [exact Hlog|]. split; [rewrite Hlog; apply Hquiet|].
    split; [|repeat split; assumption].
    unfold quiescent. rewrite Hsrc', Hsusp', Hlive'.
    repeat split. subst w2 w1. destruct w0. exact Hlive.
  - cbn [run]. rewrite Hbegin.
    rewrite (synthesis_settled_ok AudioBuffer raises _ (nextId w0) onEnd
               payloads)
      by (subst w1; destruct w0; cbn in *; subst; reflexivity).
    rewrite stop_step_idle by (subst w1; destruct w0; exact Hsrc).
    set (w2 := setIsPlaying _ (setAudioQueueRef _ _)).
    assert (Hlog2 : log w2 = log w0 ++ called)
      by (subst w2 w1 called; destruct w0; cbn; rewrite <- app_assoc;
          reflexivity).
    destruct (decode_settled_stopping w2 (nextId w0) onEnd buffers)
      as (w & Hstep & Hlog & Hqueue & Hsusp' & Hlive' & Hsrc' & Hplay
          & Hload & _);
      try (subst w2 w1; destruct w0; cbn in Hsrc, Hsusp |- *; subst;
           reflexivity).
    rewrite Hlog2, <- app_assoc in Hlog.
    exists w. split; [rewrite Hstep; reflexivity|].
    split; [exact Hlog|]. split; [rewrite Hlog; apply Hquiet|].
    split; [|repeat split; assumption].
    unfold quiescent. rewrite Hsrc', Hsusp', Hlive'.
    repeat split. subst w2 w1. destruct w0. exact Hlive.
  - intros Hret. unfold attempted.
    destruct onEnd as [cb|]; [|reflexivity].
    cbn [returnsIfAny] in Hret. rewrite Hret. reflexivity.
Qed.

End Overlap.

(** *** [speak] while an earlier call is suspended *)

Section Pending.

Variable AudioBuffer : Type.

Let world := Hook.world AudioBuffer.

Variable raises : callback -> list (Hook.event AudioBuffer) -> option thrown.




End Pending.

Lemma speak_does_not_halt_playback_witness :
  exists w n',
    run quiet (speakInputs 0 (utf16 "Hi. Bye.") (Some 7) None [utf16 "AA=="]
                 [10; 20; 30]
               ++ endings 1 0
               ++ [CallSpeak (utf16 "Next.") (Some 8) None; NodeEnded 1])
      (initial nat) = Some w
    /\ liveNodes w = [n']
    /\ node_onEnd n' = Some 7
    /\ startedBuffers (log w) = [10; 20].
Proof.
  destruct (speak_does_not_halt_playback nat quiet (initial nat)
              (utf16 "Hi. Bye.") (utf16 "Next.") (Some 7) (Some 8) None None
              [utf16 "AA=="] 10 [20; 30] 0
              (initial_quiescent nat) eq_refl eq_refl
              (le_S _ _ (le_n 1)))
    as (w & n' & Hrun & _ & _ & Hlive & _ & Hend & _ & Hstarted).
  exists w, n'. repeat split; assumption.
Defined.

Lemma stop_while_loading_witness :
  exists w,
    run quiet [CallSpeak (utf16 "Hi. Bye.") (Some 7) None;
               CallStop;
               SynthesisSettled 0 (inr [utf16 "AA=="]);
               DecodeSettled 0 (inr [10; 20])] (initial nat) = Some w
    /\ startedBuffers (log w) = []
    /\ isPlaying w = false.
Proof.
  destruct (proj1 (stop_while_loading nat quiet (initial nat)
                     (utf16 "Hi. Bye.") (Some 7) None [utf16 "AA=="]
                     [10; 20] (initial_quiescent nat) eq_refl))
    as (w & Hrun & _ & Hstarted & _ & _ & Hplay & _).
  exists w. repeat split; assumption.
Defined.


(** ** [onEnd] called inside the [try] of [speak] *)

Section Attempts.

Variable AudioBuffer : Type.

Let world := Hook.world AudioBuffer.
Let event := Hook.event AudioBuffer.

Variable raises : callback -> list event -> option thrown.

Ltac same_throw Hr :=
  match goal with
  | H1 : Some _ = Some _, H2 : raises _ _ = Some _ |- _ =>
      injection H1 as <-; rewrite Hr in H2;
      first [discriminate | injection H2 as <-; reflexivity]
  end.

(** What the [try] of [speak] leaves when it calls [onEnd]. *)
Lemma attempt_fields (onEnd : option callback) (w : world) :
  let w' := exec (tryCatch (invoke raises onEnd) (speakCatch raises onEnd)) w
  in
  log w' = log w ++ attempted raises onEnd (log w)
  /\ sourceNodeRef w' = sourceNodeRef w
  /\ liveNodes w' = liveNodes w
  /\ suspendedCalls w' = suspendedCalls w
  /\ (forall cb e, onEnd = Some cb -> raises cb (log w) = Some e ->
                   error w' = Some (caughtMessage e)
                   /\ isPlaying w' = false
                   /\ audioQueueRef w' = []).
Proof.
  unfold attempted, caughtMessage. destruct w.
  destruct onEnd as [cb|];
    unfold exec, tryCatch, invoke, speakCatch, bind, gets, modify, throw, ret;
    cbn.
  - destruct (raises cb log0) as [e|] eqn:Hr; cbn.
    + destruct (raises cb (log0 ++ [CallbackInvoked cb])); cbn;
        rewrite <- ?app_assoc; repeat split; try reflexivity; same_throw Hr.
    + repeat split; try reflexivity; same_throw Hr.
  - rewrite app_nil_r. repeat split; try reflexivity; discriminate.
Qed.

(** [X14]: [speak] calls [onEnd] inside its [try] when the text is blank
    and when the decoding gives no buffer. On a hook at rest the log then
    grows by the call and by what the attempt leaves: one invocation when
    [onEnd] returns, and when it throws a second one, made by the [catch]
    clause, which also puts what [onEnd] threw in the error state. Either
    way the hook is at rest afterwards and not loading. *)
Theorem speak_attempts_onEnd (w0 : world) (text : jsstring)
  (onEnd : option callback) (playbackRate : option Q)
  (payloads : list jsstring) :
  quiescent w0 ->
  (isEmpty (trim text) = true ->
   let called := [SpeakCalled (nextId w0) onEnd] in
   exists w,
     step raises (CallSpeak text onEnd playbackRate) w0 = Some w
     /\ log w = log w0 ++ called ++ attempted raises onEnd (log w0 ++ called)
     /\ quiescent w
     /\ isLoading w = false
     /\ (forall cb e,
            onEnd = Some cb -> raises cb (log w0 ++ called) = Some e ->
            error w = Some (caughtMessage e)
            /\ invocations cb (log w) = S (S (invocations cb (log w0)))))
  /\ (isEmpty (trim text) = false ->
      let called := [SpeakCalled (nextId w0) onEnd;
                     SynthesisRequested (nextId w0) text] in
      exists w,
        run raises (speakInputs (nextId w0) text onEnd playbackRate payloads
                             []) w0 = Some w
        /\ log w = log w0 ++ called
                   ++ attempted raises onEnd (log w0 ++ called)
        /\ quiescent w
        /\ isLoading w = false
        /\ (forall cb e,
               onEnd = Some cb -> raises cb (log w0 ++ called) = Some e ->
               error w = Some (caughtMessage e)
               /\ invocations cb (log w) = S (S (invocations cb (log w0))))).
Proof.
  intros (Hsrc & Hlive & Hsusp).
  assert (Htwice : forall (cb : callback) (e : thrown) (l : list event)
                          (called : list event),
             raises cb (l ++ called) = Some e ->
             invocations cb called = 0 ->
             invocations cb (l ++ called
                             ++ attempted raises (Some cb) (l ++ called))
             = S (S (invocations cb l))).
  { intros cb e l called Hr Hc. unfold attempted. rewrite Hr.
    rewrite !invocations_app, Hc. unfold invocations. cbn.
    rewrite Nat.eqb_refl. cbn. lia. }
  split.
  - intros Htext called.
    rewrite (speak_blank AudioBuffer raises w0 text onEnd playbackRate
               Hsrc Htext).
    set (w1 := setPlaybackRateRef _ _).
    assert (Hlog1 : log w1 = log w0 ++ called)
      by (subst w1 called; destruct w0; reflexivity).
    destruct (attempt_fields onEnd w1) as (Hlog & Hs & Hl & Hc & Herr).
    eexists. split; [reflexivity|].
    split; [cbn [log setIsLoading]; rewrite Hlog, Hlog1, <- app_assoc;
            reflexivity|].
    split.
    { unfold quiescent. cbn [sourceNodeRef liveNodes suspendedCalls
                               setIsLoading].
      rewrite Hs, Hl, Hc. subst w1. destruct w0. cbn in *.
      repeat split; assumption. }
    split; [reflexivity|].
    intros cb e Hcb Hr. rewrite <- Hlog1 in Hr.
    destruct (Herr cb e Hcb Hr) as (He & _).
    split; [exact He|].
    cbn [log setIsLoading]. rewrite Hlog, Hlog1, Hcb, <- app_assoc.
    rewrite Hlog1 in Hr.
    apply (Htwice cb e (log w0) called Hr). reflexivity.
  - intros Htext called. unfold speakInputs. cbn [run].
    rewrite (speak_begin AudioBuffer raises w0 text onEnd playbackRate
               Hsrc Htext).
    rewrite (synthesis_settled_ok AudioBuffer raises _ (nextId w0) onEnd
               payloads)
      by (destruct w0; cbn in *; subst; reflexivity).
    rewrite (decode_settled_empty AudioBuffer raises _ (nextId w0) onEnd)
      by (destruct w0; reflexivity).
    set (w1 := setAudioQueueRef _ _).
    assert (Hlog1 : log w1 = log w0 ++ called)
      by (subst w1 called; destruct w0; cbn; rewrite <- app_assoc;
          reflexivity).
    destruct (attempt_fields onEnd w1) as (Hlog & Hs & Hl & Hc & Herr).
    eexists. split; [reflexivity|].
    split; [cbn [log setIsLoading]; rewrite Hlog, Hlog1, <- app_assoc;
            reflexivity|].
    split.
    { unfold quiescent. cbn [sourceNodeRef liveNodes suspendedCalls
                               setIsLoading].
      rewrite Hs, Hl, Hc. subst w1. destruct w0. cbn in *.
      repeat split; assumption. }
    split; [reflexivity|].
    intros cb e Hcb Hr. rewrite <- Hlog1 in Hr.
    destruct (Herr cb e Hcb Hr) as (He & _).
    split; [exact He|].
    cbn [log setIsLoading]. rewrite Hlog, Hlog1, Hcb, <- app_assoc.
    rewrite Hlog1 in Hr.
    apply (Htwice cb e (log w0) called Hr). reflexivity.
Qed.

End Attempts.

(** [C1]: [speak] does not invoke [onEnd] exactly once when [onEnd]
    throws. Called with blank text and a callback that throws an [Error]
    with the message "cb failed", on the initial state, [speak] invokes
    the callback twice, once in its [try] and once more in its [catch]
    clause, and shows the callback's message as its error; and so it does
    when the synthesis succeeds and the decoding gives no buffer. *)
Theorem speak_invokes_throwing_onEnd_twice :
  (exists w,
      run (raisesAt 7 (ErrorObj (utf16 "cb failed")))
        [CallSpeak (utf16 "   ") (Some 7) None] (initial nat) = Some w
      /\ log w = [SpeakCalled 0 (Some 7); CallbackInvoked 7;
                  CallbackInvoked 7]
      /\ invocations 7 (log w) = 2
      /\ error w = Some (utf16 "cb failed")
      /\ isLoading w = false)
  /\ (exists w,
        run (raisesAt 7 (ErrorObj (utf16 "cb failed")))
          (speakInputs 0 (utf16 "Hi.") (Some 7) None [] []) (initial nat)
        = Some w
        /\ log w = [SpeakCalled 0 (Some 7);
                    SynthesisRequested 0 (utf16 "Hi.");
                    CallbackInvoked 7; CallbackInvoked 7]
        /\ invocations 7 (log w) = 2
        /\ error w = Some (utf16 "cb failed")
        /\ isLoading w = false).
Proof. split; eexists; vm_compute; repeat split; reflexivity. Qed.

Lemma speak_attempts_onEnd_witness :
  exists w,
    step (raisesAt 7 NonError) (CallSpeak (utf16 "  ") (Some 7) None)
      (initial nat) = Some w
    /\ invocations 7 (log w) = 2
    /\ error w = Some (caughtMessage NonError).
Proof.
  destruct (proj1 (speak_attempts_onEnd nat (raisesAt 7 NonError)
                     (initial nat) (utf16 "  ") (Some 7) None []
                     (initial_quiescent nat)) eq_refl)
    as (w & Hstep & _ & _ & _ & Hraise).
  destruct (Hraise 7 NonError eq_refl eq_refl) as (Herr & Hinv).
  exists w. split; [exact Hstep|]. split; [exact Hinv | exact Herr].
Defined.
